(** * Torus mesh generator (Torus.h / Torus.cpp): shallow embedding

    The class [Torus] owns six [std::vector]s and six scalar members.  The
    embedding keeps that shape:

    - [float] is an abstract type [F] with the operations the code applies to
      it ([FloatOps]); every structural theorem holds for any such
      arithmetic.  [B32_FloatOps] is IEEE binary32, the arithmetic of the
      compiled code, with [cosf], [sinf] and [acos] of the C library as
      parameters.  [R_FloatOps] is exact real arithmetic, an idealisation
      without rounding, overflow, NaN or signed zeros.  A property of the
      numeric values is stated for every arithmetic with the laws it needs
      ([axis_arith], [exact_arith]); where binary32 lacks the laws, what the
      code computes instead is shown at [B32_FloatOps].
    - [int] is [Z].  Signed overflow is undefined in C++, so there is no
      wrap-around to write out for it; conversions to [unsigned int] are
      written out as [u32].
    - [std::size_t] loop counters are [nat].
    - [std::vector<T>] is [list T]; [push_back] appends, and [operator[]]
      outside the bounds (undefined behaviour in C++) is the result [None].
    - member functions are state transformers [Torus -> option Torus]. *)

From Stdlib Require Import ZArith Reals Lra Lia Ring SpecFloat.
From stdpp Require Import base list option.

Local Open Scope Z_scope.

(** ** Arithmetic of [float] *)

Class FloatOps (F : Type) := {
  f_of_int : Z → F;        (* int -> float conversion; the literals 0.0f, 1.0f, -1.0f, 2 *)
  f_EPSILON : F;           (* the literal 0.000001f *)
  fadd : F → F → F;
  fsub : F → F → F;
  fmul : F → F → F;
  fdiv : F → F → F;
  fgt : F → F → bool;      (* a > b *)
  fne : F → F → bool;      (* a != b *)
  f_sqrt : F → F;          (* sqrtf *)
  f_cos : F → F;           (* cosf *)
  f_sin : F → F;           (* sinf *)
  f_acos : F → F           (* acos *)
}.

(** ** binary32 *)

(** [float] as IEEE 754 binary32: 24 bits of precision, infinities at
    exponent 128, round to nearest even, with the operations of the standard
    library's specification of floating-point arithmetic: every operation
    of the source is rounded to binary32 by itself, as a compiler does that
    neither keeps intermediate results in a wider format nor fuses a
    multiplication with an addition.  [cosf], [sinf] and [acos] belong to
    the C library, not to the repository: they are parameters. *)
Definition b32_of_int (z : Z) : spec_float := binary_normalize 24 128 z 0 false.

(** The literal [0.000001f]: the binary32 number nearest to 10^-6. *)
Definition b32_EPSILON : spec_float := S754_finite false 8796093 (-43).

Definition B32_FloatOps (cosf sinf acosf : spec_float → spec_float) :
    FloatOps spec_float := {|
  f_of_int := b32_of_int;
  f_EPSILON := b32_EPSILON;
  fadd := SFadd 24 128;
  fsub := SFsub 24 128;
  fmul := SFmul 24 128;
  fdiv := SFdiv 24 128;
  fgt := fun a b => SFltb b a;
  fne := fun a b => negb (SFeqb a b);
  f_sqrt := SFsqrt 24 128;
  f_cos := cosf;
  f_sin := sinf;
  f_acos := acosf
|}.

Definition b32_inf : spec_float := S754_infinity false.
Definition b32_zero : spec_float := S754_zero false.
Definition b32_one : spec_float := S754_finite false 8388608 (-23).

(** ** Exact real arithmetic *)

(** The real numbers in the place of [float]: no rounding, no overflow, no
    NaN, one zero, and 10^-6 itself for the literal [0.000001f].  This is
    not the arithmetic of the compiled code.  It shows that the laws
    [axis_arith] and [exact_arith] can be met, and it carries the statements
    that do not depend on how [float] rounds. *)
#[export] Instance R_FloatOps : FloatOps R := {
  f_of_int := IZR;
  f_EPSILON := (1 / 1000000)%R;
  fadd := Rplus;
  fsub := Rminus;
  fmul := Rmult;
  fdiv := Rdiv;
  fgt := fun a b => if Rlt_dec b a then true else false;
  fne := fun a b => if Req_dec_T a b then false else true;
  f_sqrt := sqrt;
  f_cos := cos;
  f_sin := sin;
  f_acos := acos
}.

(** ** Integers and vectors *)

(** Conversion to [unsigned int] (32 bits). *)
Definition u32 (z : Z) : Z := z mod 2 ^ 32.

Section Vec.
Context {A : Type}.

Definition push_back (v : list A) (x : A) : list A := v ++ [x].

(** [v[i]] as an rvalue, [i] a [std::size_t]. *)
Definition vec_get (v : list A) (i : nat) : option A := v !! i.

(** [v[i]] as an rvalue, [i] an [int]. *)
Definition vec_at (v : list A) (i : Z) : option A :=
  if decide (i < 0) then None else v !! Z.to_nat i.

(** [v[i] = x]. *)
Definition vec_set (v : list A) (i : nat) (x : A) : option (list A) :=
  if decide (i < length v)%nat then Some (<[i:=x]> v) else None.
End Vec.

(** ** Loops *)

Section Loops.
Context {St : Type}.

Fixpoint for_iter (n : nat) (i : Z) (body : Z → St → option St) (s : St)
  : option St :=
  match n with
  | O => Some s
  | S n' => s' ← body i s; for_iter n' (i + 1) body s'
  end.

(** [for(int i = lo; i < hi; ++i) body] *)
Definition for_lt (lo hi : Z) (body : Z → St → option St) (s : St) : option St :=
  for_iter (Z.to_nat (hi - lo)) lo body s.

(** [for(int i = lo; i <= hi; ++i) body] *)
Definition for_le (lo hi : Z) (body : Z → St → option St) (s : St) : option St :=
  for_iter (Z.to_nat (hi + 1 - lo)) lo body s.

(** [for(i = i0, j = j0; i < count; i += di, j += dj) body] over
    [std::size_t] counters.  [None] once the fuel is used up. *)
Fixpoint for_stride (fuel count di dj i j : nat)
    (body : nat → nat → St → option St) (s : St) : option St :=
  if decide (i < count)%nat then
    match fuel with
    | O => None
    | S fuel' =>
        s' ← body i j s; for_stride fuel' count di dj (i + di) (j + dj) body s'
    end
  else Some s.
End Loops.

(** ** The class *)

Section Program.
Context {F : Type} `{FloatOps F}.

Definition MIN_SECTOR_COUNT : Z := 3.
Definition MIN_SIDE_COUNT : Z := 2.

Record Torus := mkTorus {
  majorRadius : F;
  minorRadius : F;
  sectorCount : Z;
  sideCount : Z;
  smooth : bool;
  upAxis : Z;
  vertices : list F;
  normals : list F;
  texCoords : list F;
  indices : list Z;
  lineIndices : list Z;
  interleavedVertices : list F;
  interleavedStride : Z
}.

Definition with_vertices (v : list F) (t : Torus) : Torus :=
  mkTorus (majorRadius t) (minorRadius t) (sectorCount t) (sideCount t)
    (smooth t) (upAxis t) v (normals t) (texCoords t) (indices t)
    (lineIndices t) (interleavedVertices t) (interleavedStride t).
Definition with_normals (v : list F) (t : Torus) : Torus :=
  mkTorus (majorRadius t) (minorRadius t) (sectorCount t) (sideCount t)
    (smooth t) (upAxis t) (vertices t) v (texCoords t) (indices t)
    (lineIndices t) (interleavedVertices t) (interleavedStride t).
Definition with_texCoords (v : list F) (t : Torus) : Torus :=
  mkTorus (majorRadius t) (minorRadius t) (sectorCount t) (sideCount t)
    (smooth t) (upAxis t) (vertices t) (normals t) v (indices t)
    (lineIndices t) (interleavedVertices t) (interleavedStride t).
Definition with_indices (v : list Z) (t : Torus) : Torus :=
  mkTorus (majorRadius t) (minorRadius t) (sectorCount t) (sideCount t)
    (smooth t) (upAxis t) (vertices t) (normals t) (texCoords t) v
    (lineIndices t) (interleavedVertices t) (interleavedStride t).
Definition with_lineIndices (v : list Z) (t : Torus) : Torus :=
  mkTorus (majorRadius t) (minorRadius t) (sectorCount t) (sideCount t)
    (smooth t) (upAxis t) (vertices t) (normals t) (texCoords t) (indices t)
    v (interleavedVertices t) (interleavedStride t).
Definition with_interleaved (v : list F) (t : Torus) : Torus :=
  mkTorus (majorRadius t) (minorRadius t) (sectorCount t) (sideCount t)
    (smooth t) (upAxis t) (vertices t) (normals t) (texCoords t) (indices t)
    (lineIndices t) v (interleavedStride t).
Definition with_smooth (b : bool) (t : Torus) : Torus :=
  mkTorus (majorRadius t) (minorRadius t) (sectorCount t) (sideCount t)
    b (upAxis t) (vertices t) (normals t) (texCoords t) (indices t)
    (lineIndices t) (interleavedVertices t) (interleavedStride t).
Definition with_upAxis (up : Z) (t : Torus) : Torus :=
  mkTorus (majorRadius t) (minorRadius t) (sectorCount t) (sideCount t)
    (smooth t) up (vertices t) (normals t) (texCoords t) (indices t)
    (lineIndices t) (interleavedVertices t) (interleavedStride t).
Definition with_majorRadius (r : F) (t : Torus) : Torus :=
  mkTorus r (minorRadius t) (sectorCount t) (sideCount t)
    (smooth t) (upAxis t) (vertices t) (normals t) (texCoords t) (indices t)
    (lineIndices t) (interleavedVertices t) (interleavedStride t).
Definition with_minorRadius (r : F) (t : Torus) : Torus :=
  mkTorus (majorRadius t) r (sectorCount t) (sideCount t)
    (smooth t) (upAxis t) (vertices t) (normals t) (texCoords t) (indices t)
    (lineIndices t) (interleavedVertices t) (interleavedStride t).
Definition with_sectorCount (n : Z) (t : Torus) : Torus :=
  mkTorus (majorRadius t) (minorRadius t) n (sideCount t)
    (smooth t) (upAxis t) (vertices t) (normals t) (texCoords t) (indices t)
    (lineIndices t) (interleavedVertices t) (interleavedStride t).
Definition with_sideCount (n : Z) (t : Torus) : Torus :=
  mkTorus (majorRadius t) (minorRadius t) (sectorCount t) n
    (smooth t) (upAxis t) (vertices t) (normals t) (texCoords t) (indices t)
    (lineIndices t) (interleavedVertices t) (interleavedStride t).

(** *** Accessors of Torus.h *)

Definition getVertexCount (t : Torus) : Z :=
  u32 (Z.of_nat (length (vertices t))) / 3.
Definition getNormalCount (t : Torus) : Z :=
  u32 (Z.of_nat (length (normals t))) / 3.
Definition getTexCoordCount (t : Torus) : Z :=
  u32 (Z.of_nat (length (texCoords t))) / 2.
Definition getIndexCount (t : Torus) : Z :=
  u32 (Z.of_nat (length (indices t))).
Definition getLineIndexCount (t : Torus) : Z :=
  u32 (Z.of_nat (length (lineIndices t))).
Definition getTriangleCount (t : Torus) : Z := getIndexCount t / 3.
Definition getInterleavedStride (t : Torus) : Z := interleavedStride t.

(** [sizeof(float)] and [sizeof(unsigned int)]: 4 bytes, as OpenGL's
    GL_FLOAT and GL_UNSIGNED_INT are. *)
Definition sizeof_float : Z := 4.
Definition sizeof_unsigned_int : Z := 4.

(** The product is taken in [std::size_t] and returned as [unsigned int]. *)
Definition getVertexSize (t : Torus) : Z :=
  u32 (u32 (Z.of_nat (length (vertices t))) * sizeof_float).
Definition getNormalSize (t : Torus) : Z :=
  u32 (u32 (Z.of_nat (length (normals t))) * sizeof_float).
Definition getTexCoordSize (t : Torus) : Z :=
  u32 (u32 (Z.of_nat (length (texCoords t))) * sizeof_float).
Definition getIndexSize (t : Torus) : Z :=
  u32 (u32 (Z.of_nat (length (indices t))) * sizeof_unsigned_int).
Definition getLineIndexSize (t : Torus) : Z :=
  u32 (u32 (Z.of_nat (length (lineIndices t))) * sizeof_unsigned_int).
Definition getInterleavedVertexCount (t : Torus) : Z := getVertexCount t.
Definition getInterleavedVertexSize (t : Torus) : Z :=
  u32 (u32 (Z.of_nat (length (interleavedVertices t))) * sizeof_float).

(** *** addVertex, addNormal, addTexCoord, addIndices, clearArrays *)

Definition addVertex (x y z : F) (t : Torus) : Torus :=
  with_vertices (push_back (push_back (push_back (vertices t) x) y) z) t.

Definition addNormal (nx ny nz : F) (t : Torus) : Torus :=
  with_normals (push_back (push_back (push_back (normals t) nx) ny) nz) t.

Definition addTexCoord (s t_ : F) (t : Torus) : Torus :=
  with_texCoords (push_back (push_back (texCoords t) s) t_) t.

Definition addIndices (i1 i2 i3 : Z) (t : Torus) : Torus :=
  with_indices (push_back (push_back (push_back (indices t) i1) i2) i3) t.

Definition addLineIndex (i1 : Z) (t : Torus) : Torus :=
  with_lineIndices (push_back (lineIndices t) i1) t.

Definition clearArrays (t : Torus) : Torus :=
  with_lineIndices [] (with_indices [] (with_texCoords []
    (with_normals [] (with_vertices [] t)))).

(** *** computeFaceNormal *)

Definition computeFaceNormal (x1 y1 z1 x2 y2 z2 x3 y3 z3 : F) : option (list F) :=
  let normal := replicate 3 (f_of_int 0) in
  let ex1 := fsub x2 x1 in
  let ey1 := fsub y2 y1 in
  let ez1 := fsub z2 z1 in
  let ex2 := fsub x3 x1 in
  let ey2 := fsub y3 y1 in
  let ez2 := fsub z3 z1 in
  let nx := fsub (fmul ey1 ez2) (fmul ez1 ey2) in
  let ny := fsub (fmul ez1 ex2) (fmul ex1 ez2) in
  let nz := fsub (fmul ex1 ey2) (fmul ey1 ex2) in
  let length := f_sqrt (fadd (fadd (fmul nx nx) (fmul ny ny)) (fmul nz nz)) in
  if fgt length f_EPSILON then
    let lengthInv := fdiv (f_of_int 1) length in
    normal ← vec_set normal 0 (fmul nx lengthInv);
    normal ← vec_set normal 1 (fmul ny lengthInv);
    vec_set normal 2 (fmul nz lengthInv)
  else Some normal.

(** *** buildInterleavedVertices *)

Definition buildInterleavedVertices (t : Torus) : option Torus :=
  let t := with_interleaved [] t in
  let count := length (vertices t) in
  for_stride count count 3 2 0 0 (fun i j t =>
    v0 ← vec_get (vertices t) i;
    v1 ← vec_get (vertices t) (i + 1);
    v2 ← vec_get (vertices t) (i + 2);
    n0 ← vec_get (normals t) i;
    n1 ← vec_get (normals t) (i + 1);
    n2 ← vec_get (normals t) (i + 2);
    t0 ← vec_get (texCoords t) j;
    t1 ← vec_get (texCoords t) (j + 1);
    Some (with_interleaved
           (push_back (push_back (push_back (push_back (push_back (push_back
             (push_back (push_back (interleavedVertices t)
               v0) v1) v2) n0) n1) n2) t0) t1) t)) t.

(** *** changeUpAxis *)

(** [a[0] = v], [a[1] = v], [a[2] = v] on a [float a[3]]. *)
Definition put0 (v : F) (a : F * F * F) : F * F * F :=
  let '(_, a1, a2) := a in (v, a1, a2).
Definition put1 (v : F) (a : F * F * F) : F * F * F :=
  let '(a0, _, a2) := a in (a0, v, a2).
Definition put2 (v : F) (a : F * F * F) : F * F * F :=
  let '(a0, a1, _) := a in (a0, a1, v).

(** The three columns [tx], [ty], [tz] after the if-else chain. *)
Definition axisColumns (from to : Z) : (F * F * F) * (F * F * F) * (F * F * F) :=
  let o := f_of_int 0 in
  let l := f_of_int 1 in
  let m := f_of_int (-1) in
  let tx := (l, o, o) in
  let ty := (o, l, o) in
  let tz := (o, o, l) in
  if decide (from = 1 ∧ to = 2) then
    (put1 l (put0 o tx), put1 o (put0 m ty), tz)
  else if decide (from = 1 ∧ to = 3) then
    (put2 l (put0 o tx), ty, put2 o (put0 m tz))
  else if decide (from = 2 ∧ to = 1) then
    (put1 m (put0 o tx), put1 o (put0 l ty), tz)
  else if decide (from = 2 ∧ to = 3) then
    (tx, put2 l (put1 o ty), put2 o (put1 m tz))
  else if decide (from = 3 ∧ to = 1) then
    (put2 m (put0 o tx), ty, put2 o (put0 l tz))
  else
    (tx, put2 m (put1 o ty), put2 o (put1 l tz)).

(** One row of the product: [tx[k] * vx + ty[k] * vy + tz[k] * vz]. *)
Definition axisRow (a b c vx vy vz : F) : F :=
  fadd (fadd (fmul a vx) (fmul b vy)) (fmul c vz).

Definition changeUpAxis (from to : Z) (t : Torus) : option Torus :=
  let '((tx0, tx1, tx2), (ty0, ty1, ty2), (tz0, tz1, tz2)) := axisColumns from to in
  let count := length (vertices t) in
  for_stride count count 3 8 0 0 (fun i j t =>
    vx ← vec_get (vertices t) i;
    vy ← vec_get (vertices t) (i + 1);
    vz ← vec_get (vertices t) (i + 2);
    vs ← vec_set (vertices t) i (axisRow tx0 ty0 tz0 vx vy vz);
    vs ← vec_set vs (i + 1) (axisRow tx1 ty1 tz1 vx vy vz);
    vs ← vec_set vs (i + 2) (axisRow tx2 ty2 tz2 vx vy vz);
    nx ← vec_get (normals t) i;
    ny ← vec_get (normals t) (i + 1);
    nz ← vec_get (normals t) (i + 2);
    ns ← vec_set (normals t) i (axisRow tx0 ty0 tz0 nx ny nz);
    ns ← vec_set ns (i + 1) (axisRow tx1 ty1 tz1 nx ny nz);
    ns ← vec_set ns (i + 2) (axisRow tx2 ty2 tz2 nx ny nz);
    a0 ← vec_get vs i;
    a1 ← vec_get vs (i + 1);
    a2 ← vec_get vs (i + 2);
    b0 ← vec_get ns i;
    b1 ← vec_get ns (i + 1);
    b2 ← vec_get ns (i + 2);
    iv ← vec_set (interleavedVertices t) j a0;
    iv ← vec_set iv (j + 1) a1;
    iv ← vec_set iv (j + 2) a2;
    iv ← vec_set iv (j + 3) b0;
    iv ← vec_set iv (j + 4) b1;
    iv ← vec_set iv (j + 5) b2;
    Some (with_interleaved iv (with_normals ns (with_vertices vs t)))) t.

(** *** reverseNormals *)

Definition reverseNormals (t : Torus) : option Torus :=
  let count := length (normals t) in
  t ← for_stride count count 3 8 0 3 (fun i j t =>
    n0 ← vec_get (normals t) i;
    ns ← vec_set (normals t) i (fmul n0 (f_of_int (-1)));
    n1 ← vec_get ns (i + 1);
    ns ← vec_set ns (i + 1) (fmul n1 (f_of_int (-1)));
    n2 ← vec_get ns (i + 2);
    ns ← vec_set ns (i + 2) (fmul n2 (f_of_int (-1)));
    a0 ← vec_get ns i;
    iv ← vec_set (interleavedVertices t) j a0;
    a1 ← vec_get ns (i + 1);
    iv ← vec_set iv (j + 1) a1;
    a2 ← vec_get ns (i + 2);
    iv ← vec_set iv (j + 2) a2;
    Some (with_interleaved iv (with_normals ns t))) t;
  let count := length (indices t) in
  for_stride count count 3 0 0 0 (fun i _ t =>
    tmp ← vec_get (indices t) i;
    k ← vec_get (indices t) (i + 2);
    ids ← vec_set (indices t) i k;
    ids ← vec_set ids (i + 2) tmp;
    Some (with_indices ids t)) t.

(** *** buildVerticesSmooth *)

(** First loop nest: one normal, one position and one texture coordinate
    per grid point. *)
Definition smoothSamples (t : Torus) : option Torus :=
  let PI := f_acos (f_of_int (-1)) in
  let lengthInv := fdiv (f_of_int 1) (minorRadius t) in
  let sectorStep := fdiv (fmul (f_of_int 2) PI) (f_of_int (sectorCount t)) in
  let sideStep := fdiv (fmul (f_of_int 2) PI) (f_of_int (sideCount t)) in
  for_le 0 (sideCount t) (fun i t =>
    let sideAngle := fsub PI (fmul (f_of_int i) sideStep) in
    let xy := fmul (minorRadius t) (f_cos sideAngle) in
    let z := fmul (minorRadius t) (f_sin sideAngle) in
    for_le 0 (sectorCount t) (fun j t =>
      let sectorAngle := fmul (f_of_int j) sectorStep in
      let x := fmul xy (f_cos sectorAngle) in
      let y := fmul xy (f_sin sectorAngle) in
      let nx := fmul x lengthInv in
      let ny := fmul y lengthInv in
      let nz := fmul z lengthInv in
      let t := addNormal nx ny nz t in
      let x := fadd x (fmul (majorRadius t) (f_cos sectorAngle)) in
      let y := fadd y (fmul (majorRadius t) (f_sin sectorAngle)) in
      let t := addVertex x y z t in
      let s := fdiv (f_of_int j) (f_of_int (sectorCount t)) in
      let t_ := fdiv (f_of_int i) (f_of_int (sideCount t)) in
      Some (addTexCoord s t_ t)) t) t.

(** Second loop nest: two triangles and two edges per grid cell.  [k1] and
    [k2] are [unsigned int]. *)
Definition smoothIndices (t : Torus) : option Torus :=
  for_lt 0 (sideCount t) (fun i t =>
    let k1 := u32 (i * (sectorCount t + 1)) in
    let k2 := u32 (k1 + sectorCount t + 1) in
    '(_, _, t) ← for_lt 0 (sectorCount t) (fun j '(k1, k2, t) =>
      let t := addIndices k1 k2 (u32 (k1 + 1)) t in
      let t := addIndices (u32 (k1 + 1)) k2 (u32 (k2 + 1)) t in
      let t := addLineIndex k1 t in
      let t := addLineIndex k2 t in
      let t := addLineIndex k1 t in
      let t := addLineIndex (u32 (k1 + 1)) t in
      Some (u32 (k1 + 1), u32 (k2 + 1), t)) (k1, k2, t);
    Some t) t.

Definition buildVerticesSmooth (t : Torus) : option Torus :=
  let t := clearArrays t in
  t ← smoothSamples t;
  t ← smoothIndices t;
  t ← buildInterleavedVertices t;
  if decide (upAxis t ≠ 3) then changeUpAxis 3 (upAxis t) t else Some t.

(** *** buildVerticesFlat *)

Record Vertex := mkVertex { v_x : F; v_y : F; v_z : F; v_s : F; v_t : F }.

(** First loop nest: the temporary grid [tmpVertices]. *)
Definition flatSamples (t : Torus) : option (list Vertex) :=
  let PI := f_acos (f_of_int (-1)) in
  let sectorStep := fdiv (fmul (f_of_int 2) PI) (f_of_int (sectorCount t)) in
  let sideStep := fdiv (fmul (f_of_int 2) PI) (f_of_int (sideCount t)) in
  for_le 0 (sideCount t) (fun i tmpVertices =>
    let sideAngle := fsub PI (fmul (f_of_int i) sideStep) in
    let xy := fadd (majorRadius t) (fmul (minorRadius t) (f_cos sideAngle)) in
    let z := fmul (minorRadius t) (f_sin sideAngle) in
    for_le 0 (sectorCount t) (fun j tmpVertices =>
      let sectorAngle := fmul (f_of_int j) sectorStep in
      let vertex :=
        mkVertex (fmul xy (f_cos sectorAngle))
                 (fmul xy (f_sin sectorAngle))
                 z
                 (fdiv (f_of_int j) (f_of_int (sectorCount t)))
                 (fdiv (f_of_int i) (f_of_int (sideCount t))) in
      Some (push_back tmpVertices vertex)) tmpVertices) [].

(** Second loop nest: four vertices, one face normal, two triangles and two
    edges per grid cell.  [index], [vi1] and [vi2] are [int]. *)
Definition flatQuads (tmpVertices : list Vertex) (t : Torus) : option Torus :=
  '(_, t) ← for_lt 0 (sideCount t) (fun i '(index, t) =>
    let vi1 := i * (sectorCount t + 1) in
    let vi2 := (i + 1) * (sectorCount t + 1) in
    '(_, _, index, t) ← for_lt 0 (sectorCount t) (fun j '(vi1, vi2, index, t) =>
      v1 ← vec_at tmpVertices vi1;
      v2 ← vec_at tmpVertices vi2;
      v3 ← vec_at tmpVertices (vi1 + 1);
      v4 ← vec_at tmpVertices (vi2 + 1);
      let t := addVertex (v_x v1) (v_y v1) (v_z v1) t in
      let t := addVertex (v_x v2) (v_y v2) (v_z v2) t in
      let t := addVertex (v_x v3) (v_y v3) (v_z v3) t in
      let t := addVertex (v_x v4) (v_y v4) (v_z v4) t in
      let t := addTexCoord (v_s v1) (v_t v1) t in
      let t := addTexCoord (v_s v2) (v_t v2) t in
      let t := addTexCoord (v_s v3) (v_t v3) t in
      let t := addTexCoord (v_s v4) (v_t v4) t in
      n ← computeFaceNormal (v_x v1) (v_y v1) (v_z v1)
                            (v_x v2) (v_y v2) (v_z v2)
                            (v_x v3) (v_y v3) (v_z v3);
      t ← for_lt 0 4 (fun k t =>
        n0 ← vec_get n 0;
        n1 ← vec_get n 1;
        n2 ← vec_get n 2;
        Some (addNormal n0 n1 n2 t)) t;
      let t := addIndices (u32 index) (u32 (index + 1)) (u32 (index + 2)) t in
      let t := addIndices (u32 (index + 2)) (u32 (index + 1)) (u32 (index + 3)) t in
      let t := addLineIndex (u32 index) t in
      let t := addLineIndex (u32 (index + 1)) t in
      let t := addLineIndex (u32 index) t in
      let t := addLineIndex (u32 (index + 2)) t in
      Some (vi1 + 1, vi2 + 1, index + 4, t)) (vi1, vi2, index, t);
    Some (index, t)) (0, t);
  Some t.

Definition buildVerticesFlat (t : Torus) : option Torus :=
  tmpVertices ← flatSamples t;
  let t := clearArrays t in
  t ← flatQuads tmpVertices t;
  t ← buildInterleavedVertices t;
  if decide (upAxis t ≠ 3) then changeUpAxis 3 (upAxis t) t else Some t.

(** *** set and the setters *)

Definition set (majorR minorR : F) (sectors sides : Z) (smooth_ : bool) (up : Z)
    (t : Torus) : option Torus :=
  let t := if fgt majorR (f_of_int 0) then with_majorRadius majorR t else t in
  let t := if fgt minorR (f_of_int 0) then with_minorRadius minorR t else t in
  let t := with_sectorCount sectors t in
  let t := if decide (sectors < MIN_SECTOR_COUNT)
           then with_sectorCount MIN_SECTOR_COUNT t else t in
  let t := with_sideCount sides t in
  let t := if decide (sides < MIN_SIDE_COUNT)
           then with_sideCount MIN_SIDE_COUNT t else t in
  let t := with_smooth smooth_ t in
  let t := with_upAxis up t in
  let t := if decide (up < 1 ∨ up > 3) then with_upAxis 3 t else t in
  if smooth_ then buildVerticesSmooth t else buildVerticesFlat t.

(** The constructor.  [mem] stands for the indeterminate content of the
    scalar members before the body runs; the vectors are default
    constructed (empty) and [interleavedStride] is initialised to 32. *)
Definition Torus_new (mem : Torus) (majorR minorR : F) (sectors sides : Z)
    (smooth_ : bool) (up : Z) : option Torus :=
  set majorR minorR sectors sides smooth_ up
    (mkTorus (majorRadius mem) (minorRadius mem) (sectorCount mem)
       (sideCount mem) (smooth mem) (upAxis mem) [] [] [] [] [] [] 32).

Definition setMajorRadius (r : F) (t : Torus) : option Torus :=
  if fne r (majorRadius t)
  then set r (minorRadius t) (sectorCount t) (sideCount t) (smooth t) (upAxis t) t
  else Some t.

Definition setMinorRadius (r : F) (t : Torus) : option Torus :=
  if fne r (minorRadius t)
  then set (majorRadius t) r (sectorCount t) (sideCount t) (smooth t) (upAxis t) t
  else Some t.

Definition setSectorCount (sectors : Z) (t : Torus) : option Torus :=
  if decide (sectors ≠ sectorCount t)
  then set (majorRadius t) (minorRadius t) sectors (sideCount t) (smooth t) (upAxis t) t
  else Some t.

Definition setSideCount (sides : Z) (t : Torus) : option Torus :=
  if decide (sides ≠ sideCount t)
  then set (majorRadius t) (minorRadius t) (sectorCount t) sides (smooth t) (upAxis t) t
  else Some t.

Definition setSmooth (smooth_ : bool) (t : Torus) : option Torus :=
  if decide (smooth t = smooth_) then Some t
  else
    let t := with_smooth smooth_ t in
    if smooth_ then buildVerticesSmooth t else buildVerticesFlat t.

Definition setUpAxis (up : Z) (t : Torus) : option Torus :=
  if decide (upAxis t = up ∨ up < 1 ∨ up > 3) then Some t
  else
    t ← changeUpAxis (upAxis t) up t;
    Some (with_upAxis up t).
End Program.

Arguments Torus F : clear implicits.
Arguments Vertex F : clear implicits.

(** ** Functional description of the loops *)

Section Description.
Context {F : Type} `{FloatOps F}.

(** The V/N/T records written by [buildInterleavedVertices]. *)
Fixpoint interleave (v n tc : list F) : list F :=
  match v, n, tc with
  | x :: y :: z :: v', a :: b :: c :: n', s :: q :: tc' =>
      x :: y :: z :: a :: b :: c :: s :: q :: interleave v' n' tc'
  | _, _, _ => []
  end.

(** A function applied to every (x, y, z) triple of a flat array. *)
Fixpoint map3 (f : F → F → F → list F) (l : list F) : list F :=
  match l with
  | x :: y :: z :: l' => f x y z ++ map3 f l'
  | _ => []
  end.

(** The matrix product of [changeUpAxis] on one triple. *)
Definition axisMap (from to : Z) (x y z : F) : list F :=
  let '((tx0, tx1, tx2), (ty0, ty1, ty2), (tz0, tz1, tz2)) := axisColumns from to in
  [axisRow tx0 ty0 tz0 x y z; axisRow tx1 ty1 tz1 x y z; axisRow tx2 ty2 tz2 x y z].

(** [x *= -1] *)
Definition negate (x : F) : F := fmul x (f_of_int (-1)).

(** First and last index of every triangle exchanged. *)
Fixpoint swap3 (l : list Z) : list Z :=
  match l with
  | a :: b :: c :: l' => c :: b :: a :: swap3 l'
  | _ => []
  end.

(** The arrays of [t] extended at the back. *)
Definition app_arrays (dv dn dt : list F) (di dl : list Z) (t : Torus F) : Torus F :=
  mkTorus (majorRadius t) (minorRadius t) (sectorCount t) (sideCount t)
    (smooth t) (upAxis t) (vertices t ++ dv) (normals t ++ dn)
    (texCoords t ++ dt) (indices t ++ di) (lineIndices t ++ dl)
    (interleavedVertices t) (interleavedStride t).

(** The arrays of a mesh of [n] vertices: parallel attribute arrays, whole
    triangles and edges, every index below [n]. *)
Definition arrays_shape (n : nat) (t : Torus F) : Prop :=
  length (vertices t) = (3 * n)%nat ∧
  length (normals t) = (3 * n)%nat ∧
  length (texCoords t) = (2 * n)%nat ∧
  (∃ k : nat, length (indices t) = (3 * k)%nat) ∧
  (∃ k : nat, length (lineIndices t) = (2 * k)%nat) ∧
  Forall (fun x => 0 ≤ x < Z.of_nat n) (indices t) ∧
  Forall (fun x => 0 ≤ x < Z.of_nat n) (lineIndices t).

(** ... and the interleaved copy in step with them. *)
Definition mesh_shape (n : nat) (t : Torus F) : Prop :=
  arrays_shape n t ∧
  interleavedVertices t = interleave (vertices t) (normals t) (texCoords t).

(** What a loop nest over the grid [0 <= i < rows], [0 <= j < cols]
    appends, row by row. *)
Definition grid {A : Type} (rows cols : Z) (g : Z → Z → list A) : list A :=
  seqZ 0 rows ≫= fun i => seqZ 0 cols ≫= fun j => g i j.

Definition sectorStep (t : Torus F) : F :=
  fdiv (fmul (f_of_int 2) (f_acos (f_of_int (-1)))) (f_of_int (sectorCount t)).
Definition sideStep (t : Torus F) : F :=
  fdiv (fmul (f_of_int 2) (f_acos (f_of_int (-1)))) (f_of_int (sideCount t)).
(** The tube angle u of row [i] and the ring angle v of column [j]. *)
Definition sideAngle (t : Torus F) (i : Z) : F :=
  fsub (f_acos (f_of_int (-1))) (fmul (f_of_int i) (sideStep t)).
Definition sectorAngle (t : Torus F) (j : Z) : F :=
  fmul (f_of_int j) (sectorStep t).

(** The three floats [addNormal] receives at grid point (i, j). *)
Definition smoothNormal (t : Torus F) (i j : Z) : list F :=
  let xy := fmul (minorRadius t) (f_cos (sideAngle t i)) in
  let z := fmul (minorRadius t) (f_sin (sideAngle t i)) in
  let lengthInv := fdiv (f_of_int 1) (minorRadius t) in
  [fmul (fmul xy (f_cos (sectorAngle t j))) lengthInv;
   fmul (fmul xy (f_sin (sectorAngle t j))) lengthInv;
   fmul z lengthInv].

(** The three floats [addVertex] receives at grid point (i, j). *)
Definition smoothVertex (t : Torus F) (i j : Z) : list F :=
  let xy := fmul (minorRadius t) (f_cos (sideAngle t i)) in
  let z := fmul (minorRadius t) (f_sin (sideAngle t i)) in
  [fadd (fmul xy (f_cos (sectorAngle t j)))
        (fmul (majorRadius t) (f_cos (sectorAngle t j)));
   fadd (fmul xy (f_sin (sectorAngle t j)))
        (fmul (majorRadius t) (f_sin (sectorAngle t j)));
   z].

Definition gridTexCoord (t : Torus F) (i j : Z) : list F :=
  [fdiv (f_of_int j) (f_of_int (sectorCount t));
   fdiv (f_of_int i) (f_of_int (sideCount t))].

(** Indices of grid cell (i, j) in smooth mode. *)
Definition smoothK1 (t : Torus F) (i j : Z) : Z :=
  u32 (i * (sectorCount t + 1) + j).
Definition smoothK2 (t : Torus F) (i j : Z) : Z :=
  u32 (i * (sectorCount t + 1) + sectorCount t + 1 + j).

Definition smoothTriangles (t : Torus F) (i j : Z) : list Z :=
  let k1 := smoothK1 t i j in
  let k2 := smoothK2 t i j in
  [k1; k2; u32 (k1 + 1); u32 (k1 + 1); k2; u32 (k2 + 1)].

Definition smoothLines (t : Torus F) (i j : Z) : list Z :=
  let k1 := smoothK1 t i j in
  let k2 := smoothK2 t i j in
  [k1; k2; k1; u32 (k1 + 1)].

Definition smoothArrays (t : Torus F) : Torus F :=
  app_arrays
    (grid (sideCount t + 1) (sectorCount t + 1) (smoothVertex t))
    (grid (sideCount t + 1) (sectorCount t + 1) (smoothNormal t))
    (grid (sideCount t + 1) (sectorCount t + 1) (gridTexCoord t))
    (grid (sideCount t) (sectorCount t) (smoothTriangles t))
    (grid (sideCount t) (sectorCount t) (smoothLines t))
    (clearArrays t).

(** Entry (i, j) of [tmpVertices] in flat mode. *)
Definition flatVertex (t : Torus F) (i j : Z) : Vertex F :=
  let xy := fadd (majorRadius t) (fmul (minorRadius t) (f_cos (sideAngle t i))) in
  let z := fmul (minorRadius t) (f_sin (sideAngle t i)) in
  mkVertex (fmul xy (f_cos (sectorAngle t j)))
           (fmul xy (f_sin (sectorAngle t j)))
           z
           (fdiv (f_of_int j) (f_of_int (sectorCount t)))
           (fdiv (f_of_int i) (f_of_int (sideCount t))).

Definition flatGrid (t : Torus F) : list (Vertex F) :=
  grid (sideCount t + 1) (sectorCount t + 1) (fun i j => [flatVertex t i j]).

(** The value [computeFaceNormal] returns. *)
Definition faceNormal (x1 y1 z1 x2 y2 z2 x3 y3 z3 : F) : list F :=
  let ex1 := fsub x2 x1 in
  let ey1 := fsub y2 y1 in
  let ez1 := fsub z2 z1 in
  let ex2 := fsub x3 x1 in
  let ey2 := fsub y3 y1 in
  let ez2 := fsub z3 z1 in
  let nx := fsub (fmul ey1 ez2) (fmul ez1 ey2) in
  let ny := fsub (fmul ez1 ex2) (fmul ex1 ez2) in
  let nz := fsub (fmul ex1 ey2) (fmul ey1 ex2) in
  let length := f_sqrt (fadd (fadd (fmul nx nx) (fmul ny ny)) (fmul nz nz)) in
  if fgt length f_EPSILON then
    let lengthInv := fdiv (f_of_int 1) length in
    [fmul nx lengthInv; fmul ny lengthInv; fmul nz lengthInv]
  else [f_of_int 0; f_of_int 0; f_of_int 0].

Definition xyz (v : Vertex F) : list F := [v_x v; v_y v; v_z v].

(** What the quad of grid cell (i, j) appends in flat mode: corners
    v1 = (i, j), v2 = (i+1, j), v3 = (i, j+1), v4 = (i+1, j+1). *)
Definition flatQuadVertices (t : Torus F) (i j : Z) : list F :=
  xyz (flatVertex t i j) ++ xyz (flatVertex t (i + 1) j) ++
  xyz (flatVertex t i (j + 1)) ++ xyz (flatVertex t (i + 1) (j + 1)).

Definition flatQuadTexCoords (t : Torus F) (i j : Z) : list F :=
  let v1 := flatVertex t i j in
  let v2 := flatVertex t (i + 1) j in
  let v3 := flatVertex t i (j + 1) in
  let v4 := flatVertex t (i + 1) (j + 1) in
  [v_s v1; v_t v1; v_s v2; v_t v2; v_s v3; v_t v3; v_s v4; v_t v4].

Definition quadNormal (t : Torus F) (i j : Z) : list F :=
  let v1 := flatVertex t i j in
  let v2 := flatVertex t (i + 1) j in
  let v3 := flatVertex t i (j + 1) in
  faceNormal (v_x v1) (v_y v1) (v_z v1) (v_x v2) (v_y v2) (v_z v2)
             (v_x v3) (v_y v3) (v_z v3).

Definition flatQuadNormals (t : Torus F) (i j : Z) : list F :=
  let n := quadNormal t i j in n ++ n ++ n ++ n.

(** The running [index] when cell (i, j) is reached. *)
Definition flatIndex (t : Torus F) (i j : Z) : Z :=
  4 * (i * sectorCount t + j).

Definition flatTriangles (t : Torus F) (i j : Z) : list Z :=
  let index := flatIndex t i j in
  [u32 index; u32 (index + 1); u32 (index + 2);
   u32 (index + 2); u32 (index + 1); u32 (index + 3)].

Definition flatLines (t : Torus F) (i j : Z) : list Z :=
  let index := flatIndex t i j in
  [u32 index; u32 (index + 1); u32 index; u32 (index + 2)].

Definition flatArrays (t : Torus F) : Torus F :=
  app_arrays
    (grid (sideCount t) (sectorCount t) (flatQuadVertices t))
    (grid (sideCount t) (sectorCount t) (flatQuadNormals t))
    (grid (sideCount t) (sectorCount t) (flatQuadTexCoords t))
    (grid (sideCount t) (sectorCount t) (flatTriangles t))
    (grid (sideCount t) (sectorCount t) (flatLines t))
    (clearArrays t).

(** The common tail of both builders: interleave, then turn the mesh when
    the up axis is not Z. *)
Definition finishMesh (t : Torus F) : Torus F :=
  let t := with_interleaved
             (interleave (vertices t) (normals t) (texCoords t)) t in
  if decide (upAxis t ≠ 3) then
    let v := map3 (axisMap 3 (upAxis t)) (vertices t) in
    let n := map3 (axisMap 3 (upAxis t)) (normals t) in
    with_interleaved (interleave v n (texCoords t))
      (with_normals n (with_vertices v t))
  else t.

(** Vertex counts of the two modes. *)
Definition smoothCount (t : Torus F) : nat :=
  (Z.to_nat (sideCount t + 1) * Z.to_nat (sectorCount t + 1))%nat.
Definition flatCount (t : Torus F) : nat :=
  (4 * (Z.to_nat (sideCount t) * Z.to_nat (sectorCount t)))%nat.
Definition vertexCount (t : Torus F) : nat :=
  if smooth t then smoothCount t else flatCount t.

(** The scalar members after the assignments of [set]. *)
Definition setParams (majorR minorR : F) (sectors sides : Z) (smooth_ : bool)
    (up : Z) (t : Torus F) : Torus F :=
  mkTorus
    (if fgt majorR (f_of_int 0) then majorR else majorRadius t)
    (if fgt minorR (f_of_int 0) then minorR else minorRadius t)
    (if decide (sectors < MIN_SECTOR_COUNT) then MIN_SECTOR_COUNT else sectors)
    (if decide (sides < MIN_SIDE_COUNT) then MIN_SIDE_COUNT else sides)
    smooth_
    (if decide (up < 1 ∨ up > 3) then 3 else up)
    (vertices t) (normals t) (texCoords t) (indices t) (lineIndices t)
    (interleavedVertices t) (interleavedStride t).

(** [set] as a function of the object. *)
Definition rebuilt (majorR minorR : F) (sectors sides : Z) (smooth_ : bool)
    (up : Z) (t : Torus F) : Torus F :=
  let t := setParams majorR minorR sectors sides smooth_ up t in
  finishMesh (if smooth_ then smoothArrays t else flatArrays t).

(** The class invariant. *)
Definition torus_inv (t : Torus F) : Prop :=
  MIN_SECTOR_COUNT ≤ sectorCount t ∧
  MIN_SIDE_COUNT ≤ sideCount t ∧
  1 ≤ upAxis t ≤ 3 ∧
  mesh_shape (vertexCount t) t ∧
  Z.of_nat (length (indices t)) = 3 * (2 * sectorCount t * sideCount t) ∧
  Z.of_nat (length (lineIndices t)) = 4 * sectorCount t * sideCount t.

(** The objects a client can hold: constructed, then changed through the
    public mutators. *)
Inductive reachable : Torus F → Prop :=
| reach_new mem majorR minorR sectors sides smooth_ up t :
    Torus_new mem majorR minorR sectors sides smooth_ up = Some t →
    reachable t
| reach_set majorR minorR sectors sides smooth_ up t t' :
    reachable t →
    set majorR minorR sectors sides smooth_ up t = Some t' → reachable t'
| reach_setMajorRadius r t t' :
    reachable t → setMajorRadius r t = Some t' → reachable t'
| reach_setMinorRadius r t t' :
    reachable t → setMinorRadius r t = Some t' → reachable t'
| reach_setSectorCount n t t' :
    reachable t → setSectorCount n t = Some t' → reachable t'
| reach_setSideCount n t t' :
    reachable t → setSideCount n t = Some t' → reachable t'
| reach_setSmooth b t t' :
    reachable t → setSmooth b t = Some t' → reachable t'
| reach_setUpAxis up t t' :
    reachable t → setUpAxis up t = Some t' → reachable t'
| reach_reverseNormals t t' :
    reachable t → reverseNormals t = Some t' → reachable t'.

(** [changeUpAxis from to] as a function of the mesh. *)
Definition axisChanged (from to : Z) (t : Torus F) : Torus F :=
  let v := map3 (axisMap from to) (vertices t) in
  let n := map3 (axisMap from to) (normals t) in
  with_interleaved (interleave v n (texCoords t))
    (with_normals n (with_vertices v t)).

(** [reverseNormals] as a function of the mesh. *)
Definition normalsReversed (t : Torus F) : Torus F :=
  let n := negate <$> normals t in
  with_indices (swap3 (indices t))
    (with_interleaved (interleave (vertices t) n (texCoords t))
       (with_normals n t)).

(** One call of a public mutator. *)
Inductive mutation : Torus F → Torus F → Prop :=
| mut_set majorR minorR sectors sides smooth_ up t t' :
    set majorR minorR sectors sides smooth_ up t = Some t' → mutation t t'
| mut_setMajorRadius r t t' : setMajorRadius r t = Some t' → mutation t t'
| mut_setMinorRadius r t t' : setMinorRadius r t = Some t' → mutation t t'
| mut_setSectorCount n t t' : setSectorCount n t = Some t' → mutation t t'
| mut_setSideCount n t t' : setSideCount n t = Some t' → mutation t t'
| mut_setSmooth b t t' : setSmooth b t = Some t' → mutation t t'
| mut_setUpAxis up t t' : setUpAxis up t = Some t' → mutation t t'
| mut_reverseNormals t t' : reverseNormals t = Some t' → mutation t t'.

(** Both radii pass the test [> 0] of [set]. *)
Definition radii_positive (t : Torus F) : Prop :=
  fgt (majorRadius t) (f_of_int 0) = true ∧
  fgt (minorRadius t) (f_of_int 0) = true.
End Description.

(** ** Sample objects *)

(** Some content of the scalar members of a [Torus] before its constructor
    has run. *)
Definition sampleMem : Torus R :=
  mkTorus 7%R 9%R 0 0 false 0 [] [] [] [] [] [] 0.

(** The object of the spec's scenario: constructed with radii 1 and 0.5,
    4 sectors, 3 sides, smooth, Z up. *)
Definition sampleObject : Torus R :=
  rebuilt 1%R (1 / 2)%R 4 3 true 3
    (mkTorus (majorRadius sampleMem) (minorRadius sampleMem)
       (sectorCount sampleMem) (sideCount sampleMem) (smooth sampleMem)
       (upAxis sampleMem) [] [] [] [] [] [] 32).

(** A mesh of one triangle. *)
Definition sampleMesh : Torus R :=
  mkTorus 1%R (1 / 2)%R 3 2 true 3
    [1; 0; 0; 0; 1; 0; 0; 0; 1]%R
    [0; 0; 1; 0; 0; 1; 0; 0; 1]%R
    [0; 0; 1; 0; 0; 1]%R
    [0; 1; 2] [0; 1; 1; 2]
    [1; 0; 0; 0; 0; 1; 0; 0;
     0; 1; 0; 0; 0; 1; 1; 0;
     0; 0; 1; 0; 0; 1; 0; 1]%R
    32.

(** An object with the radii of [sampleMesh] and no geometry. *)
Definition sampleBlank : Torus R :=
  mkTorus 1%R (1 / 2)%R 0 0 false 0 [] [] [] [] [] [] 32.

(** ** Arithmetic of the axis change *)

Section AxisArithmetic.
Context {F : Type} `{FloatOps F}.

(** What [changeUpAxis] needs of the arithmetic on the values of a mesh: [P]
    holds of its non-zero values, [Zr] of its zeros.  Multiplying by 1.0f is
    exact, by -1.0f changes the sign, by 0.0f gives a zero, and adding a
    zero changes nothing.  binary32 has these laws on its finite numbers,
    with its two zeros as [Zr]; it does not have them on infinities and
    NaN. *)

Record axis_arith (P Zr : F → Prop) : Prop := mk_axis_arith {
  aa_disjoint : ∀ x, P x → Zr x → False;
  aa_one : ∀ x, P x → fmul (f_of_int 1) x = x;
  aa_neg : ∀ x, P x → P (fmul (f_of_int (-1)) x);
  aa_neg_neg :
    ∀ x, P x → fmul (f_of_int (-1)) (fmul (f_of_int (-1)) x) = x;
  aa_zero : ∀ x, P x ∨ Zr x → Zr (fmul (f_of_int 0) x);
  aa_one_zero : ∀ x, Zr x → Zr (fmul (f_of_int 1) x);
  aa_neg_zero : ∀ x, Zr x → Zr (fmul (f_of_int (-1)) x);
  aa_add_zeros : ∀ x y, Zr x → Zr y → Zr (fadd x y);
  aa_add_l : ∀ z x, Zr z → P x → fadd z x = x;
  aa_add_r : ∀ x z, P x → Zr z → fadd x z = x
}.

(** [a] is [x], or both are zeros (of any sign). *)

Definition same_value (Zr : F → Prop) (x a : F) : Prop :=
  a = x ∨ (Zr x ∧ Zr a).

(** [a] is [x] times -1.0f, or both are zeros. *)

Definition negated_value (P Zr : F → Prop) (x a : F) : Prop :=
  (P x ∧ a = fmul (f_of_int (-1)) x) ∨ (Zr x ∧ Zr a).

(** (a, b, c) holds the components of (x, y, z) in some order, each as it
    was or negated: a vector of the same Euclidean length. *)

Definition signed_permutation (P Zr : F → Prop) (x y z a b c : F) : Prop :=
  ∃ u v w, [u; v; w] ≡ₚ [x; y; z] ∧
    (same_value Zr u a ∨ negated_value P Zr u a) ∧
    (same_value Zr v b ∨ negated_value P Zr v b) ∧
    (same_value Zr w c ∨ negated_value P Zr w c).

(** What [changeUpAxis from to] makes of (x, y, z), pair by pair. *)

Definition axis_image (P Zr : F → Prop) (from to : Z) (x y z a b c : F) : Prop :=
  if decide (from = 1 ∧ to = 2) then
    negated_value P Zr y a ∧ same_value Zr x b ∧ same_value Zr z c
  else if decide (from = 1 ∧ to = 3) then
    negated_value P Zr z a ∧ same_value Zr y b ∧ same_value Zr x c
  else if decide (from = 2 ∧ to = 1) then
    same_value Zr y a ∧ negated_value P Zr x b ∧ same_value Zr z c
  else if decide (from = 2 ∧ to = 3) then
    same_value Zr x a ∧ negated_value P Zr z b ∧ same_value Zr y c
  else if decide (from = 3 ∧ to = 1) then
    same_value Zr z a ∧ same_value Zr y b ∧ negated_value P Zr x c
  else
    same_value Zr x a ∧ same_value Zr z b ∧ negated_value P Zr y c.
End AxisArithmetic.

(** A value [changeUpAxis] treats by the laws: non-zero or zero. *)

Definition axis_value {F : Type} (P Zr : F → Prop) (x : F) : Prop := P x ∨ Zr x.

(** The laws of exact arithmetic the comment of [buildVerticesSmooth] relies
    on when it calls the scaled offset a unit normal: a commutative ring in
    which [x * -1] is the opposite, a positive number times its inverse is
    1, cos² + sin² = 1 and the square root of 1 is 1.  The real numbers
    have them; binary32 does not. *)

Record exact_arith {F : Type} `{FloatOps F} : Prop := mk_exact_arith {
  ea_ring : ring_theory (f_of_int 0) (f_of_int 1) fadd fmul fsub negate eq;
  ea_inverse :
    ∀ r, fgt r (f_of_int 0) = true → fmul r (fdiv (f_of_int 1) r) = f_of_int 1;
  ea_circle :
    ∀ a, fadd (fmul (f_cos a) (f_cos a)) (fmul (f_sin a) (f_sin a)) = f_of_int 1;
  ea_sqrt_one : f_sqrt (f_of_int 1) = f_of_int 1 }.

Global Arguments exact_arith F {_}.

(** ** binary32: numbers and meshes *)

(** The finite binary32 numbers other than zero, in their canonical form,
    and the two zeros. *)

Definition b32_finite (x : spec_float) : Prop :=
  ∃ s m e, x = S754_finite s m e ∧ bounded 24 128 m e = true.

Definition b32_is_zero (x : spec_float) : Prop := ∃ s, x = S754_zero s.

(** [2^127] and the binary32 number nearest to pi, the value of
    [acos(-1.0f)]. *)

Definition b32_huge : spec_float := S754_finite false 8388608 104.

Definition b32_pi : spec_float := S754_finite false 13176795 (-22).

(** [1e-39f]: a positive subnormal number of binary32. *)

Definition b32_tiny : spec_float := S754_finite false 713624 (-149).

(** Infinite or not a number. *)

Definition b32_not_finite (x : spec_float) : Prop :=
  x = S754_nan ∨ ∃ s, x = S754_infinity s.

(** A binary32 mesh of one triangle, the binary32 copy of [sampleMesh]. *)

Definition b32_sample : Torus spec_float :=
  mkTorus b32_one b32_one 3 2 true 3
    [b32_one; b32_zero; b32_zero; b32_zero; b32_one; b32_zero;
     b32_zero; b32_zero; b32_one]
    [b32_zero; b32_zero; b32_one; b32_zero; b32_zero; b32_one;
     b32_zero; b32_zero; b32_one]
    [b32_zero; b32_zero; b32_one; b32_zero; b32_zero; b32_one]
    [0; 1; 2] [0; 1; 1; 2]
    [b32_one; b32_zero; b32_zero; b32_zero; b32_zero; b32_one;
     b32_zero; b32_zero;
     b32_zero; b32_one; b32_zero; b32_zero; b32_zero; b32_one;
     b32_one; b32_zero;
     b32_zero; b32_zero; b32_one; b32_zero; b32_zero; b32_one;
     b32_zero; b32_one]
    32.

(** A binary32 mesh of one vertex whose x coordinate has overflowed. *)

Definition b32_overflown : Torus spec_float :=
  mkTorus b32_one b32_one 3 2 true 3
    [b32_inf; b32_zero; b32_zero] [b32_zero; b32_zero; b32_one]
    [b32_zero; b32_zero] [] []
    [b32_inf; b32_zero; b32_zero; b32_zero; b32_zero; b32_one;
     b32_zero; b32_zero]
    32.

(** ** Vectors and loops: basic facts *)

Section VecFacts.
Context {A : Type}.
Implicit Types (v pre l : list A).

Lemma vec_get_at pre l i k :
  i = (length pre + k)%nat → vec_get (pre ++ l) i = l !! k.
Proof.
  intros ->. unfold vec_get. rewrite lookup_app_r by lia.
  f_equal. lia.
Qed.

Lemma vec_set_at pre l i k x :
  i = (length pre + k)%nat → (k < length l)%nat →
  vec_set (pre ++ l) i x = Some (pre ++ <[k:=x]> l).
Proof.
  intros -> Hk. unfold vec_set.
  rewrite decide_True by (rewrite length_app; lia).
  by rewrite insert_app_r.
Qed.

Lemma vec_at_nat v (n : nat) : vec_at v (Z.of_nat n) = v !! n.
Proof.
  unfold vec_at. rewrite decide_False by lia. by rewrite Nat2Z.id.
Qed.
End VecFacts.

Ltac vec_get_step :=
  match goal with
  | |- context [vec_get (?pre ++ ?l) ?i] =>
      first
        [ rewrite (vec_get_at pre l i 0) by (simpl; lia)
        | rewrite (vec_get_at pre l i 1) by (simpl; lia)
        | rewrite (vec_get_at pre l i 2) by (simpl; lia) ]
  end.

Ltac vec_set_step :=
  match goal with
  | |- context [vec_set (?pre ++ ?l) ?i ?x] =>
      first
        [ rewrite (vec_set_at pre l i 0 x) by (simpl; lia)
        | rewrite (vec_set_at pre l i 1 x) by (simpl; lia)
        | rewrite (vec_set_at pre l i 2 x) by (simpl; lia)
        | rewrite (vec_set_at pre l i 3 x) by (simpl; lia)
        | rewrite (vec_set_at pre l i 4 x) by (simpl; lia)
        | rewrite (vec_set_at pre l i 5 x) by (simpl; lia) ]
  end.

Lemma bind_some {A B : Type} (x : A) (f : A → option B) : Some x ≫= f = f x.
Proof. reflexivity. Qed.

Ltac vec_steps :=
  repeat (first [vec_get_step | vec_set_step];
          cbn [lookup list_lookup list_insert insert];
          rewrite ?bind_some; cbn beta).

Section CountedLoops.
Context {St A B C D E : Type}.

Lemma seqZ_bind_cons {X : Type} (g : Z → list X) (lo : Z) (m : nat) :
  seqZ lo (Z.of_nat (S m)) ≫= g = g lo ++ (seqZ (lo + 1) (Z.of_nat m) ≫= g).
Proof.
  rewrite seqZ_cons by lia. rewrite bind_cons.
  do 3 f_equal. lia.
Qed.

(** A counted loop whose body appends one block to each of five arrays.
    [mk i] packs the arrays with the values the loop variables have at the
    beginning of iteration [i]. *)
Lemma for_iter_blocks
    (mk : Z → list A → list B → list C → list D → list E → St)
    (body : Z → St → option St)
    (da : Z → list A) (db : Z → list B) (dc : Z → list C)
    (dd : Z → list D) (de : Z → list E) (m : nat) :
  ∀ lo a b c d e,
    (∀ i a b c d e, lo ≤ i < lo + Z.of_nat m →
       body i (mk i a b c d e)
       = Some (mk (i + 1) (a ++ da i) (b ++ db i) (c ++ dc i) (d ++ dd i)
                 (e ++ de i))) →
    for_iter m lo body (mk lo a b c d e)
    = Some (mk (lo + Z.of_nat m)
              (a ++ (seqZ lo (Z.of_nat m) ≫= da))
              (b ++ (seqZ lo (Z.of_nat m) ≫= db))
              (c ++ (seqZ lo (Z.of_nat m) ≫= dc))
              (d ++ (seqZ lo (Z.of_nat m) ≫= dd))
              (e ++ (seqZ lo (Z.of_nat m) ≫= de))).
Proof.
  induction m as [|m IH]; intros lo a b c d e Hstep.
  - simpl. rewrite Z.add_0_r, !app_nil_r. reflexivity.
  - cbn [for_iter]. rewrite Hstep by lia. rewrite bind_some.
    rewrite IH by (intros; apply Hstep; lia).
    rewrite !seqZ_bind_cons, <- !app_assoc.
    do 2 f_equal. lia.
Qed.

(** The same for one array. *)
Lemma for_iter_block (body : Z → list A → option (list A))
    (da : Z → list A) (m : nat) :
  ∀ lo a,
    (∀ i a, lo ≤ i < lo + Z.of_nat m → body i a = Some (a ++ da i)) →
    for_iter m lo body a = Some (a ++ (seqZ lo (Z.of_nat m) ≫= da)).
Proof.
  induction m as [|m IH]; intros lo a Hstep.
  - simpl. by rewrite app_nil_r.
  - cbn [for_iter]. rewrite Hstep by lia. rewrite bind_some.
    rewrite IH by (intros; apply Hstep; lia).
    by rewrite seqZ_bind_cons, <- app_assoc.
Qed.

Lemma bind_const_nil {X Y : Type} (l : list X) :
  l ≫= (fun _ => @nil Y) = [].
Proof. induction l as [|x l IH]; [done|]. by rewrite bind_cons, IH. Qed.
End CountedLoops.

(** Blocks of constant length, side by side. *)
Section Blocks.
Context {X Y : Type}.
Implicit Types (f : X → list Y) (l : list X) (m k c : nat).

Lemma length_bind_const f m l :
  (∀ x, length (f x) = m) → length (l ≫= f) = (length l * m)%nat.
Proof.
  intros Hf. induction l as [|x l IH]; [done|].
  rewrite bind_cons, length_app, Hf, IH. simpl. lia.
Qed.

Lemma lookup_bind_const f m l : ∀ k c,
  (∀ x, length (f x) = m) → (c < m)%nat →
  (l ≫= f) !! (k * m + c)%nat = l !! k ≫= fun x => f x !! c.
Proof.
  induction l as [|x l IH]; intros k c Hf Hc; [done|].
  rewrite bind_cons. destruct k as [|k].
  - simpl. rewrite lookup_app_l by (rewrite Hf; lia). done.
  - rewrite lookup_app_r by (rewrite Hf; simpl; lia).
    rewrite Hf. replace (S k * m + c - m)%nat with (k * m + c)%nat by (simpl; lia).
    by rewrite IH.
Qed.

End Blocks.

Section Grid.
Context {Y : Type}.

Lemma length_grid (g : Z → Z → list Y) (rows cols : Z) (m : nat) :
  (∀ i j, length (g i j) = m) →
  length (grid rows cols g) = (Z.to_nat rows * (Z.to_nat cols * m))%nat.
Proof.
  intros Hg. unfold grid.
  rewrite (length_bind_const _ (Z.to_nat cols * m)), length_seqZ; [done|].
  intros i. by rewrite (length_bind_const _ m), length_seqZ.
Qed.

Lemma lookup_grid (g : Z → Z → list Y) (rows cols : Z) (m i j c : nat) :
  (∀ i j, length (g i j) = m) →
  Z.of_nat i < rows → Z.of_nat j < cols → (c < m)%nat →
  grid rows cols g !! ((i * Z.to_nat cols + j) * m + c)%nat
  = g (Z.of_nat i) (Z.of_nat j) !! c.
Proof.
  intros Hg Hi Hj Hc. unfold grid.
  replace ((i * Z.to_nat cols + j) * m + c)%nat
    with (i * (Z.to_nat cols * m) + (j * m + c))%nat by lia.
  rewrite (lookup_bind_const _ (Z.to_nat cols * m)).
  - rewrite lookup_seqZ_lt by lia. simpl.
    rewrite (lookup_bind_const _ m) by done.
    by rewrite lookup_seqZ_lt by lia.
  - intros x. by rewrite (length_bind_const _ m), length_seqZ.
  - assert (j < Z.to_nat cols)%nat by lia. nia.
Qed.

Lemma Forall_grid (P : Y → Prop) (g : Z → Z → list Y) (rows cols : Z) :
  (∀ i j, 0 ≤ i < rows → 0 ≤ j < cols → Forall P (g i j)) →
  Forall P (grid rows cols g).
Proof.
  intros Hg. unfold grid. rewrite Forall_bind. apply list.Forall_forall.
  intros i Hi%elem_of_seqZ. simpl. rewrite Forall_bind. apply list.Forall_forall.
  intros j Hj%elem_of_seqZ. simpl. apply Hg; lia.
Qed.
End Grid.

Section StridedLoops.
Context {F : Type} `{FloatOps F}.
Implicit Types (t : Torus F).

Lemma interleave_length (n : nat) : ∀ v nr tc : list F,
  length v = (3 * n)%nat → length nr = (3 * n)%nat → length tc = (2 * n)%nat →
  length (interleave v nr tc) = (8 * n)%nat.
Proof.
  induction n as [|n IH]; intros v nr tc Hv Hn Ht.
  - destruct v; [done | simpl in Hv; lia].
  - destruct v as [|x [|y [|z v]]]; simpl in Hv; try lia.
    destruct nr as [|a [|b [|c nr]]]; simpl in Hn; try lia.
    destruct tc as [|s [|q tc]]; simpl in Ht; try lia.
    simpl. rewrite (IH v nr tc) by lia. lia.
Qed.

(** The loop of [buildInterleavedVertices], started in the middle. *)
Lemma buildInterleaved_loop (n : nat) :
  ∀ fuel count i j vpre vsuf npre nsuf tpre tsuf ipre R r sc sd sm up ix lx st,
    length vsuf = (3 * n)%nat → length nsuf = (3 * n)%nat →
    length tsuf = (2 * n)%nat →
    i = length vpre → i = length npre → j = length tpre →
    count = (i + 3 * n)%nat → (n ≤ fuel)%nat →
    for_stride fuel count 3 2 i j (fun i j t =>
      v0 ← vec_get (vertices t) i;
      v1 ← vec_get (vertices t) (i + 1);
      v2 ← vec_get (vertices t) (i + 2);
      n0 ← vec_get (normals t) i;
      n1 ← vec_get (normals t) (i + 1);
      n2 ← vec_get (normals t) (i + 2);
      t0 ← vec_get (texCoords t) j;
      t1 ← vec_get (texCoords t) (j + 1);
      Some (with_interleaved
             (push_back (push_back (push_back (push_back (push_back (push_back
               (push_back (push_back (interleavedVertices t)
                 v0) v1) v2) n0) n1) n2) t0) t1) t))
      (mkTorus R r sc sd sm up (vpre ++ vsuf) (npre ++ nsuf) (tpre ++ tsuf)
         ix lx ipre st)
    = Some (mkTorus R r sc sd sm up (vpre ++ vsuf) (npre ++ nsuf) (tpre ++ tsuf)
              ix lx (ipre ++ interleave vsuf nsuf tsuf) st).
Proof.
  induction n as [|n IH];
    intros fuel count i j vpre vsuf npre nsuf tpre tsuf ipre R r sc sd sm up
      ix lx st Hv Hn Ht Hi Hi' Hj Hc Hfuel.
  - destruct vsuf; [|simpl in Hv; lia].
    destruct fuel; simpl; rewrite decide_False by lia;
      by rewrite (app_nil_r ipre).
  - destruct vsuf as [|x [|y [|z vsuf]]]; simpl in Hv; try lia.
    destruct nsuf as [|a [|b [|c nsuf]]]; simpl in Hn; try lia.
    destruct tsuf as [|s [|q tsuf]]; simpl in Ht; try lia.
    destruct fuel as [|fuel]; [lia|].
    cbn [for_stride]. rewrite decide_True by lia.
    cbn [vertices normals texCoords interleavedVertices].
    vec_steps.
    replace (vpre ++ x :: y :: z :: vsuf) with ((vpre ++ [x; y; z]) ++ vsuf)
      by (by rewrite <- app_assoc).
    replace (npre ++ a :: b :: c :: nsuf) with ((npre ++ [a; b; c]) ++ nsuf)
      by (by rewrite <- app_assoc).
    replace (tpre ++ s :: q :: tsuf) with ((tpre ++ [s; q]) ++ tsuf)
      by (by rewrite <- app_assoc).
    etrans; [eapply (IH fuel count (i + 3)%nat (j + 2)%nat);
             rewrite ?length_app; simpl; lia|].
    unfold push_back. cbn [interleave]. do 2 f_equal.
    rewrite <- !app_assoc. reflexivity.
Qed.

Lemma buildInterleavedVertices_run t (n : nat) :
  length (vertices t) = (3 * n)%nat → length (normals t) = (3 * n)%nat →
  length (texCoords t) = (2 * n)%nat →
  buildInterleavedVertices t
  = Some (with_interleaved
            (interleave (vertices t) (normals t) (texCoords t)) t).
Proof.
  destruct t as [R r sc sd sm up v nr tc ix lx iv st]; simpl.
  intros Hv Hn Ht. unfold buildInterleavedVertices, with_interleaved; simpl.
  apply (buildInterleaved_loop n _ _ 0%nat 0%nat [] v [] nr [] tc []);
    simpl; lia.
Qed.

(** The loop of [changeUpAxis], started in the middle. *)
Lemma changeUpAxis_loop (tx0 tx1 tx2 ty0 ty1 ty2 tz0 tz1 tz2 : F) (n : nat) :
  let M x y z :=
    [axisRow tx0 ty0 tz0 x y z; axisRow tx1 ty1 tz1 x y z;
     axisRow tx2 ty2 tz2 x y z] in
  ∀ fuel count i j vpre vsuf npre nsuf tsuf ipre R r sc sd sm up tc ix lx st,
    length vsuf = (3 * n)%nat → length nsuf = (3 * n)%nat →
    length tsuf = (2 * n)%nat →
    i = length vpre → i = length npre → j = length ipre →
    count = (i + 3 * n)%nat → (n ≤ fuel)%nat →
    for_stride fuel count 3 8 i j (fun i j t =>
      vx ← vec_get (vertices t) i;
      vy ← vec_get (vertices t) (i + 1);
      vz ← vec_get (vertices t) (i + 2);
      vs ← vec_set (vertices t) i (axisRow tx0 ty0 tz0 vx vy vz);
      vs ← vec_set vs (i + 1) (axisRow tx1 ty1 tz1 vx vy vz);
      vs ← vec_set vs (i + 2) (axisRow tx2 ty2 tz2 vx vy vz);
      nx ← vec_get (normals t) i;
      ny ← vec_get (normals t) (i + 1);
      nz ← vec_get (normals t) (i + 2);
      ns ← vec_set (normals t) i (axisRow tx0 ty0 tz0 nx ny nz);
      ns ← vec_set ns (i + 1) (axisRow tx1 ty1 tz1 nx ny nz);
      ns ← vec_set ns (i + 2) (axisRow tx2 ty2 tz2 nx ny nz);
      a0 ← vec_get vs i;
      a1 ← vec_get vs (i + 1);
      a2 ← vec_get vs (i + 2);
      b0 ← vec_get ns i;
      b1 ← vec_get ns (i + 1);
      b2 ← vec_get ns (i + 2);
      iv ← vec_set (interleavedVertices t) j a0;
      iv ← vec_set iv (j + 1) a1;
      iv ← vec_set iv (j + 2) a2;
      iv ← vec_set iv (j + 3) b0;
      iv ← vec_set iv (j + 4) b1;
      iv ← vec_set iv (j + 5) b2;
      Some (with_interleaved iv (with_normals ns (with_vertices vs t))))
      (mkTorus R r sc sd sm up (vpre ++ vsuf) (npre ++ nsuf) tc ix lx
         (ipre ++ interleave vsuf nsuf tsuf) st)
    = Some (mkTorus R r sc sd sm up (vpre ++ map3 M vsuf) (npre ++ map3 M nsuf)
              tc ix lx
              (ipre ++ interleave (map3 M vsuf) (map3 M nsuf) tsuf) st).
Proof.
  intros M. induction n as [|n IH];
    intros fuel count i j vpre vsuf npre nsuf tsuf ipre R r sc sd sm up tc
      ix lx st Hv Hn Ht Hi Hi' Hj Hc Hfuel.
  - destruct vsuf; [|simpl in Hv; lia]. destruct nsuf; [|simpl in Hn; lia].
    destruct fuel; simpl; by rewrite decide_False by lia.
  - destruct vsuf as [|x [|y [|z vsuf]]]; simpl in Hv; try lia.
    destruct nsuf as [|a [|b [|c nsuf]]]; simpl in Hn; try lia.
    destruct tsuf as [|s [|q tsuf]]; simpl in Ht; try lia.
    destruct fuel as [|fuel]; [lia|].
    cbn [for_stride]. rewrite decide_True by lia.
    cbn [vertices normals texCoords interleavedVertices interleave].
    vec_steps.
    replace (vpre ++ _ :: _ :: _ :: vsuf) with ((vpre ++ M x y z) ++ vsuf)
      by (by rewrite <- app_assoc).
    replace (npre ++ _ :: _ :: _ :: nsuf) with ((npre ++ M a b c) ++ nsuf)
      by (by rewrite <- app_assoc).
    match goal with
    | |- context [ipre ++ ?x0 :: ?x1 :: ?x2 :: ?x3 :: ?x4 :: ?x5 :: ?x6 :: ?x7 :: ?l] =>
        replace (ipre ++ x0 :: x1 :: x2 :: x3 :: x4 :: x5 :: x6 :: x7 :: l)
          with ((ipre ++ [x0; x1; x2; x3; x4; x5; x6; x7]) ++ l)
          by (by rewrite <- app_assoc)
    end.
    etrans; [eapply (IH fuel count (i + 3)%nat (j + 8)%nat);
             rewrite ?length_app; simpl; lia|].
    cbn [map3 interleave]. do 2 f_equal; rewrite <- !app_assoc; reflexivity.
Qed.

(** The first loop of [reverseNormals], started in the middle. *)
Lemma reverseNormals_loop1 (n : nat) :
  ∀ fuel count i j vsuf npre nsuf tsuf ipre R r sc sd sm up v tc ix lx st,
    length vsuf = (3 * n)%nat → length nsuf = (3 * n)%nat →
    length tsuf = (2 * n)%nat →
    i = length npre → j = (length ipre + 3)%nat →
    count = (i + 3 * n)%nat → (n ≤ fuel)%nat →
    for_stride fuel count 3 8 i j (fun i j t =>
      n0 ← vec_get (normals t) i;
      ns ← vec_set (normals t) i (fmul n0 (f_of_int (-1)));
      n1 ← vec_get ns (i + 1);
      ns ← vec_set ns (i + 1) (fmul n1 (f_of_int (-1)));
      n2 ← vec_get ns (i + 2);
      ns ← vec_set ns (i + 2) (fmul n2 (f_of_int (-1)));
      a0 ← vec_get ns i;
      iv ← vec_set (interleavedVertices t) j a0;
      a1 ← vec_get ns (i + 1);
      iv ← vec_set iv (j + 1) a1;
      a2 ← vec_get ns (i + 2);
      iv ← vec_set iv (j + 2) a2;
      Some (with_interleaved iv (with_normals ns t)))
      (mkTorus R r sc sd sm up v (npre ++ nsuf) tc ix lx
         (ipre ++ interleave vsuf nsuf tsuf) st)
    = Some (mkTorus R r sc sd sm up v (npre ++ (negate <$> nsuf)) tc ix lx
              (ipre ++ interleave vsuf (negate <$> nsuf) tsuf) st).
Proof.
  induction n as [|n IH];
    intros fuel count i j vsuf npre nsuf tsuf ipre R r sc sd sm up v tc
      ix lx st Hv Hn Ht Hi Hj Hc Hfuel.
  - destruct vsuf; [|simpl in Hv; lia]. destruct nsuf; [|simpl in Hn; lia].
    destruct fuel; simpl; by rewrite decide_False by lia.
  - destruct vsuf as [|x [|y [|z vsuf]]]; simpl in Hv; try lia.
    destruct nsuf as [|a [|b [|c nsuf]]]; simpl in Hn; try lia.
    destruct tsuf as [|s [|q tsuf]]; simpl in Ht; try lia.
    destruct fuel as [|fuel]; [lia|].
    cbn [for_stride]. rewrite decide_True by lia.
    cbn [vertices normals texCoords interleavedVertices interleave].
    vec_steps.
    replace (npre ++ _ :: _ :: _ :: nsuf)
      with ((npre ++ [negate a; negate b; negate c]) ++ nsuf)
      by (by rewrite <- app_assoc).
    match goal with
    | |- context [ipre ++ ?x0 :: ?x1 :: ?x2 :: ?x3 :: ?x4 :: ?x5 :: ?x6 :: ?x7 :: ?l] =>
        replace (ipre ++ x0 :: x1 :: x2 :: x3 :: x4 :: x5 :: x6 :: x7 :: l)
          with ((ipre ++ [x0; x1; x2; x3; x4; x5; x6; x7]) ++ l)
          by (by rewrite <- app_assoc)
    end.
    etrans; [eapply (IH fuel count (i + 3)%nat (j + 8)%nat);
             rewrite ?length_app; simpl; lia|].
    cbn [fmap list_fmap interleave].
    do 2 f_equal; rewrite <- !app_assoc; reflexivity.
Qed.

(** The second loop of [reverseNormals], started in the middle. *)
Lemma reverseNormals_loop2 (n : nat) :
  ∀ fuel count i j xpre xsuf R r sc sd sm up v nr tc lx iv st,
    length xsuf = (3 * n)%nat → i = length xpre →
    count = (i + 3 * n)%nat → (n ≤ fuel)%nat →
    for_stride fuel count 3 0 i j (fun i _ t =>
      tmp ← vec_get (indices t) i;
      k ← vec_get (indices t) (i + 2);
      ids ← vec_set (indices t) i k;
      ids ← vec_set ids (i + 2) tmp;
      Some (with_indices ids t))
      (mkTorus R r sc sd sm up v nr tc (xpre ++ xsuf) lx iv st)
    = Some (mkTorus R r sc sd sm up v nr tc (xpre ++ swap3 xsuf) lx iv st).
Proof.
  induction n as [|n IH];
    intros fuel count i j xpre xsuf R r sc sd sm up v nr tc lx iv st
      Hx Hi Hc Hfuel.
  - destruct xsuf; [|simpl in Hx; lia].
    destruct fuel; simpl; by rewrite decide_False by lia.
  - destruct xsuf as [|a [|b [|c xsuf]]]; simpl in Hx; try lia.
    destruct fuel as [|fuel]; [lia|].
    cbn [for_stride]. rewrite decide_True by lia.
    cbn [indices].
    vec_steps.
    replace (xpre ++ _ :: _ :: _ :: xsuf) with ((xpre ++ [c; b; a]) ++ xsuf)
      by (by rewrite <- app_assoc).
    etrans; [eapply (IH fuel count (i + 3)%nat (j + 0)%nat);
             rewrite ?length_app; simpl; lia|].
    cbn [swap3]. do 2 f_equal; rewrite <- !app_assoc; reflexivity.
Qed.

Lemma changeUpAxis_run from to t (n : nat) :
  mesh_shape n t → changeUpAxis from to t = Some (axisChanged from to t).
Proof.
  destruct t as [R r sc sd sm up v nr tc ix lx iv st].
  intros [(Hv & Hn & Ht & _) Hiv]; simpl in *. subst iv.
  unfold changeUpAxis, axisChanged, axisMap.
  destruct (axisColumns from to) as [[[[tx0 tx1] tx2] [[ty0 ty1] ty2]] [[tz0 tz1] tz2]].
  cbn [vertices normals texCoords with_vertices with_normals with_interleaved
         majorRadius minorRadius sectorCount sideCount smooth upAxis indices
         lineIndices interleavedStride].
  apply (changeUpAxis_loop tx0 tx1 tx2 ty0 ty1 ty2 tz0 tz1 tz2 n
           _ _ 0%nat 0%nat [] v [] nr tc []); simpl; lia.
Qed.

Lemma reverseNormals_run t (n : nat) :
  mesh_shape n t → reverseNormals t = Some (normalsReversed t).
Proof.
  destruct t as [R r sc sd sm up v nr tc ix lx iv st].
  intros [(Hv & Hn & Ht & [k Hk] & _) Hiv]; simpl in *. subst iv.
  unfold reverseNormals, normalsReversed.
  cbn [vertices normals texCoords with_vertices with_normals with_interleaved
         with_indices majorRadius minorRadius sectorCount sideCount smooth
         upAxis indices lineIndices interleavedVertices interleavedStride].
  rewrite (reverseNormals_loop1 n _ _ 0%nat 3%nat v [] nr tc []);
    simpl; try lia.
  apply (reverseNormals_loop2 k _ _ 0%nat 0%nat [] ix); simpl; lia.
Qed.
End StridedLoops.

(** ** The two builders *)

Section Builders.
Context {F : Type} `{FloatOps F}.
Implicit Types (t : Torus F).

Lemma app_arrays_nil t : app_arrays [] [] [] [] [] t = t.
Proof. destruct t. unfold app_arrays; simpl. by rewrite !app_nil_r. Qed.

Lemma addNormal_app a b c dv dn dt di dl t :
  addNormal a b c (app_arrays dv dn dt di dl t)
  = app_arrays dv (dn ++ [a; b; c]) dt di dl t.
Proof.
  unfold addNormal, app_arrays, with_normals, push_back; simpl.
  by rewrite <- !app_assoc.
Qed.

Lemma addVertex_app a b c dv dn dt di dl t :
  addVertex a b c (app_arrays dv dn dt di dl t)
  = app_arrays (dv ++ [a; b; c]) dn dt di dl t.
Proof.
  unfold addVertex, app_arrays, with_vertices, push_back; simpl.
  by rewrite <- !app_assoc.
Qed.

Lemma addTexCoord_app a b dv dn dt di dl t :
  addTexCoord a b (app_arrays dv dn dt di dl t)
  = app_arrays dv dn (dt ++ [a; b]) di dl t.
Proof.
  unfold addTexCoord, app_arrays, with_texCoords, push_back; simpl.
  by rewrite <- !app_assoc.
Qed.

Lemma addIndices_app a b c dv dn dt di dl t :
  addIndices a b c (app_arrays dv dn dt di dl t)
  = app_arrays dv dn dt (di ++ [a; b; c]) dl t.
Proof.
  unfold addIndices, app_arrays, with_indices, push_back; simpl.
  by rewrite <- !app_assoc.
Qed.

Lemma addLineIndex_app a dv dn dt di dl t :
  addLineIndex a (app_arrays dv dn dt di dl t)
  = app_arrays dv dn dt di (dl ++ [a]) t.
Proof.
  unfold addLineIndex, app_arrays, with_lineIndices, push_back; simpl.
  by rewrite <- !app_assoc.
Qed.

Lemma smoothSamples_app t V N T I L :
  0 ≤ sideCount t + 1 → 0 ≤ sectorCount t + 1 →
  smoothSamples (app_arrays V N T I L t)
  = Some (app_arrays
            (V ++ grid (sideCount t + 1) (sectorCount t + 1) (smoothVertex t))
            (N ++ grid (sideCount t + 1) (sectorCount t + 1) (smoothNormal t))
            (T ++ grid (sideCount t + 1) (sectorCount t + 1) (gridTexCoord t))
            I L t).
Proof.
  intros Hsd Hsc. unfold smoothSamples, for_le.
  cbn [app_arrays sideCount sectorCount minorRadius majorRadius].
  rewrite !Z.sub_0_r.
  rewrite (for_iter_blocks (fun _ V N T I L => app_arrays V N T I L t) _
             (fun i => seqZ 0 (sectorCount t + 1) ≫= smoothVertex t i)
             (fun i => seqZ 0 (sectorCount t + 1) ≫= smoothNormal t i)
             (fun i => seqZ 0 (sectorCount t + 1) ≫= gridTexCoord t i)
             (fun _ => []) (fun _ => [])).
  - rewrite !bind_const_nil, !app_nil_r, !Z2Nat.id by lia. reflexivity.
  - intros i V' N' T' I' L' Hi.
    cbn [app_arrays sideCount sectorCount minorRadius majorRadius].
    rewrite (for_iter_blocks (fun _ V N T I L => app_arrays V N T I L t) _
               (smoothVertex t i) (smoothNormal t i) (gridTexCoord t i)
               (fun _ => []) (fun _ => [])).
    + rewrite !bind_const_nil, !Z2Nat.id, !Z.sub_0_r by lia. reflexivity.
    + intros j V'' N'' T'' I'' L'' Hj.
      rewrite addNormal_app, addVertex_app, addTexCoord_app, !app_nil_r.
      reflexivity.
Qed.

Lemma u32_succ (x : Z) : u32 (u32 x + 1) = u32 (x + 1).
Proof. unfold u32. by rewrite Z.add_mod_idemp_l. Qed.

Lemma u32_add_l (x y : Z) : u32 (u32 x + y) = u32 (x + y).
Proof. unfold u32. by rewrite Z.add_mod_idemp_l. Qed.

Lemma smoothIndices_app t V N T I L :
  0 ≤ sideCount t → 0 ≤ sectorCount t →
  smoothIndices (app_arrays V N T I L t)
  = Some (app_arrays V N T
            (I ++ grid (sideCount t) (sectorCount t) (smoothTriangles t))
            (L ++ grid (sideCount t) (sectorCount t) (smoothLines t))
            t).
Proof.
  intros Hsd Hsc. unfold smoothIndices, for_lt.
  cbn [app_arrays sideCount sectorCount].
  rewrite !Z.sub_0_r.
  rewrite (for_iter_blocks (fun _ V N T I L => app_arrays V N T I L t) _
             (fun _ => []) (fun _ => []) (fun _ => [])
             (fun i => seqZ 0 (sectorCount t) ≫= smoothTriangles t i)
             (fun i => seqZ 0 (sectorCount t) ≫= smoothLines t i)).
  - rewrite !bind_const_nil, !app_nil_r, !Z2Nat.id by lia. reflexivity.
  - intros i V' N' T' I' L' Hi.
    cbn [app_arrays sideCount sectorCount].
    replace (u32 (i * (sectorCount t + 1))) with (smoothK1 t i 0)
      by (unfold smoothK1; by rewrite Z.add_0_r).
    replace (u32 (smoothK1 t i 0 + sectorCount t + 1)) with (smoothK2 t i 0).
    2:{ unfold smoothK1, smoothK2.
        replace (u32 (i * (sectorCount t + 1) + 0) + sectorCount t + 1)
          with (u32 (i * (sectorCount t + 1) + 0) + (sectorCount t + 1))
          by lia.
        rewrite u32_add_l. f_equal. lia. }
    rewrite (for_iter_blocks
               (fun j V N T I L =>
                  (smoothK1 t i j, smoothK2 t i j, app_arrays V N T I L t)) _
               (fun _ => []) (fun _ => []) (fun _ => [])
               (smoothTriangles t i) (smoothLines t i)).
    + rewrite bind_some.
      rewrite !bind_const_nil, !Z2Nat.id, !Z.sub_0_r by lia. reflexivity.
    + intros j V'' N'' T'' I'' L'' Hj.
      rewrite !addIndices_app, !addLineIndex_app, !app_nil_r, <- !app_assoc.
      unfold smoothTriangles, smoothLines. simpl.
      do 3 f_equal.
      * unfold smoothK1. rewrite u32_succ. f_equal. lia.
      * unfold smoothK2. rewrite u32_succ. f_equal. lia.
Qed.

Lemma flatSamples_run t :
  0 ≤ sideCount t + 1 → 0 ≤ sectorCount t + 1 →
  flatSamples t = Some (flatGrid t).
Proof.
  intros Hsd Hsc. unfold flatSamples, flatGrid, grid, for_le.
  rewrite !Z.sub_0_r.
  rewrite (for_iter_block _
             (fun i => seqZ 0 (sectorCount t + 1) ≫= fun j => [flatVertex t i j])).
  - by rewrite Z2Nat.id by lia.
  - intros i a Hi.
    rewrite (for_iter_block _ (fun j => [flatVertex t i j])).
    + by rewrite Z2Nat.id by lia.
    + intros j a' Hj. reflexivity.
Qed.

Lemma flatGrid_at t (z i j : Z) :
  z = i * (sectorCount t + 1) + j →
  0 ≤ i ≤ sideCount t → 0 ≤ j ≤ sectorCount t →
  vec_at (flatGrid t) z = Some (flatVertex t i j).
Proof.
  intros -> Hi Hj. unfold vec_at. rewrite decide_False by nia.
  replace (Z.to_nat (i * (sectorCount t + 1) + j))
    with ((Z.to_nat i * Z.to_nat (sectorCount t + 1) + Z.to_nat j) * 1 + 0)%nat
    by nia.
  unfold flatGrid.
  rewrite (lookup_grid _ _ _ 1) by (done || lia).
  by rewrite !Z2Nat.id by lia.
Qed.

Lemma computeFaceNormal_eq x1 y1 z1 x2 y2 z2 x3 y3 z3 :
  computeFaceNormal x1 y1 z1 x2 y2 z2 x3 y3 z3
  = Some (faceNormal x1 y1 z1 x2 y2 z2 x3 y3 z3).
Proof.
  unfold computeFaceNormal, faceNormal. cbv zeta.
  destruct (fgt _ _); [|reflexivity].
  unfold vec_set. simpl.
  repeat (rewrite decide_True by lia; simpl). reflexivity.
Qed.

Lemma faceNormal_shape x1 y1 z1 x2 y2 z2 x3 y3 z3 :
  ∃ a b c, faceNormal x1 y1 z1 x2 y2 z2 x3 y3 z3 = [a; b; c].
Proof. unfold faceNormal. cbv zeta. destruct (fgt _ _); eauto. Qed.

Lemma flatQuads_app t V N T I L :
  0 ≤ sideCount t → 0 ≤ sectorCount t →
  flatQuads (flatGrid t) (app_arrays V N T I L t)
  = Some (app_arrays
            (V ++ grid (sideCount t) (sectorCount t) (flatQuadVertices t))
            (N ++ grid (sideCount t) (sectorCount t) (flatQuadNormals t))
            (T ++ grid (sideCount t) (sectorCount t) (flatQuadTexCoords t))
            (I ++ grid (sideCount t) (sectorCount t) (flatTriangles t))
            (L ++ grid (sideCount t) (sectorCount t) (flatLines t))
            t).
Proof.
  intros Hsd Hsc. unfold flatQuads, for_lt.
  cbn [app_arrays sideCount sectorCount].
  rewrite !Z.sub_0_r.
  change 0 with (flatIndex t 0 0) at 2.
  rewrite (for_iter_blocks
             (fun i V N T I L => (flatIndex t i 0, app_arrays V N T I L t)) _
             (fun i => seqZ 0 (sectorCount t) ≫= flatQuadVertices t i)
             (fun i => seqZ 0 (sectorCount t) ≫= flatQuadNormals t i)
             (fun i => seqZ 0 (sectorCount t) ≫= flatQuadTexCoords t i)
             (fun i => seqZ 0 (sectorCount t) ≫= flatTriangles t i)
             (fun i => seqZ 0 (sectorCount t) ≫= flatLines t i)).
  - rewrite bind_some, !Z2Nat.id by lia. reflexivity.
  - intros i V' N' T' I' L' Hi.
    cbn [app_arrays sideCount sectorCount].
    rewrite Z.sub_0_r.
    replace (i * (sectorCount t + 1)) with (i * (sectorCount t + 1) + 0) by lia.
    replace ((i + 1) * (sectorCount t + 1)) with ((i + 1) * (sectorCount t + 1) + 0)
      by lia.
    rewrite (for_iter_blocks
               (fun j V N T I L =>
                  (i * (sectorCount t + 1) + j, (i + 1) * (sectorCount t + 1) + j,
                   flatIndex t i j, app_arrays V N T I L t)) _
               (flatQuadVertices t i) (flatQuadNormals t i)
               (flatQuadTexCoords t i) (flatTriangles t i) (flatLines t i)).
    + rewrite bind_some, !Z2Nat.id by lia.
      do 2 f_equal. unfold flatIndex. lia.
    + intros j V'' N'' T'' I'' L'' Hj.
      rewrite (flatGrid_at t (i * (sectorCount t + 1) + j) i j) by lia.
      rewrite (flatGrid_at t ((i + 1) * (sectorCount t + 1) + j) (i + 1) j) by lia.
      rewrite (flatGrid_at t (i * (sectorCount t + 1) + j + 1) i (j + 1)) by lia.
      rewrite (flatGrid_at t ((i + 1) * (sectorCount t + 1) + j + 1) (i + 1) (j + 1))
        by lia.
      rewrite !bind_some.
      rewrite computeFaceNormal_eq, bind_some.
      fold (quadNormal t i j).
      unfold flatQuadNormals.
      destruct (faceNormal_shape
                  (v_x (flatVertex t i j)) (v_y (flatVertex t i j))
                  (v_z (flatVertex t i j)) (v_x (flatVertex t (i + 1) j))
                  (v_y (flatVertex t (i + 1) j)) (v_z (flatVertex t (i + 1) j))
                  (v_x (flatVertex t i (j + 1))) (v_y (flatVertex t i (j + 1)))
                  (v_z (flatVertex t i (j + 1)))) as (a & b & c & Hn).
      fold (quadNormal t i j) in Hn. rewrite Hn.
      unfold for_lt. change (Z.to_nat _) with 4%nat.
      cbn [for_iter vec_get lookup list_lookup].
      rewrite !bind_some.
      rewrite !addVertex_app, !addTexCoord_app, !addNormal_app,
        !addIndices_app, !addLineIndex_app, <- !app_assoc.
      do 2 f_equal.
      unfold flatIndex. f_equal; [f_equal|]; lia.
Qed.

Lemma u32_bounds (x : Z) : 0 ≤ x → 0 ≤ u32 x ≤ x.
Proof.
  intros Hx. unfold u32. split.
  - apply Z.mod_pos_bound. lia.
  - apply Z.mod_le; lia.
Qed.

Lemma axisMap_length from to x y z : length (axisMap from to x y z) = 3%nat.
Proof.
  unfold axisMap.
  by destruct (axisColumns from to) as [[[[? ?] ?] [[? ?] ?]] [[? ?] ?]].
Qed.

Lemma map3_length (f : F → F → F → list F) (n : nat) : ∀ l,
  (∀ x y z, length (f x y z) = 3%nat) →
  length l = (3 * n)%nat → length (map3 f l) = (3 * n)%nat.
Proof.
  induction n as [|n IH]; intros l Hf Hl.
  - by destruct l.
  - destruct l as [|x [|y [|z l]]]; simpl in Hl; try lia.
    cbn [map3]. rewrite length_app, Hf, (IH l) by (done || lia). lia.
Qed.

Lemma smoothArrays_shape t :
  0 ≤ sideCount t → 0 ≤ sectorCount t →
  arrays_shape (smoothCount t) (smoothArrays t).
Proof.
  intros Hsd Hsc. unfold arrays_shape, smoothArrays, smoothCount. simpl.
  rewrite !(length_grid _ _ _ 3), !(length_grid _ _ _ 2) by done.
  repeat split; try lia.
  - exists (Z.to_nat (sideCount t) * (Z.to_nat (sectorCount t) * 2))%nat.
    rewrite (length_grid _ _ _ 6) by done. lia.
  - exists (Z.to_nat (sideCount t) * (Z.to_nat (sectorCount t) * 2))%nat.
    rewrite (length_grid _ _ _ 4) by done. lia.
  - apply Forall_grid. intros i j Hi Hj.
    unfold smoothTriangles, smoothK1, smoothK2.
    pose proof (u32_bounds (i * (sectorCount t + 1) + j) ltac:(nia)) as H1.
    pose proof (u32_bounds (i * (sectorCount t + 1) + sectorCount t + 1 + j)
                  ltac:(nia)) as H2.
    pose proof (u32_bounds (u32 (i * (sectorCount t + 1) + j) + 1) ltac:(lia))
      as H3.
    pose proof (u32_bounds
                  (u32 (i * (sectorCount t + 1) + sectorCount t + 1 + j) + 1)
                  ltac:(lia)) as H4.
    repeat apply Forall_cons_2; try apply Forall_nil_2; nia.
  - apply Forall_grid. intros i j Hi Hj.
    unfold smoothLines, smoothK1, smoothK2.
    pose proof (u32_bounds (i * (sectorCount t + 1) + j) ltac:(nia)) as H1.
    pose proof (u32_bounds (i * (sectorCount t + 1) + sectorCount t + 1 + j)
                  ltac:(nia)) as H2.
    pose proof (u32_bounds (u32 (i * (sectorCount t + 1) + j) + 1) ltac:(lia))
      as H3.
    repeat apply Forall_cons_2; try apply Forall_nil_2; nia.
Qed.

Lemma quadNormal_length t i j : length (quadNormal t i j) = 3%nat.
Proof.
  unfold quadNormal.
  match goal with
  | |- context [faceNormal ?a ?b ?c ?d ?e ?f ?g ?h ?k] =>
      destruct (faceNormal_shape a b c d e f g h k) as (? & ? & ? & ->)
  end.
  done.
Qed.

Lemma flatArrays_shape t :
  0 ≤ sideCount t → 0 ≤ sectorCount t →
  arrays_shape (flatCount t) (flatArrays t).
Proof.
  intros Hsd Hsc. unfold arrays_shape, flatArrays, flatCount. simpl.
  rewrite (length_grid (flatQuadVertices t) _ _ 12) by done.
  rewrite (length_grid (flatQuadNormals t) _ _ 12)
    by (intros; unfold flatQuadNormals; cbv zeta;
        rewrite !length_app, !quadNormal_length; done).
  rewrite (length_grid (flatQuadTexCoords t) _ _ 8) by done.
  repeat split; try lia.
  - exists (Z.to_nat (sideCount t) * (Z.to_nat (sectorCount t) * 2))%nat.
    rewrite (length_grid _ _ _ 6) by done. lia.
  - exists (Z.to_nat (sideCount t) * (Z.to_nat (sectorCount t) * 2))%nat.
    rewrite (length_grid _ _ _ 4) by done. lia.
  - apply Forall_grid. intros i j Hi Hj.
    unfold flatTriangles, flatIndex.
    pose proof (u32_bounds (4 * (i * sectorCount t + j)) ltac:(nia)) as H0.
    pose proof (u32_bounds (4 * (i * sectorCount t + j) + 1) ltac:(nia)) as H1.
    pose proof (u32_bounds (4 * (i * sectorCount t + j) + 2) ltac:(nia)) as H2.
    pose proof (u32_bounds (4 * (i * sectorCount t + j) + 3) ltac:(nia)) as H3.
    repeat apply Forall_cons_2; try apply Forall_nil_2; nia.
  - apply Forall_grid. intros i j Hi Hj.
    unfold flatLines, flatIndex.
    pose proof (u32_bounds (4 * (i * sectorCount t + j)) ltac:(nia)) as H0.
    pose proof (u32_bounds (4 * (i * sectorCount t + j) + 1) ltac:(nia)) as H1.
    pose proof (u32_bounds (4 * (i * sectorCount t + j) + 2) ltac:(nia)) as H2.
    repeat apply Forall_cons_2; try apply Forall_nil_2; nia.
Qed.

Lemma arrays_shape_with_interleaved n iv t :
  arrays_shape n t → arrays_shape n (with_interleaved iv t).
Proof. by destruct t. Qed.

Lemma finishMesh_shape n t : arrays_shape n t → mesh_shape n (finishMesh t).
Proof.
  destruct t as [R r sc sd sm up v nr tc ix lx iv st].
  intros (Hv & Hn & Ht & Hix & Hlx & Hbi & Hbl); simpl in *.
  unfold finishMesh, mesh_shape, arrays_shape; simpl.
  destruct (decide (up ≠ 3)); simpl; [|done].
  rewrite !(map3_length _ n) by (done || apply axisMap_length). done.
Qed.

Lemma finish_run n t :
  arrays_shape n t →
  (t ← buildInterleavedVertices t;
   if decide (upAxis t ≠ 3) then changeUpAxis 3 (upAxis t) t else Some t)
  = Some (finishMesh t).
Proof.
  intros Hsh.
  rewrite (buildInterleavedVertices_run t n) by apply Hsh.
  rewrite bind_some. unfold finishMesh. cbv zeta.
  destruct (decide (upAxis _ ≠ 3)) as [Hup|Hup]; [|done].
  rewrite (changeUpAxis_run _ _ _ n).
  - reflexivity.
  - split; [by apply arrays_shape_with_interleaved|by destruct t].
Qed.

Lemma buildVerticesSmooth_run t :
  0 ≤ sideCount t → 0 ≤ sectorCount t →
  buildVerticesSmooth t = Some (finishMesh (smoothArrays t)).
Proof.
  intros Hsd Hsc. unfold buildVerticesSmooth. cbv zeta.
  rewrite <- (app_arrays_nil (clearArrays t)).
  rewrite smoothSamples_app by (simpl; lia). rewrite bind_some.
  rewrite smoothIndices_app by (simpl; lia). rewrite bind_some.
  apply (finish_run (smoothCount t)).
  by apply smoothArrays_shape.
Qed.

Lemma buildVerticesFlat_run t :
  0 ≤ sideCount t → 0 ≤ sectorCount t →
  buildVerticesFlat t = Some (finishMesh (flatArrays t)).
Proof.
  intros Hsd Hsc. unfold buildVerticesFlat.
  rewrite flatSamples_run by lia. rewrite bind_some. cbv zeta.
  rewrite <- (app_arrays_nil (clearArrays t)).
  change (flatGrid t) with (flatGrid (clearArrays t)).
  rewrite flatQuads_app by (simpl; lia). rewrite bind_some.
  apply (finish_run (flatCount t)).
  by apply flatArrays_shape.
Qed.
End Builders.

(** ** The class invariant *)

Section Invariant.
Context {F : Type} `{FloatOps F}.
Implicit Types (t : Torus F).

Lemma set_run majorR minorR sectors sides smooth_ up t :
  set majorR minorR sectors sides smooth_ up t
  = Some (rebuilt majorR minorR sectors sides smooth_ up t).
Proof.
  unfold set, rebuilt. cbv zeta.
  match goal with
  | |- (if smooth_ then buildVerticesSmooth ?a else _) = _ =>
      replace a with (setParams majorR minorR sectors sides smooth_ up t)
  end.
  - assert (0 ≤ sectorCount (setParams majorR minorR sectors sides smooth_ up t)).
    { simpl. unfold MIN_SECTOR_COUNT. case_decide; lia. }
    assert (0 ≤ sideCount (setParams majorR minorR sectors sides smooth_ up t)).
    { simpl. unfold MIN_SIDE_COUNT. case_decide; lia. }
    destruct smooth_.
    + by apply buildVerticesSmooth_run.
    + by apply buildVerticesFlat_run.
  - unfold setParams. destruct t; simpl.
    destruct (fgt majorR _), (fgt minorR _); repeat case_decide; reflexivity.
Qed.

Lemma finishMesh_scalars t :
  majorRadius (finishMesh t) = majorRadius t ∧
  minorRadius (finishMesh t) = minorRadius t ∧
  sectorCount (finishMesh t) = sectorCount t ∧
  sideCount (finishMesh t) = sideCount t ∧
  smooth (finishMesh t) = smooth t ∧
  upAxis (finishMesh t) = upAxis t ∧
  interleavedStride (finishMesh t) = interleavedStride t ∧
  texCoords (finishMesh t) = texCoords t ∧
  indices (finishMesh t) = indices t ∧
  lineIndices (finishMesh t) = lineIndices t.
Proof. unfold finishMesh. simpl. by case_decide. Qed.

Lemma smooth_index_lengths t :
  0 ≤ sideCount t → 0 ≤ sectorCount t →
  Z.of_nat (length (indices (smoothArrays t)))
  = 3 * (2 * sectorCount t * sideCount t) ∧
  Z.of_nat (length (lineIndices (smoothArrays t)))
  = 4 * sectorCount t * sideCount t.
Proof.
  intros Hsd Hsc. simpl.
  rewrite (length_grid _ _ _ 6), (length_grid _ _ _ 4) by done. nia.
Qed.

Lemma flat_index_lengths t :
  0 ≤ sideCount t → 0 ≤ sectorCount t →
  Z.of_nat (length (indices (flatArrays t)))
  = 3 * (2 * sectorCount t * sideCount t) ∧
  Z.of_nat (length (lineIndices (flatArrays t)))
  = 4 * sectorCount t * sideCount t.
Proof.
  intros Hsd Hsc. simpl.
  rewrite (length_grid _ _ _ 6), (length_grid _ _ _ 4) by done. nia.
Qed.

(** Rebuilding establishes the invariant, whatever the object was. *)
Lemma built_inv t :
  MIN_SECTOR_COUNT ≤ sectorCount t → MIN_SIDE_COUNT ≤ sideCount t →
  1 ≤ upAxis t ≤ 3 →
  torus_inv (finishMesh (if smooth t then smoothArrays t else flatArrays t)).
Proof.
  unfold MIN_SECTOR_COUNT, MIN_SIDE_COUNT. intros Hsc Hsd Hup.
  set (a := if smooth t then smoothArrays t else flatArrays t).
  assert (sectorCount a = sectorCount t ∧ sideCount a = sideCount t ∧
          upAxis a = upAxis t ∧ smooth a = smooth t) as (Ec & Ed & Eu & Es).
  { subst a. destruct (smooth t) eqn:E; simpl; by rewrite ?E. }
  assert (arrays_shape (vertexCount a) a) as Hshape.
  { unfold vertexCount, smoothCount, flatCount. rewrite Es, Ec, Ed.
    subst a. destruct (smooth t).
    - apply smoothArrays_shape; lia.
    - apply flatArrays_shape; lia. }
  assert (Z.of_nat (length (indices a)) = 3 * (2 * sectorCount t * sideCount t) ∧
          Z.of_nat (length (lineIndices a)) = 4 * sectorCount t * sideCount t)
    as [Hi Hl].
  { subst a. destruct (smooth t).
    - apply smooth_index_lengths; lia.
    - apply flat_index_lengths; lia. }
  destruct (finishMesh_scalars a) as (_ & _ & Fc & Fd & Fs & Fu & _ & _ & Fi & Fl).
  unfold torus_inv, MIN_SECTOR_COUNT, MIN_SIDE_COUNT.
  rewrite Fc, Fd, Fu, Fi, Fl, Ec, Ed, Eu.
  refine (conj _ (conj _ (conj _ (conj _ (conj _ _))))); try lia.
  replace (vertexCount (finishMesh a)) with (vertexCount a)
    by (unfold vertexCount, smoothCount, flatCount; by rewrite Fc, Fd, Fs).
  by apply finishMesh_shape.
Qed.

Lemma rebuilt_inv majorR minorR sectors sides smooth_ up t :
  torus_inv (rebuilt majorR minorR sectors sides smooth_ up t).
Proof.
  unfold rebuilt. cbv zeta.
  set (p := setParams majorR minorR sectors sides smooth_ up t).
  change smooth_ with (smooth p).
  apply built_inv; subst p; simpl; unfold MIN_SECTOR_COUNT, MIN_SIDE_COUNT;
    case_decide; lia.
Qed.

Lemma swap3_length (k : nat) : ∀ l : list Z,
  length l = (3 * k)%nat → length (swap3 l) = (3 * k)%nat.
Proof.
  induction k as [|k IH]; intros l Hl.
  - by destruct l.
  - destruct l as [|a [|b [|c l]]]; simpl in Hl; try lia.
    simpl. rewrite (IH l) by lia. lia.
Qed.

Lemma swap3_Forall (P : Z → Prop) (k : nat) : ∀ l : list Z,
  length l = (3 * k)%nat → Forall P l → Forall P (swap3 l).
Proof.
  induction k as [|k IH]; intros l Hl HP.
  - by destruct l.
  - destruct l as [|a [|b [|c l]]]; simpl in Hl; try lia.
    rewrite !list.Forall_cons in HP. destruct HP as (Ha & Hb & Hc & HP).
    simpl. repeat apply Forall_cons_2; try done. apply IH; [lia|done].
Qed.

Lemma swap3_involutive (k : nat) : ∀ l : list Z,
  length l = (3 * k)%nat → swap3 (swap3 l) = l.
Proof.
  induction k as [|k IH]; intros l Hl.
  - by destruct l.
  - destruct l as [|a [|b [|c l]]]; simpl in Hl; try lia.
    simpl. by rewrite (IH l) by lia.
Qed.

Lemma axisChanged_shape n from to t :
  mesh_shape n t → mesh_shape n (axisChanged from to t).
Proof.
  destruct t as [R r sc sd sm up v nr tc ix lx iv st].
  intros [(Hv & Hn & Ht & Hix & Hlx & Hbi & Hbl) Hiv]; simpl in *.
  unfold axisChanged, mesh_shape, arrays_shape; simpl.
  rewrite !(map3_length _ n) by (done || apply axisMap_length). done.
Qed.

Lemma normalsReversed_shape n t :
  mesh_shape n t → mesh_shape n (normalsReversed t).
Proof.
  destruct t as [R r sc sd sm up v nr tc ix lx iv st].
  intros [(Hv & Hn & Ht & [k Hix] & Hlx & Hbi & Hbl) Hiv]; simpl in *.
  unfold normalsReversed, mesh_shape, arrays_shape; simpl.
  rewrite length_fmap, (swap3_length k) by done.
  repeat split; try done.
  - by exists k.
  - by apply (swap3_Forall _ k).
Qed.

Lemma torus_inv_nonneg t :
  torus_inv t → 0 ≤ sideCount t ∧ 0 ≤ sectorCount t.
Proof.
  unfold torus_inv, MIN_SECTOR_COUNT, MIN_SIDE_COUNT. intros (? & ? & _). lia.
Qed.

Lemma setMajorRadius_inv r t t' :
  torus_inv t → setMajorRadius r t = Some t' → torus_inv t'.
Proof.
  unfold setMajorRadius. intros Hinv. destruct (fne _ _).
  - rewrite set_run. intros [= <-]. apply rebuilt_inv.
  - by intros [= <-].
Qed.

Lemma setMinorRadius_inv r t t' :
  torus_inv t → setMinorRadius r t = Some t' → torus_inv t'.
Proof.
  unfold setMinorRadius. intros Hinv. destruct (fne _ _).
  - rewrite set_run. intros [= <-]. apply rebuilt_inv.
  - by intros [= <-].
Qed.

Lemma setSectorCount_inv n t t' :
  torus_inv t → setSectorCount n t = Some t' → torus_inv t'.
Proof.
  unfold setSectorCount. intros Hinv. case_decide.
  - rewrite set_run. intros [= <-]. apply rebuilt_inv.
  - by intros [= <-].
Qed.

Lemma setSideCount_inv n t t' :
  torus_inv t → setSideCount n t = Some t' → torus_inv t'.
Proof.
  unfold setSideCount. intros Hinv. case_decide.
  - rewrite set_run. intros [= <-]. apply rebuilt_inv.
  - by intros [= <-].
Qed.

Lemma setSmooth_run b t :
  torus_inv t →
  setSmooth b t
  = Some (if decide (smooth t = b) then t
          else finishMesh (if b then smoothArrays (with_smooth b t)
                           else flatArrays (with_smooth b t))).
Proof.
  intros Hinv. destruct (torus_inv_nonneg t Hinv) as [Hsd Hsc].
  unfold setSmooth. case_decide; [done|]. cbv zeta. destruct b.
  - by apply buildVerticesSmooth_run.
  - by apply buildVerticesFlat_run.
Qed.

Lemma setSmooth_inv b t t' :
  torus_inv t → setSmooth b t = Some t' → torus_inv t'.
Proof.
  intros Hinv. rewrite setSmooth_run by done. intros [= <-].
  case_decide; [done|].
  destruct Hinv as (Hsc & Hsd & Hup & _).
  change b with (smooth (with_smooth b t)) at 1.
  by apply built_inv.
Qed.

Lemma setUpAxis_run up t :
  torus_inv t →
  setUpAxis up t
  = Some (if decide (upAxis t = up ∨ up < 1 ∨ up > 3) then t
          else with_upAxis up (axisChanged (upAxis t) up t)).
Proof.
  intros (_ & _ & _ & Hm & _). unfold setUpAxis. case_decide; [done|].
  by rewrite (changeUpAxis_run _ _ _ _ Hm).
Qed.

Lemma setUpAxis_inv up t t' :
  torus_inv t → setUpAxis up t = Some t' → torus_inv t'.
Proof.
  intros Hinv. rewrite setUpAxis_run by done. intros [= <-].
  case_decide; [done|].
  destruct Hinv as (Hsc & Hsd & Hup & Hm & Hi & Hl).
  refine (conj Hsc (conj Hsd (conj _ (conj _ (conj Hi Hl))))).
  - simpl. lia.
  - exact (axisChanged_shape _ (upAxis t) up _ Hm).
Qed.

Lemma reverseNormals_inv t t' :
  torus_inv t → reverseNormals t = Some t' → torus_inv t'.
Proof.
  intros (Hsc & Hsd & Hup & Hm & Hi & Hl).
  rewrite (reverseNormals_run _ _ Hm). intros [= <-].
  refine (conj Hsc (conj Hsd (conj Hup (conj _ (conj _ Hl))))).
  - exact (normalsReversed_shape _ _ Hm).
  - destruct Hm as [(_ & _ & _ & [k Hk] & _) _].
    simpl. rewrite (swap3_length k), <- Hk; done.
Qed.

Lemma rebuilt_stride majorR minorR sectors sides smooth_ up t :
  interleavedStride (rebuilt majorR minorR sectors sides smooth_ up t)
  = interleavedStride t.
Proof.
  unfold rebuilt. cbv zeta.
  match goal with
  | |- context [finishMesh ?a] =>
      destruct (finishMesh_scalars a) as (_ & _ & _ & _ & _ & _ & -> & _)
  end.
  by destruct smooth_.
Qed.

(** Every object a client can hold satisfies the invariant, and its stride
    member is the 32 the constructor wrote. *)
Lemma reachable_inv t : reachable t → torus_inv t ∧ interleavedStride t = 32.
Proof.
  induction 1 as
    [mem R r sectors sides sm up t Hnew
    |R r sectors sides sm up t t' _ [IH IHs] Hop
    |r t t' _ [IH IHs] Hop |r t t' _ [IH IHs] Hop
    |n t t' _ [IH IHs] Hop |n t t' _ [IH IHs] Hop
    |b t t' _ [IH IHs] Hop |up t t' _ [IH IHs] Hop
    |t t' _ [IH IHs] Hop].
  - unfold Torus_new in Hnew. rewrite set_run in Hnew.
    injection Hnew as <-. split; [apply rebuilt_inv|].
    by rewrite rebuilt_stride.
  - rewrite set_run in Hop. injection Hop as <-.
    split; [apply rebuilt_inv|]. by rewrite rebuilt_stride.
  - split; [by eapply setMajorRadius_inv|].
    unfold setMajorRadius in Hop. destruct (fne _ _).
    + rewrite set_run in Hop. injection Hop as <-. by rewrite rebuilt_stride.
    + by injection Hop as <-.
  - split; [by eapply setMinorRadius_inv|].
    unfold setMinorRadius in Hop. destruct (fne _ _).
    + rewrite set_run in Hop. injection Hop as <-. by rewrite rebuilt_stride.
    + by injection Hop as <-.
  - split; [by eapply setSectorCount_inv|].
    unfold setSectorCount in Hop. case_decide.
    + rewrite set_run in Hop. injection Hop as <-. by rewrite rebuilt_stride.
    + by injection Hop as <-.
  - split; [by eapply setSideCount_inv|].
    unfold setSideCount in Hop. case_decide.
    + rewrite set_run in Hop. injection Hop as <-. by rewrite rebuilt_stride.
    + by injection Hop as <-.
  - split; [by eapply setSmooth_inv|].
    rewrite setSmooth_run in Hop by done. injection Hop as <-.
    case_decide; [done|].
    match goal with
    | |- context [finishMesh ?a] =>
        destruct (finishMesh_scalars a) as (_ & _ & _ & _ & _ & _ & -> & _)
    end.
    by destruct b.
  - split; [by eapply setUpAxis_inv|].
    rewrite setUpAxis_run in Hop by done. injection Hop as <-.
    by case_decide.
  - split; [by eapply reverseNormals_inv|].
    destruct IH as (_ & _ & _ & Hm & _).
    rewrite (reverseNormals_run _ _ Hm) in Hop. by injection Hop as <-.
Qed.

(** In particular its arrays are a mesh in the sense of [mesh_shape]. *)
Lemma reachable_mesh_shape t : reachable t → mesh_shape (vertexCount t) t.
Proof. intros Hr. by destruct (reachable_inv t Hr) as [(_ & _ & _ & Hm & _) _]. Qed.

(** On such an object no mutator touches a vector out of its bounds. *)
Lemma reachable_total t :
  reachable t →
  (∀ majorR minorR sectors sides smooth_ up,
     is_Some (set majorR minorR sectors sides smooth_ up t)) ∧
  (∀ r, is_Some (setMajorRadius r t)) ∧
  (∀ r, is_Some (setMinorRadius r t)) ∧
  (∀ n, is_Some (setSectorCount n t)) ∧
  (∀ n, is_Some (setSideCount n t)) ∧
  (∀ b, is_Some (setSmooth b t)) ∧
  (∀ up, is_Some (setUpAxis up t)) ∧
  is_Some (reverseNormals t).
Proof.
  intros Hr. destruct (reachable_inv t Hr) as [Hinv _].
  repeat split.
  - intros. rewrite set_run. eauto.
  - intros r. unfold setMajorRadius. destruct (fne _ _); [rewrite set_run|]; eauto.
  - intros r. unfold setMinorRadius. destruct (fne _ _); [rewrite set_run|]; eauto.
  - intros n. unfold setSectorCount. case_decide; [rewrite set_run|]; eauto.
  - intros n. unfold setSideCount. case_decide; [rewrite set_run|]; eauto.
  - intros b. rewrite setSmooth_run by done. eauto.
  - intros up. rewrite setUpAxis_run by done. eauto.
  - destruct Hinv as (_ & _ & _ & Hm & _).
    rewrite (reverseNormals_run _ _ Hm). eauto.
Qed.
End Invariant.

(** ** Layout of the interleaved array *)

Section Layout.
Context {F : Type} `{FloatOps F}.

Lemma interleave_lookup (n : nat) : ∀ (v nr tc : list F) (i : nat),
  length v = (3 * n)%nat → length nr = (3 * n)%nat → length tc = (2 * n)%nat →
  (i < n)%nat →
  (∀ c, (c < 3)%nat →
     interleave v nr tc !! (8 * i + c)%nat = v !! (3 * i + c)%nat) ∧
  (∀ c, (c < 3)%nat →
     interleave v nr tc !! (8 * i + 3 + c)%nat = nr !! (3 * i + c)%nat) ∧
  (∀ c, (c < 2)%nat →
     interleave v nr tc !! (8 * i + 6 + c)%nat = tc !! (2 * i + c)%nat).
Proof.
  induction n as [|n IH]; intros v nr tc i Hv Hn Ht Hi; [lia|].
  destruct v as [|x [|y [|z v]]]; simpl in Hv; try lia.
  destruct nr as [|a [|b [|c0 nr]]]; simpl in Hn; try lia.
  destruct tc as [|s [|q tc]]; simpl in Ht; try lia.
  cbn [interleave]. destruct i as [|i].
  - repeat split; intros c Hc.
    + destruct c as [|[|[|c]]]; [done..|lia].
    + destruct c as [|[|[|c]]]; [done..|lia].
    + destruct c as [|[|c]]; [done..|lia].
  - destruct (IH v nr tc i) as (Iv & In & It); try lia.
    repeat split; intros c Hc.
    + replace (8 * S i + c)%nat with (8 + (8 * i + c))%nat by lia.
      replace (3 * S i + c)%nat with (3 + (3 * i + c))%nat by lia.
      cbn [Nat.add lookup list_lookup]. by apply Iv.
    + replace (8 * S i + 3 + c)%nat with (8 + (8 * i + 3 + c))%nat by lia.
      replace (3 * S i + c)%nat with (3 + (3 * i + c))%nat by lia.
      cbn [Nat.add lookup list_lookup]. by apply In.
    + replace (8 * S i + 6 + c)%nat with (8 + (8 * i + 6 + c))%nat by lia.
      replace (2 * S i + c)%nat with (2 + (2 * i + c))%nat by lia.
      cbn [Nat.add lookup list_lookup]. by apply It.
Qed.

Lemma map3_lookup (f : F → F → F → list F) : ∀ (p : nat) (l : list F) x y z c,
  (∀ x y z, length (f x y z) = 3%nat) →
  l !! (3 * p)%nat = Some x → l !! (3 * p + 1)%nat = Some y →
  l !! (3 * p + 2)%nat = Some z → (c < 3)%nat →
  map3 f l !! (3 * p + c)%nat = f x y z !! c.
Proof.
  induction p as [|p IH]; intros l x y z c Hf Hx Hy Hz Hc.
  - destruct l as [|x' [|y' [|z' l]]]; try done.
    simpl in Hx, Hy, Hz. injection Hx as ->. injection Hy as ->.
    injection Hz as ->.
    cbn [map3]. simpl. rewrite lookup_app_l by (rewrite Hf; lia). done.
  - destruct l as [|x' [|y' [|z' l]]].
    + done.
    + replace (3 * S p)%nat with (S (3 * p + 2)) in Hx by lia. done.
    + replace (3 * S p)%nat with (S (S (3 * p + 1))) in Hx by lia. done.
    + replace (3 * S p)%nat with (3 + 3 * p)%nat in * by lia.
      cbn [map3]. rewrite lookup_app_r by (rewrite Hf; lia). rewrite Hf.
      replace (3 + 3 * p + c - 3)%nat with (3 * p + c)%nat by lia.
      apply IH; try done.
Qed.

Lemma swap3_lookup : ∀ (k : nat) (l : list Z) a b c,
  l !! (3 * k)%nat = Some a → l !! (3 * k + 1)%nat = Some b →
  l !! (3 * k + 2)%nat = Some c →
  swap3 l !! (3 * k)%nat = Some c ∧ swap3 l !! (3 * k + 1)%nat = Some b ∧
  swap3 l !! (3 * k + 2)%nat = Some a.
Proof.
  induction k as [|k IH]; intros l a b c Ha Hb Hc.
  - destruct l as [|a' [|b' [|c' l]]]; by simplify_eq/=.
  - destruct l as [|a' [|b' [|c' l]]].
    + done.
    + replace (3 * S k)%nat with (S (3 * k + 2)) in Ha by lia. done.
    + replace (3 * S k)%nat with (S (S (3 * k + 1))) in Ha by lia. done.
    + replace (3 * S k)%nat with (3 + 3 * k)%nat in * by lia.
      cbn [swap3]. by apply IH.
Qed.

Lemma map3_triple (f : F → F → F → list F) (p : nat) (l : list F)
    x y z x' y' z' :
  (∀ x y z, length (f x y z) = 3%nat) →
  l !! (3 * p)%nat = Some x → l !! (3 * p + 1)%nat = Some y →
  l !! (3 * p + 2)%nat = Some z →
  map3 f l !! (3 * p)%nat = Some x' → map3 f l !! (3 * p + 1)%nat = Some y' →
  map3 f l !! (3 * p + 2)%nat = Some z' →
  f x y z = [x'; y'; z'].
Proof.
  intros Hf Hx Hy Hz Hx' Hy' Hz'.
  pose proof (map3_lookup f p l x y z 0 Hf Hx Hy Hz ltac:(lia)) as E0.
  pose proof (map3_lookup f p l x y z 1 Hf Hx Hy Hz ltac:(lia)) as E1.
  pose proof (map3_lookup f p l x y z 2 Hf Hx Hy Hz ltac:(lia)) as E2.
  rewrite Nat.add_0_r in E0. rewrite Hx' in E0. rewrite Hy' in E1.
  rewrite Hz' in E2.
  specialize (Hf x y z).
  destruct (f x y z) as [|a [|b [|c [|d r]]]]; simpl in Hf; try lia.
  by simplify_eq/=.
Qed.

(** Groups of four equal triples stay groups of four equal triples under
    [map3]. *)
Lemma map3_groups (f : F → F → F → list F) (N : nat) (l : list F) :
  (∀ x y z, length (f x y z) = 3%nat) →
  length l = (12 * N)%nat →
  (∀ q k c, (q < N)%nat → (k < 4)%nat → (c < 3)%nat →
     l !! (12 * q + 3 * k + c)%nat = l !! (12 * q + c)%nat) →
  ∀ q k c, (q < N)%nat → (k < 4)%nat → (c < 3)%nat →
    map3 f l !! (12 * q + 3 * k + c)%nat = map3 f l !! (12 * q + c)%nat.
Proof.
  intros Hf Hl Hg q k c Hq Hk Hc.
  destruct (lookup_lt_is_Some_2 l (12 * q)) as [x Hx]; [lia|].
  destruct (lookup_lt_is_Some_2 l (12 * q + 1)) as [y Hy]; [lia|].
  destruct (lookup_lt_is_Some_2 l (12 * q + 2)) as [z Hz]; [lia|].
  pose proof (Hg q k 0%nat Hq Hk ltac:(lia)) as G0.
  pose proof (Hg q k 1%nat Hq Hk ltac:(lia)) as G1.
  pose proof (Hg q k 2%nat Hq Hk ltac:(lia)) as G2.
  replace (12 * q + 3 * k + c)%nat with (3 * (4 * q + k) + c)%nat by lia.
  replace (12 * q + c)%nat with (3 * (4 * q) + c)%nat by lia.
  rewrite (map3_lookup f (4 * q + k) l x y z), (map3_lookup f (4 * q) l x y z);
    try done.
  - by replace (3 * (4 * q))%nat with (12 * q)%nat by lia.
  - by replace (3 * (4 * q) + 1)%nat with (12 * q + 1)%nat by lia.
  - by replace (3 * (4 * q) + 2)%nat with (12 * q + 2)%nat by lia.
  - replace (3 * (4 * q + k))%nat with (12 * q + 3 * k + 0)%nat by lia.
    rewrite G0. by replace (12 * q + 0)%nat with (12 * q)%nat by lia.
  - replace (3 * (4 * q + k) + 1)%nat with (12 * q + 3 * k + 1)%nat by lia.
    by rewrite G1.
  - replace (3 * (4 * q + k) + 2)%nat with (12 * q + 3 * k + 2)%nat by lia.
    by rewrite G2.
Qed.

(** Cell (i, j) of a grid with [cols] columns, from its running number. *)
Lemma cell_of_number (rows cols : Z) (q : nat) :
  (q < Z.to_nat rows * Z.to_nat cols)%nat →
  ∃ i j : nat,
    q = (i * Z.to_nat cols + j)%nat ∧ Z.of_nat i < rows ∧ Z.of_nat j < cols.
Proof.
  intros Hq.
  assert (Z.to_nat cols ≠ 0)%nat as Hc by lia.
  exists (q / Z.to_nat cols)%nat, (q mod Z.to_nat cols)%nat.
  pose proof (Nat.div_mod_eq q (Z.to_nat cols)) as Hdm.
  pose proof (Nat.mod_upper_bound q (Z.to_nat cols) Hc) as Hm.
  split; [lia|]. split; [|lia].
  assert (q / Z.to_nat cols < Z.to_nat rows)%nat.
  { apply Nat.Div0.div_lt_upper_bound. lia. }
  lia.
Qed.

Lemma flat_normals_groups (t : Torus F) (q k c : nat) :
  (q < Z.to_nat (sideCount t) * Z.to_nat (sectorCount t))%nat →
  (k < 4)%nat → (c < 3)%nat →
  grid (sideCount t) (sectorCount t) (flatQuadNormals t)
    !! (12 * q + 3 * k + c)%nat
  = grid (sideCount t) (sectorCount t) (flatQuadNormals t) !! (12 * q + c)%nat.
Proof.
  intros Hq Hk Hc.
  destruct (cell_of_number _ _ q Hq) as (i & j & -> & Hi & Hj).
  assert (∀ i j, length (flatQuadNormals t i j) = 12%nat) as Hlen.
  { intros. unfold flatQuadNormals. cbv zeta.
    rewrite !length_app, !quadNormal_length. done. }
  replace (12 * (i * Z.to_nat (sectorCount t) + j) + 3 * k + c)%nat
    with ((i * Z.to_nat (sectorCount t) + j) * 12 + (3 * k + c))%nat by lia.
  replace (12 * (i * Z.to_nat (sectorCount t) + j) + c)%nat
    with ((i * Z.to_nat (sectorCount t) + j) * 12 + c)%nat by lia.
  rewrite !(lookup_grid _ _ _ 12) by (done || lia).
  unfold flatQuadNormals, quadNormal. cbv zeta.
  match goal with
  | |- context [faceNormal ?a ?b ?c ?d ?e ?f ?g ?h ?k] =>
      destruct (faceNormal_shape a b c d e f g h k) as (? & ? & ? & ->)
  end.
  destruct k as [|[|[|[|k]]]]; try lia;
    destruct c as [|[|[|c]]]; try lia; reflexivity.
Qed.
End Layout.

(** ** Theorems *)

Section Claims.
Context {F : Type} `{FloatOps F}.
Implicit Types (t : Torus F).

(** C1.  Every object obtained from the constructor and the setters has
    position, normal and texture-coordinate arrays of one and the same
    vertex count [n]; every triangle index and every line index is below
    [n]; the triangle index array holds whole triples and the line index
    array whole pairs. *)
Theorem C1_arrays_aligned_and_indices_in_range t :
  reachable t →
  ∃ n : nat,
    length (vertices t) = (3 * n)%nat ∧
    length (normals t) = (3 * n)%nat ∧
    length (texCoords t) = (2 * n)%nat ∧
    Forall (fun x => 0 ≤ x < Z.of_nat n) (indices t) ∧
    Forall (fun x => 0 ≤ x < Z.of_nat n) (lineIndices t) ∧
    (length (indices t) mod 3 = 0)%nat ∧
    (length (lineIndices t) mod 2 = 0)%nat.
Proof.
  intros Hr. destruct (reachable_inv t Hr) as [(_ & _ & _ & Hm & _) _].
  destruct Hm as [(Hv & Hn & Ht & [k Hk] & [k' Hk'] & Hbi & Hbl) _].
  exists (vertexCount t). repeat split; try done.
  - rewrite Hk, Nat.mul_comm. apply Nat.Div0.mod_mul.
  - rewrite Hk', Nat.mul_comm. apply Nat.Div0.mod_mul.
Qed.


(** C3.  For every reachable object (so after every rebuild) the interleaved
    array holds 8 floats per vertex: record i is the 3 position floats of
    vertex i, then its 3 normal floats, then its 2 texture coordinates.  The
    stride member is 32 (bytes, 8 floats of 4 bytes). *)
Theorem C3_interleaved_layout t :
  reachable t →
  ∃ n : nat,
    length (vertices t) = (3 * n)%nat ∧
    length (interleavedVertices t) = (8 * n)%nat ∧
    (∀ i c, (i < n)%nat → (c < 3)%nat →
       interleavedVertices t !! (8 * i + c)%nat = vertices t !! (3 * i + c)%nat) ∧
    (∀ i c, (i < n)%nat → (c < 3)%nat →
       interleavedVertices t !! (8 * i + 3 + c)%nat
       = normals t !! (3 * i + c)%nat) ∧
    (∀ i c, (i < n)%nat → (c < 2)%nat →
       interleavedVertices t !! (8 * i + 6 + c)%nat
       = texCoords t !! (2 * i + c)%nat) ∧
    getInterleavedStride t = 32 ∧ 32 = 8 * 4.
Proof.
  intros Hr. destruct (reachable_inv t Hr) as [(_ & _ & _ & Hm & _) Hs].
  destruct Hm as [(Hv & Hn & Ht & _) Hiv].
  exists (vertexCount t). rewrite Hiv.
  split; [done|]. split; [by apply interleave_length|].
  repeat split; try done; intros i c Hi Hc;
    by apply (interleave_lookup (vertexCount t)).
Qed.

(** C4.  [set] never fails, and stores: the requested sector count when it
    is at least 3, else 3; the requested side count when it is at least 2,
    else 2; the requested axis when it is 1, 2 or 3, else 3; each requested
    radius when it is > 0, else the radius the object had. *)
Theorem C4_set_clamps_parameters majorR minorR sectors sides smooth_ up t :
  ∃ t', set majorR minorR sectors sides smooth_ up t = Some t' ∧
    sectorCount t' = (if decide (3 ≤ sectors) then sectors else 3) ∧
    sideCount t' = (if decide (2 ≤ sides) then sides else 2) ∧
    upAxis t' = (if decide (up = 1 ∨ up = 2 ∨ up = 3) then up else 3) ∧
    majorRadius t' = (if fgt majorR (f_of_int 0) then majorR else majorRadius t) ∧
    minorRadius t' = (if fgt minorR (f_of_int 0) then minorR else minorRadius t) ∧
    smooth t' = smooth_.
Proof.
  eexists. split; [apply set_run|].
  unfold rebuilt. cbv zeta.
  match goal with
  | |- context [finishMesh ?a] =>
      destruct (finishMesh_scalars a) as (-> & -> & -> & -> & -> & -> & _)
  end.
  destruct smooth_; simpl; repeat split; repeat case_decide;
    unfold MIN_SECTOR_COUNT, MIN_SIDE_COUNT in *; try lia; done.
Qed.

(** C9.  On a mesh ([mesh_shape], which holds of every reachable object),
    [changeUpAxis] leaves the texture coordinates and both index arrays as
    they are; [reverseNormals] leaves the texture coordinates, the line
    indices and the positions as they are and keeps the number of triangle
    indices. *)
Theorem C9_in_place_frame (n : nat) t from to :
  mesh_shape n t →
  (∃ t', changeUpAxis from to t = Some t' ∧
     texCoords t' = texCoords t ∧
     indices t' = indices t ∧
     lineIndices t' = lineIndices t) ∧
  (∃ t', reverseNormals t = Some t' ∧
     texCoords t' = texCoords t ∧
     lineIndices t' = lineIndices t ∧
     vertices t' = vertices t ∧
     length (indices t') = length (indices t)).
Proof.
  intros Hm. split.
  - eexists. split; [by apply (changeUpAxis_run _ _ _ n)|]. done.
  - eexists. split; [by apply (reverseNormals_run _ n)|].
    repeat split; try done.
    destruct Hm as [(_ & _ & _ & [k Hk] & _) _].
    simpl. by rewrite (swap3_length k).
Qed.

(** C6.  In an arithmetic where multiplying twice by -1 gives the number
    back, one call of [reverseNormals] on a mesh ([mesh_shape], which holds
    of every reachable object) multiplies every normal component by -1 and
    exchanges the first and last index of every triangle, and a second call
    gives back the normals, the interleaved array and the triangle indices
    exactly. *)
Theorem C6_reverseNormals_twice (n : nat) t :
  (∀ x : F, negate (negate x) = x) →
  mesh_shape n t →
  ∃ t1 t2,
    reverseNormals t = Some t1 ∧ reverseNormals t1 = Some t2 ∧
    normals t1 = negate <$> normals t ∧
    (∀ (k : nat) a b c,
       indices t !! (3 * k)%nat = Some a →
       indices t !! (3 * k + 1)%nat = Some b →
       indices t !! (3 * k + 2)%nat = Some c →
       indices t1 !! (3 * k)%nat = Some c ∧
       indices t1 !! (3 * k + 1)%nat = Some b ∧
       indices t1 !! (3 * k + 2)%nat = Some a) ∧
    normals t2 = normals t ∧
    interleavedVertices t2 = interleavedVertices t ∧
    indices t2 = indices t.
Proof.
  intros Hneg Hm.
  pose proof (normalsReversed_shape _ _ Hm) as Hm1.
  exists (normalsReversed t), (normalsReversed (normalsReversed t)).
  split; [by apply (reverseNormals_run _ n)|].
  split; [by apply (reverseNormals_run _ n)|].
  split; [done|].
  split; [intros k a b c; apply swap3_lookup|].
  assert (negate <$> (negate <$> normals t) = normals t) as Hnn.
  { rewrite <- list_fmap_compose. rewrite <- (list_fmap_id (normals t)) at 2.
    apply list_fmap_ext. intros i x _. apply Hneg. }
  destruct Hm as [(_ & _ & _ & [k Hk] & _) Hiv].
  simpl. rewrite Hnn, Hiv, (swap3_involutive k) by done. done.
Qed.

End Claims.

(** ** Exact arithmetic: the radius arguments of the constructor *)

Section RealClaims.
Implicit Types (t : Torus R).

(** C10.  There is a constructor call with a major radius that is not
    positive (0) for which the member [majorRadius] keeps whatever the
    memory held before the call, and the positions computed from it differ
    with that content. *)
Theorem C10_radius_unassigned_at_construction :
  ∃ (majorR minorR : R) (sectors sides : Z) (smooth_ : bool) (up : Z),
    ¬ (majorR > 0)%R ∧
    (∀ mem, ∃ t,
       Torus_new mem majorR minorR sectors sides smooth_ up = Some t ∧
       majorRadius t = majorRadius mem) ∧
    (∃ mem1 mem2 t1 t2,
       Torus_new mem1 majorR minorR sectors sides smooth_ up = Some t1 ∧
       Torus_new mem2 majorR minorR sectors sides smooth_ up = Some t2 ∧
       vertices t1 ≠ vertices t2).
Proof.
  exists 0%R, 1%R, 3, 2, true, 3.
  split; [lra|].
  assert (∀ mem : Torus R,
            let t := rebuilt 0%R 1%R 3 2 true 3
                       (mkTorus (majorRadius mem) (minorRadius mem)
                          (sectorCount mem) (sideCount mem) (smooth mem)
                          (upAxis mem) [] [] [] [] [] [] 32) in
            majorRadius t = majorRadius mem ∧
            ∃ w, vertices t !! 0%nat = Some (w + majorRadius mem)%R ∧
                 w = (1 * cos (acos (-1) - 0 * (2 * acos (-1) / 2)) * 1)%R)
    as Hrun.
  { intros mem t. subst t. unfold rebuilt. cbv zeta.
    set (p := setParams _ _ _ _ _ _ _).
    destruct (finishMesh_scalars (smoothArrays p)) as (-> & _).
    split.
    { subst p. simpl. destruct (Rlt_dec 0 0); [lra|done]. }
    unfold finishMesh. cbv zeta. rewrite decide_False by (by intros []).
    cbn [vertices with_interleaved].
    change (vertices (smoothArrays p))
      with (grid (sideCount p + 1) (sectorCount p + 1) (smoothVertex p)).
    change 0%nat with ((0 * Z.to_nat (sectorCount p + 1) + 0) * 3 + 0)%nat.
    rewrite (lookup_grid _ _ _ 3) by (done || (subst p; simpl; lia)).
    eexists. split; [|reflexivity].
    subst p. unfold smoothVertex, sideAngle, sectorAngle, sideStep, sectorStep.
    simpl. destruct (Rlt_dec 0 0); [lra|]. destruct (Rlt_dec 0 1); [|lra].
    f_equal. rewrite !Rmult_0_l, cos_0. lra. }
  split.
  - intros mem. eexists. split; [apply set_run|]. apply Hrun.
  - exists (mkTorus 1%R 1%R 0 0 false 0 [] [] [] [] [] [] 0),
      (mkTorus 2%R 1%R 0 0 false 0 [] [] [] [] [] [] 0).
    eexists. eexists. split; [apply set_run|]. split; [apply set_run|].
    intros Heq.
    match type of Heq with
    | vertices ?a = vertices ?b =>
        assert (vertices a !! 0%nat = vertices b !! 0%nat) as H0
          by (by rewrite Heq)
    end.
    destruct (Hrun (mkTorus 1%R 1%R 0 0 false 0 [] [] [] [] [] [] 0))
      as (_ & w1 & E1 & W1).
    destruct (Hrun (mkTorus 2%R 1%R 0 0 false 0 [] [] [] [] [] [] 0))
      as (_ & w2 & E2 & W2).
    cbv zeta in E1, E2. unfold Torus_new in H0.
    rewrite E1, E2 in H0. injection H0 as H0.
    rewrite W1, W2 in H0. simpl in H0. lra.
Qed.
End RealClaims.

(** * Further properties *)

(** ** What a rebuild depends on *)

Section Rebuild.
Context {F : Type} `{FloatOps F}.
Implicit Types (t : Torus F).

(** The arrays the builders leave are a function of the six parameters and
    the stride alone. *)
Lemma built_ext t1 t2 :
  majorRadius t1 = majorRadius t2 → minorRadius t1 = minorRadius t2 →
  sectorCount t1 = sectorCount t2 → sideCount t1 = sideCount t2 →
  smooth t1 = smooth t2 → upAxis t1 = upAxis t2 →
  interleavedStride t1 = interleavedStride t2 →
  ∀ b : bool,
    finishMesh (if b then smoothArrays t1 else flatArrays t1)
    = finishMesh (if b then smoothArrays t2 else flatArrays t2).
Proof.
  destruct t1 as [R1 r1 sc1 sd1 sm1 up1 v1 n1 tc1 ix1 lx1 iv1 st1].
  destruct t2 as [R2 r2 sc2 sd2 sm2 up2 v2 n2 tc2 ix2 lx2 iv2 st2].
  simpl. intros -> -> -> -> -> -> -> b.
  unfold finishMesh. destruct b; simpl; case_decide; reflexivity.
Qed.

Lemma rebuilt_ext majorR minorR sectors sides smooth_ up t1 t2 :
  majorRadius t1 = majorRadius t2 → minorRadius t1 = minorRadius t2 →
  interleavedStride t1 = interleavedStride t2 →
  rebuilt majorR minorR sectors sides smooth_ up t1
  = rebuilt majorR minorR sectors sides smooth_ up t2.
Proof.
  intros HR Hr Hs. unfold rebuilt. cbv zeta.
  apply built_ext; simpl; rewrite ?HR, ?Hr, ?Hs; reflexivity.
Qed.

(** X1.  What [set] returns depends on the object only through its two
    radii and its stride member: the arrays, counts, flags and axis it had
    play no role. *)
Theorem X1_set_ignores_previous_mesh
    majorR minorR sectors sides smooth_ up t1 t2 :
  majorRadius t1 = majorRadius t2 → minorRadius t1 = minorRadius t2 →
  interleavedStride t1 = interleavedStride t2 →
  set majorR minorR sectors sides smooth_ up t1
  = set majorR minorR sectors sides smooth_ up t2.
Proof.
  intros HR Hr Hs. rewrite !set_run. f_equal. by apply rebuilt_ext.
Qed.

Lemma rebuilt_scalars majorR minorR sectors sides smooth_ up t :
  let t' := rebuilt majorR minorR sectors sides smooth_ up t in
  let p := setParams majorR minorR sectors sides smooth_ up t in
  majorRadius t' = majorRadius p ∧ minorRadius t' = minorRadius p ∧
  sectorCount t' = sectorCount p ∧ sideCount t' = sideCount p ∧
  smooth t' = smooth p ∧ upAxis t' = upAxis p ∧
  interleavedStride t' = interleavedStride p.
Proof.
  cbv zeta. unfold rebuilt. cbv zeta.
  match goal with
  | |- context [finishMesh ?a] =>
      destruct (finishMesh_scalars a) as (-> & -> & -> & -> & -> & -> & -> & _)
  end.
  by destruct smooth_.
Qed.

Lemma rebuilt_idem majorR minorR sectors sides smooth_ up t :
  rebuilt majorR minorR sectors sides smooth_ up
    (rebuilt majorR minorR sectors sides smooth_ up t)
  = rebuilt majorR minorR sectors sides smooth_ up t.
Proof.
  pose proof (rebuilt_scalars majorR minorR sectors sides smooth_ up t)
    as (HR & Hr & _ & _ & _ & _ & Hs). cbv zeta in *.
  unfold rebuilt at 1 3. cbv zeta.
  apply built_ext; simpl; rewrite ?HR, ?Hr, ?Hs; simpl;
    try reflexivity; by destruct (fgt _ _).
Qed.

(** X2.  [set] is idempotent: calling it again with the same arguments on
    the object it returned gives that object back. *)
Theorem X2_set_idempotent majorR minorR sectors sides smooth_ up t :
  ∃ t', set majorR minorR sectors sides smooth_ up t = Some t' ∧
        set majorR minorR sectors sides smooth_ up t' = Some t'.
Proof.
  eexists. split; [apply set_run|]. rewrite set_run. f_equal.
  apply rebuilt_idem.
Qed.

(** X3.  A flip of the normals does not survive a rebuild: on an object a
    client can hold, [reverseNormals] followed by [set] gives what [set]
    alone gives. *)
Theorem X3_rebuild_forgets_reverseNormals t :
  reachable t →
  ∃ t1, reverseNormals t = Some t1 ∧
    ∀ majorR minorR sectors sides smooth_ up,
      set majorR minorR sectors sides smooth_ up t1
      = set majorR minorR sectors sides smooth_ up t.
Proof.
  intros Hr. pose proof (reachable_mesh_shape t Hr) as Hm.
  eexists. split; [by apply (reverseNormals_run _ _ Hm)|].
  intros. rewrite !set_run. f_equal. by apply rebuilt_ext.
Qed.

Lemma setParams_own b t :
  torus_inv t →
  setParams (majorRadius t) (minorRadius t) (sectorCount t) (sideCount t) b
    (upAxis t) t
  = with_smooth b t.
Proof.
  unfold torus_inv, MIN_SECTOR_COUNT, MIN_SIDE_COUNT.
  intros (Hsc & Hsd & Hup & _).
  destruct t as [R r sc sd sm up v nr tc ix lx iv st]; simpl in *.
  unfold setParams, with_smooth; simpl.
  rewrite !decide_False by (unfold MIN_SECTOR_COUNT, MIN_SIDE_COUNT; lia).
  by destruct (fgt R _), (fgt r _).
Qed.

(** X4.  On an object a client can hold, [setSmooth b] with a flag other
    than the current one is [set] with the object's own radii, counts and
    axis and the flag [b]; with the current flag it changes nothing. *)
Theorem X4_setSmooth_is_set b t :
  reachable t →
  setSmooth b t
  = if decide (smooth t = b) then Some t
    else set (majorRadius t) (minorRadius t) (sectorCount t) (sideCount t) b
           (upAxis t) t.
Proof.
  intros Hr. destruct (reachable_inv t Hr) as [Hinv _].
  rewrite setSmooth_run by done. case_decide; [done|].
  rewrite set_run. unfold rebuilt. cbv zeta.
  by rewrite setParams_own.
Qed.

Lemma set_radii_positive majorR minorR sectors sides smooth_ up t :
  (fgt majorR (f_of_int 0) = true ∨ fgt (majorRadius t) (f_of_int 0) = true) →
  (fgt minorR (f_of_int 0) = true ∨ fgt (minorRadius t) (f_of_int 0) = true) →
  radii_positive (rebuilt majorR minorR sectors sides smooth_ up t).
Proof.
  intros HR Hr.
  pose proof (rebuilt_scalars majorR minorR sectors sides smooth_ up t)
    as (ER & Er & _). cbv zeta in *.
  unfold radii_positive. rewrite ER, Er. simpl.
  split.
  - destruct (fgt majorR _) eqn:E; [done|]. by destruct HR.
  - destruct (fgt minorR _) eqn:E; [done|]. by destruct Hr.
Qed.

(** X5.  Radii that pass the test [> 0] stay so: a constructor call with two
    such radii leaves them stored, and no public mutator applied to an object
    a client can hold replaces a stored radius that passes the test by one
    that does not. *)
Theorem X5_radii_stay_positive :
  (∀ mem majorR minorR sectors sides smooth_ up t,
     fgt majorR (f_of_int 0) = true → fgt minorR (f_of_int 0) = true →
     Torus_new mem majorR minorR sectors sides smooth_ up = Some t →
     radii_positive t ∧ majorRadius t = majorR ∧ minorRadius t = minorR) ∧
  (∀ t t', reachable t → radii_positive t → mutation t t' →
           radii_positive t').
Proof.
  split.
  - intros mem majorR minorR sectors sides smooth_ up t HR Hr Hnew.
    unfold Torus_new in Hnew. rewrite set_run in Hnew. injection Hnew as <-.
    split; [apply set_radii_positive; by left|].
    match goal with
    | |- context [rebuilt ?a ?b ?c ?d ?e ?f ?g] =>
        pose proof (rebuilt_scalars a b c d e f g) as (ER & Er & _)
    end.
    cbv zeta in *. rewrite ER, Er. simpl. by rewrite HR, Hr.
  - intros t t' Hreach [HR Hr] Hmut.
    destruct (reachable_inv t Hreach) as [Hinv _].
    destruct Hmut as
      [R r sectors sides sm up t t' Hop
      |r t t' Hop |r t t' Hop |n t t' Hop |n t t' Hop |b t t' Hop
      |up t t' Hop |t t' Hop].
    + rewrite set_run in Hop. injection Hop as <-.
      apply set_radii_positive; by right.
    + unfold setMajorRadius in Hop. destruct (fne _ _).
      * rewrite set_run in Hop. injection Hop as <-.
        apply set_radii_positive; by right.
      * by injection Hop as <-.
    + unfold setMinorRadius in Hop. destruct (fne _ _).
      * rewrite set_run in Hop. injection Hop as <-.
        apply set_radii_positive; by right.
      * by injection Hop as <-.
    + unfold setSectorCount in Hop. case_decide.
      * rewrite set_run in Hop. injection Hop as <-.
        apply set_radii_positive; by right.
      * by injection Hop as <-.
    + unfold setSideCount in Hop. case_decide.
      * rewrite set_run in Hop. injection Hop as <-.
        apply set_radii_positive; by right.
      * by injection Hop as <-.
    + rewrite setSmooth_run in Hop by done. injection Hop as <-.
      case_decide; [done|]. unfold radii_positive.
      match goal with
      | |- context [finishMesh ?a] =>
          destruct (finishMesh_scalars a) as (-> & -> & _)
      end.
      by destruct b.
    + rewrite setUpAxis_run in Hop by done. injection Hop as <-.
      by case_decide.
    + destruct Hinv as (_ & _ & _ & Hm & _).
      rewrite (reverseNormals_run _ _ Hm) in Hop. by injection Hop as <-.
Qed.
End Rebuild.

(** ** Index arrays and accessors *)

Section Topology.
Context {F : Type} `{FloatOps F}.
Implicit Types (t : Torus F).

Lemma rebuilt_lengths majorR minorR sectors sides smooth_ up t :
  let t' := rebuilt majorR minorR sectors sides smooth_ up t in
  let sc := sectorCount t' in
  let sd := sideCount t' in
  let count := if smooth_ then (sc + 1) * (sd + 1) else 4 * sc * sd in
  3 ≤ sc ∧ 2 ≤ sd ∧
  Z.of_nat (length (vertices t')) = 3 * count ∧
  Z.of_nat (length (normals t')) = 3 * count ∧
  Z.of_nat (length (texCoords t')) = 2 * count ∧
  Z.of_nat (length (interleavedVertices t')) = 8 * count ∧
  Z.of_nat (length (indices t')) = 3 * (2 * sc * sd) ∧
  Z.of_nat (length (lineIndices t')) = 4 * sc * sd.
Proof.
  intros t' sc sd count.
  destruct (rebuilt_inv majorR minorR sectors sides smooth_ up t)
    as (Hsc & Hsd & _ & [(Hv & Hn & Ht & _) Hiv] & Hi & Hl).
  fold t' in Hsc, Hsd, Hv, Hn, Ht, Hiv, Hi, Hl. fold sc in Hsc, Hi, Hl.
  fold sd in Hsd, Hi, Hl.
  unfold MIN_SECTOR_COUNT in Hsc. unfold MIN_SIDE_COUNT in Hsd.
  assert (Z.of_nat (vertexCount t') = count) as Hc.
  { pose proof (rebuilt_scalars majorR minorR sectors sides smooth_ up t)
      as (_ & _ & _ & _ & Hs & _). cbv zeta in Hs. fold t' in Hs. simpl in Hs.
    unfold vertexCount, smoothCount, flatCount. rewrite Hs.
    fold sc sd. subst count. destruct smooth_; nia. }
  rewrite Hiv, (interleave_length (vertexCount t')), Hv, Hn, Ht by done.
  repeat split; lia.
Qed.

(** X6.  After [set], in both modes, grid cell number q owns six triangle
    indices (a, b, c, c, b, d), two triangles that share the edge (c, b), and
    four line indices (a, b, a, c): the wireframe draws the two edges of the
    cell's first triangle that start at its first corner. *)
Theorem X6_cell_triangles_and_edges majorR minorR sectors sides smooth_ up t :
  ∃ t', set majorR minorR sectors sides smooth_ up t = Some t' ∧
    ∀ q : nat,
      (q < Z.to_nat (sideCount t') * Z.to_nat (sectorCount t'))%nat →
      ∃ a b c d,
        indices t' !! (6 * q)%nat = Some a ∧
        indices t' !! (6 * q + 1)%nat = Some b ∧
        indices t' !! (6 * q + 2)%nat = Some c ∧
        indices t' !! (6 * q + 3)%nat = Some c ∧
        indices t' !! (6 * q + 4)%nat = Some b ∧
        indices t' !! (6 * q + 5)%nat = Some d ∧
        lineIndices t' !! (4 * q)%nat = Some a ∧
        lineIndices t' !! (4 * q + 1)%nat = Some b ∧
        lineIndices t' !! (4 * q + 2)%nat = Some a ∧
        lineIndices t' !! (4 * q + 3)%nat = Some c.
Proof.
  eexists. split; [apply set_run|].
  unfold rebuilt. cbv zeta.
  set (p := setParams majorR minorR sectors sides smooth_ up t).
  clearbody p.
  set (a := if smooth_ then smoothArrays p else flatArrays p).
  destruct (finishMesh_scalars a) as (_ & _ & -> & -> & _ & _ & _ & _ & -> & ->).
  assert (sectorCount a = sectorCount p ∧ sideCount a = sideCount p) as [-> ->]
    by (subst a; by destruct smooth_).
  intros q Hq.
  destruct (cell_of_number _ _ q Hq) as (i & j & -> & Hi & Hj).
  assert (∀ (g : Z → Z → list Z) (m c : nat),
            (∀ i j, length (g i j) = m) → (c < m)%nat →
            grid (sideCount p) (sectorCount p) g
              !! (m * (i * Z.to_nat (sectorCount p) + j) + c)%nat
            = g (Z.of_nat i) (Z.of_nat j) !! c) as Hg.
  { intros g m c Hlen Hc.
    replace (m * (i * Z.to_nat (sectorCount p) + j) + c)%nat
      with ((i * Z.to_nat (sectorCount p) + j) * m + c)%nat by lia.
    by apply lookup_grid. }
  rewrite <- (Nat.add_0_r (6 * (i * Z.to_nat (sectorCount p) + j))).
  rewrite <- (Nat.add_0_r (4 * (i * Z.to_nat (sectorCount p) + j))).
  rewrite <- !Nat.add_assoc. simpl Nat.add.
  subst a. destruct smooth_.
  - change (indices (smoothArrays p))
      with (grid (sideCount p) (sectorCount p) (smoothTriangles p)).
    change (lineIndices (smoothArrays p))
      with (grid (sideCount p) (sectorCount p) (smoothLines p)).
    rewrite !(Hg (smoothTriangles p) 6%nat), !(Hg (smoothLines p) 4%nat)
      by (done || lia).
    unfold smoothTriangles, smoothLines. cbv zeta. simpl. eauto 15.
  - change (indices (flatArrays p))
      with (grid (sideCount p) (sectorCount p) (flatTriangles p)).
    change (lineIndices (flatArrays p))
      with (grid (sideCount p) (sectorCount p) (flatLines p)).
    rewrite !(Hg (flatTriangles p) 6%nat), !(Hg (flatLines p) 4%nat)
      by (done || lia).
    unfold flatTriangles, flatLines. cbv zeta. simpl. eauto 15.
Qed.
End Topology.

Section Accessors.
Context {F : Type} `{FloatOps F}.
Implicit Types (t : Torus F).

Lemma u32_small (x : Z) : 0 ≤ x < 2 ^ 32 → u32 x = x.
Proof. intros Hx. unfold u32. by apply Z.mod_small. Qed.

Lemma reachable_lengths t :
  reachable t →
  ∃ n : Z, 0 ≤ n ∧
    Z.of_nat (length (vertices t)) = 3 * n ∧
    Z.of_nat (length (normals t)) = 3 * n ∧
    Z.of_nat (length (texCoords t)) = 2 * n ∧
    Z.of_nat (length (interleavedVertices t)) = 8 * n ∧
    Z.of_nat (length (indices t)) = 3 * (2 * sectorCount t * sideCount t) ∧
    6 * sectorCount t * sideCount t ≤ 8 * n.
Proof.
  intros Hr.
  destruct (reachable_inv t Hr)
    as [(Hsc & Hsd & _ & [(Hv & Hn & Ht & _) Hiv] & Hi & _) _].
  unfold MIN_SECTOR_COUNT in Hsc. unfold MIN_SIDE_COUNT in Hsd.
  exists (Z.of_nat (vertexCount t)).
  rewrite Hiv, (interleave_length (vertexCount t)), Hv, Hn, Ht by done.
  repeat split; try lia.
  unfold vertexCount, smoothCount, flatCount. destruct (smooth t); nia.
Qed.

(** X7.  On an object built by the constructor and the mutators, as long as
    the interleaved array takes fewer than 2^32 bytes, the accessors agree:
    the vertex, normal, texture coordinate and interleaved vertex counts are
    one number, the arrays hold 3, 3, 2 and 8 floats per vertex, the
    interleaved size is count times stride and is the sum of the three
    attribute sizes, and the index count is three times the triangle
    count. *)
Theorem X7_accessors_agree t :
  reachable t →
  sizeof_float * Z.of_nat (length (interleavedVertices t)) < 2 ^ 32 →
  getNormalCount t = getVertexCount t ∧
  getTexCoordCount t = getVertexCount t ∧
  getInterleavedVertexCount t = getVertexCount t ∧
  Z.of_nat (length (vertices t)) = 3 * getVertexCount t ∧
  Z.of_nat (length (normals t)) = 3 * getVertexCount t ∧
  Z.of_nat (length (texCoords t)) = 2 * getVertexCount t ∧
  Z.of_nat (length (interleavedVertices t)) = 8 * getVertexCount t ∧
  getInterleavedVertexSize t
  = getInterleavedVertexCount t * getInterleavedStride t ∧
  getVertexSize t + getNormalSize t + getTexCoordSize t
  = getInterleavedVertexSize t ∧
  getIndexCount t = 3 * getTriangleCount t.
Proof.
  intros Hr Hsmall.
  destruct (reachable_lengths t Hr) as (n & Hn0 & Hv & Hn & Ht & Hiv & Hi & Hle).
  destruct (reachable_inv t Hr) as [_ Hstride].
  unfold getInterleavedVertexCount, getInterleavedVertexSize, getVertexSize,
    getNormalSize, getTexCoordSize, getTriangleCount, getIndexCount,
    getNormalCount, getTexCoordCount, getVertexCount, getInterleavedStride,
    sizeof_float in *.
  rewrite Hstride, Hv, Hn, Ht, Hiv, Hi in *.
  rewrite !(u32_small (3 * n)), !(u32_small (2 * n)), !(u32_small (8 * n)),
    (u32_small (3 * _)) by lia.
  rewrite !u32_small by lia.
  rewrite !(Z.mul_comm 3), !(Z.mul_comm 2 n), !Z.div_mul by lia.
  repeat split; lia.
Qed.

(** X8.  [getVertexCount] truncates the array size to 32 bits before it
    divides: on an object built by the constructor and the mutators it is
    the number of vertices exactly when the vertex array holds fewer than
    2^32 floats, and the constructor does build a mesh beyond that bound,
    on which [getVertexCount] and [getTexCoordCount] differ. *)
Theorem X8_counts_wrap_at_32_bits :
  (∀ t : Torus F, reachable t →
     (3 * getVertexCount t = Z.of_nat (length (vertices t))
      ↔ Z.of_nat (length (vertices t)) < 2 ^ 32)) ∧
  (∀ (mem : Torus F) (majorR minorR : F) (up : Z),
     ∃ t, Torus_new mem majorR minorR 65535 32767 true up = Some t ∧
       reachable t ∧
       Z.of_nat (length (vertices t)) = 3 * 2 ^ 31 ∧
       getVertexCount t = 715827882 ∧ getTexCoordCount t = 0).
Proof.
  split.
  - intros t Hr.
    destruct (reachable_lengths t Hr) as (n & Hn0 & Hv & _).
    unfold getVertexCount. rewrite Hv. unfold u32. split.
    + intros Heq.
      destruct (decide (3 * n < 2 ^ 32)) as [|Hbig]; [done|].
      pose proof (Z.mod_pos_bound (3 * n) (2 ^ 32) ltac:(lia)).
      pose proof (Z.mul_div_le ((3 * n) mod 2 ^ 32) 3 ltac:(lia)). lia.
    + intros Hlt. rewrite Z.mod_small by lia.
      rewrite (Z.mul_comm 3 n), Z.div_mul by lia. lia.
  - intros mem majorR minorR up.
    set (t0 := mkTorus (majorRadius mem) (minorRadius mem) (sectorCount mem)
                 (sideCount mem) (smooth mem) (upAxis mem) [] [] [] [] [] [] 32).
    pose proof (rebuilt_lengths majorR minorR 65535 32767 true up t0) as HL.
    pose proof (rebuilt_scalars majorR minorR 65535 32767 true up t0) as HS.
    cbv zeta in HL, HS.
    assert (Torus_new mem majorR minorR 65535 32767 true up
            = Some (rebuilt majorR minorR 65535 32767 true up t0)) as Hnew
      by apply set_run.
    revert HL HS Hnew.
    generalize (rebuilt majorR minorR 65535 32767 true up t0).
    intros t' (_ & _ & Hv & _ & Htc & _) (_ & _ & Hsc & Hsd & _) Hnew.
    assert (sectorCount t' = 65535) as Hsc'.
    { rewrite Hsc. unfold setParams, MIN_SECTOR_COUNT. simpl. repeat case_decide; lia. }
    assert (sideCount t' = 32767) as Hsd'.
    { rewrite Hsd. unfold setParams, MIN_SIDE_COUNT. simpl. repeat case_decide; lia. }
    rewrite Hsc', Hsd' in Hv, Htc.
    exists t'. split; [done|]. split; [by eapply reach_new|].
    unfold getVertexCount, getTexCoordCount. rewrite Hv, Htc.
    repeat split.
Qed.
End Accessors.

(** ** The up axis at construction *)

Section UpAxis.
Context {F : Type} `{FloatOps F}.
Implicit Types (t : Torus F).

Lemma rebuilt_upAxis majorR minorR sectors sides smooth_ up t :
  upAxis (rebuilt majorR minorR sectors sides smooth_ up t)
  = if decide (up < 1 ∨ up > 3) then 3 else up.
Proof.
  by destruct (rebuilt_scalars majorR minorR sectors sides smooth_ up t)
    as (_ & _ & _ & _ & _ & -> & _).
Qed.

Lemma rebuilt_turned majorR minorR sectors sides smooth_ up t :
  1 ≤ up ≤ 3 → up ≠ 3 →
  rebuilt majorR minorR sectors sides smooth_ up t
  = with_upAxis up
      (axisChanged 3 up (rebuilt majorR minorR sectors sides smooth_ 3 t)).
Proof.
  intros Hup Hne. unfold rebuilt. cbv zeta.
  assert (setParams majorR minorR sectors sides smooth_ up t
          = with_upAxis up (setParams majorR minorR sectors sides smooth_ 3 t))
    as ->.
  { unfold setParams, with_upAxis. simpl.
    by rewrite (decide_False (P := up < 1 ∨ up > 3)) by lia. }
  assert (upAxis (setParams majorR minorR sectors sides smooth_ 3 t) = 3) as Hp
    by (simpl; repeat case_decide; lia).
  revert Hp. generalize (setParams majorR minorR sectors sides smooth_ 3 t).
  intros [pR pr psc psd psm pup pv pn pt pi pl piv ps]. simpl. intros ->.
  unfold finishMesh, axisChanged. cbv zeta.
  destruct smooth_; simpl;
    rewrite (decide_True (P := up ≠ 3)) by done;
    rewrite ?(decide_False (P := 3 ≠ 3)) by (by intros []);
    reflexivity.
Qed.

(** X9.  Building with an up axis is building with Z up and then calling
    [setUpAxis]: for every value of [up], also one out of range, [set] with
    [up] gives the object that [set] with 3 followed by [setUpAxis up]
    gives. *)
Theorem X9_build_with_axis_is_setUpAxis majorR minorR sectors sides smooth_ up t :
  set majorR minorR sectors sides smooth_ up t
  = set majorR minorR sectors sides smooth_ 3 t ≫= setUpAxis up.
Proof.
  rewrite !set_run, bind_some.
  rewrite setUpAxis_run by apply rebuilt_inv.
  f_equal. rewrite rebuilt_upAxis.
  rewrite (decide_False (P := 3 < 1 ∨ 3 > 3)) by lia.
  case_decide as Hc.
  - unfold rebuilt, setParams. cbv zeta.
    destruct (decide (up < 1 ∨ up > 3)) as [Hbad|Hok].
    + by rewrite (decide_False (P := 3 < 1 ∨ 3 > 3)) by lia.
    + by replace up with 3 by lia.
  - apply rebuilt_turned; lia.
Qed.
End UpAxis.

(** ** The arrays of a build *)

Section BuiltArrays.
Context {F : Type} `{FloatOps F}.

(** The position array of a build, from the array of the build with the Z
    axis up. *)
Lemma rebuilt_vertices majorR minorR sectors sides smooth_ up t :
  let p := setParams majorR minorR sectors sides smooth_ 3 t in
  let a := if smooth_ then smoothArrays p else flatArrays p in
  let t' := rebuilt majorR minorR sectors sides smooth_ up t in
  (vertices t' = if decide (upAxis t' ≠ 3)
                 then map3 (axisMap 3 (upAxis t')) (vertices a)
                 else vertices a) ∧
  (normals t' = if decide (upAxis t' ≠ 3)
                then map3 (axisMap 3 (upAxis t')) (normals a)
                else normals a) ∧
  texCoords t' = texCoords a ∧
  majorRadius t' = majorRadius p ∧ minorRadius t' = minorRadius p ∧
  sectorCount t' = sectorCount p ∧ sideCount t' = sideCount p ∧
  MIN_SECTOR_COUNT ≤ sectorCount p ∧ MIN_SIDE_COUNT ≤ sideCount p ∧
  1 ≤ upAxis t' ≤ 3.
Proof.
  intros p a t'.
  assert (MIN_SECTOR_COUNT ≤ sectorCount p ∧ MIN_SIDE_COUNT ≤ sideCount p)
    as [Hsc Hsd].
  { subst p. unfold setParams, MIN_SECTOR_COUNT, MIN_SIDE_COUNT. simpl.
    split; case_decide; lia. }
  assert (1 ≤ upAxis t' ≤ 3) as Hup.
  { subst t'. rewrite rebuilt_upAxis. case_decide; lia. }
  assert (∀ u, rebuilt majorR minorR sectors sides smooth_ u t
               = rebuilt majorR minorR sectors sides smooth_ 3 t →
               vertices (rebuilt majorR minorR sectors sides smooth_ u t)
               = vertices a ∧
               normals (rebuilt majorR minorR sectors sides smooth_ u t)
               = normals a ∧
               texCoords (rebuilt majorR minorR sectors sides smooth_ u t)
               = texCoords a) as H3.
  { intros u ->. unfold rebuilt. cbv zeta. fold p. fold a.
    unfold finishMesh. cbv zeta.
    assert (upAxis a = 3) as Ha.
    { subst a p. destruct smooth_; simpl; repeat case_decide; lia. }
    rewrite decide_False by (simpl; lia). done. }
  assert (majorRadius t' = majorRadius p ∧ minorRadius t' = minorRadius p ∧
          sectorCount t' = sectorCount p ∧ sideCount t' = sideCount p)
    as (HR & Hr & Hc & Hd).
  { subst t'.
    by destruct (rebuilt_scalars majorR minorR sectors sides smooth_ up t)
      as (-> & -> & -> & -> & _). }
  destruct (decide (upAxis t' ≠ 3)) as [Hne|He].
  - assert (upAxis t' = up) as Eup.
    { subst t'. rewrite rebuilt_upAxis in *. case_decide; [done|lia]. }
    rewrite Eup in *. subst t'.
    rewrite rebuilt_turned by lia.
    destruct (H3 3 eq_refl) as (Ev & En & Et).
    cbn [vertices normals texCoords with_upAxis axisChanged with_interleaved
         with_normals with_vertices majorRadius minorRadius sectorCount
         sideCount].
    rewrite rebuilt_turned in HR, Hr, Hc, Hd by lia.
    by rewrite Ev, En, Et.
  - assert (rebuilt majorR minorR sectors sides smooth_ up t
            = rebuilt majorR minorR sectors sides smooth_ 3 t) as E.
    { subst t'. rewrite rebuilt_upAxis in He.
      unfold rebuilt, setParams. cbv zeta.
      destruct (decide (up < 1 ∨ up > 3)).
      - by rewrite (decide_False (P := 3 < 1 ∨ 3 > 3)) by lia.
      - by replace up with 3 by lia. }
    destruct (H3 up E) as (Ev & En & Et). subst t'. done.
Qed.
End BuiltArrays.

(** ** binary32: the literals *)

Section Binary32Literals.
Example b32_EPSILON_is_quotient :
  SFdiv 24 128 (b32_of_int 1) (b32_of_int 1000000) = b32_EPSILON.
Proof. vm_compute. reflexivity. Qed.

Example b32_one_is_1 : b32_of_int 1 = b32_one ∧ b32_of_int 0 = b32_zero.
Proof. vm_compute. done. Qed.

Example b32_tests :
  b32_of_int (-1) = S754_finite true 8388608 (-23) ∧
  SFadd 24 128 b32_one b32_one = b32_of_int 2 ∧
  SFmul 24 128 b32_zero b32_inf = S754_nan ∧
  SFdiv 24 128 b32_one (S754_finite false 1 (-149)) = b32_inf ∧
  SFadd 24 128 (S754_finite false 8388608 104) (S754_finite false 8388608 104)
  = b32_inf ∧
  SFsqrt 24 128 (b32_of_int 4) = b32_of_int 2.
Proof. vm_compute. repeat split. Qed.
End Binary32Literals.

(** ** The axis change on the values of a mesh *)

Section AxisRows.
Context {F : Type} `{FloatOps F}.
Context (P Zr : F → Prop) (HA : axis_arith P Zr).
Implicit Types (x y z a b c : F).

Local Abbreviation V := (axis_value P Zr).

Lemma same_value_V x a : V x → same_value Zr x a → V a.
Proof. intros Hx [-> | [_ Ha]]; [done|by right]. Qed.

Lemma negated_value_V x a : negated_value P Zr x a → V a.
Proof.
  intros [[Hx ->] | [_ Ha]]; [left; by apply (aa_neg _ _ HA)|by right].
Qed.

Lemma same_same x a a' :
  same_value Zr x a → same_value Zr a a' → same_value Zr x a'.
Proof.
  intros [-> | [Hx Ha]] [-> | [Ha' Ha'']]; try by left.
  - by right.
  - by right.
  - by right.
Qed.

Lemma negated_negated x a a' :
  negated_value P Zr x a → negated_value P Zr a a' → same_value Zr x a'.
Proof.
  intros [[Hx ->] | [Hx Ha]] [[Ha' ->] | [Ha' Ha'']].
  - left. by apply (aa_neg_neg _ _ HA).
  - destruct (aa_disjoint _ _ HA _ (aa_neg _ _ HA x Hx) Ha').
  - right. split; [done|]. by apply (aa_neg_zero _ _ HA).
  - by right.
Qed.

Lemma same_negated x a a' :
  same_value Zr x a → negated_value P Zr a a' → negated_value P Zr x a'.
Proof.
  intros [-> | [Hx Ha]] Hn; [done|].
  right. split; [done|].
  destruct Hn as [[Ha' ->] | [_ Ha'']]; [|done].
  by apply (aa_neg_zero _ _ HA).
Qed.

Lemma negated_same x a a' :
  negated_value P Zr x a → same_value Zr a a' → negated_value P Zr x a'.
Proof.
  intros Hn [-> | [Ha Ha']]; [done|].
  destruct Hn as [[Hx ->] | [Hx _]].
  - destruct (aa_disjoint _ _ HA _ (aa_neg _ _ HA x Hx) Ha).
  - by right.
Qed.

(** The three products of a row, then the two additions. *)
Lemma times_zero x : V x → Zr (fmul (f_of_int 0) x).
Proof. apply (aa_zero _ _ HA). Qed.

Lemma times_one x : V x → same_value Zr x (fmul (f_of_int 1) x).
Proof.
  intros [Hx | Hx]; [left; by apply (aa_one _ _ HA)|].
  right. split; [done|]. by apply (aa_one_zero _ _ HA).
Qed.

Lemma times_minus_one x :
  V x → negated_value P Zr x (fmul (f_of_int (-1)) x).
Proof.
  intros [Hx | Hx]; [by left|].
  right. split; [done|]. by apply (aa_neg_zero _ _ HA).
Qed.

Lemma sum_first x p q r :
  V p → Zr q → Zr r →
  (same_value Zr x p → same_value Zr x (fadd (fadd p q) r)) ∧
  (negated_value P Zr x p → negated_value P Zr x (fadd (fadd p q) r)).
Proof.
  intros [Hp | Hp] Hq Hr.
  - rewrite (aa_add_r _ _ HA p q), (aa_add_r _ _ HA p r) by done. done.
  - assert (Zr (fadd (fadd p q) r)) as Hs
      by (by repeat apply (aa_add_zeros _ _ HA)).
    split; intros Hx.
    + apply (same_same x p); [done|by right].
    + apply (negated_same x p); [done|by right].
Qed.

Lemma sum_second x p q r :
  Zr p → V q → Zr r →
  (same_value Zr x q → same_value Zr x (fadd (fadd p q) r)) ∧
  (negated_value P Zr x q → negated_value P Zr x (fadd (fadd p q) r)).
Proof.
  intros Hp [Hq | Hq] Hr.
  - rewrite (aa_add_l _ _ HA p q), (aa_add_r _ _ HA q r) by done. done.
  - assert (Zr (fadd (fadd p q) r)) as Hs
      by (by repeat apply (aa_add_zeros _ _ HA)).
    split; intros Hx.
    + apply (same_same x q); [done|by right].
    + apply (negated_same x q); [done|by right].
Qed.

Lemma sum_third x p q r :
  Zr p → Zr q → V r →
  (same_value Zr x r → same_value Zr x (fadd (fadd p q) r)) ∧
  (negated_value P Zr x r → negated_value P Zr x (fadd (fadd p q) r)).
Proof.
  intros Hp Hq [Hr | Hr].
  - rewrite (aa_add_l _ _ HA (fadd p q) r)
      by (done || by apply (aa_add_zeros _ _ HA)). done.
  - assert (Zr (fadd (fadd p q) r)) as Hs
      by (by repeat apply (aa_add_zeros _ _ HA)).
    split; intros Hx.
    + apply (same_same x r); [done|by right].
    + apply (negated_same x r); [done|by right].
Qed.

(** The six rows that occur in the matrices of [changeUpAxis]. *)
Lemma row_x x y z : V x → V y → V z →
  same_value Zr x (axisRow (f_of_int 1) (f_of_int 0) (f_of_int 0) x y z).
Proof.
  intros Hx Hy Hz. unfold axisRow.
  apply sum_first; auto using times_zero, times_one.
  by apply (same_value_V x), times_one.
Qed.

Lemma row_y x y z : V x → V y → V z →
  same_value Zr y (axisRow (f_of_int 0) (f_of_int 1) (f_of_int 0) x y z).
Proof.
  intros Hx Hy Hz. unfold axisRow.
  apply sum_second; auto using times_zero, times_one.
  by apply (same_value_V y), times_one.
Qed.

Lemma row_z x y z : V x → V y → V z →
  same_value Zr z (axisRow (f_of_int 0) (f_of_int 0) (f_of_int 1) x y z).
Proof.
  intros Hx Hy Hz. unfold axisRow.
  apply sum_third; auto using times_zero, times_one.
  by apply (same_value_V z), times_one.
Qed.

Lemma row_minus_x x y z : V x → V y → V z →
  negated_value P Zr x
    (axisRow (f_of_int (-1)) (f_of_int 0) (f_of_int 0) x y z).
Proof.
  intros Hx Hy Hz. unfold axisRow.
  apply sum_first; auto using times_zero, times_minus_one.
  by apply (negated_value_V x), times_minus_one.
Qed.

Lemma row_minus_y x y z : V x → V y → V z →
  negated_value P Zr y
    (axisRow (f_of_int 0) (f_of_int (-1)) (f_of_int 0) x y z).
Proof.
  intros Hx Hy Hz. unfold axisRow.
  apply sum_second; auto using times_zero, times_minus_one.
  by apply (negated_value_V y), times_minus_one.
Qed.

Lemma row_minus_z x y z : V x → V y → V z →
  negated_value P Zr z
    (axisRow (f_of_int 0) (f_of_int 0) (f_of_int (-1)) x y z).
Proof.
  intros Hx Hy Hz. unfold axisRow.
  apply sum_third; auto using times_zero, times_minus_one.
  by apply (negated_value_V z), times_minus_one.
Qed.

(** One application of the matrix of [changeUpAxis from to]. *)
Lemma axisMap_image (from to : Z) x y z :
  V x → V y → V z →
  ∃ a b c, axisMap from to x y z = [a; b; c] ∧
    axis_image P Zr from to x y z a b c ∧ V a ∧ V b ∧ V c.
Proof.
  intros Hx Hy Hz. unfold axisMap, axisColumns, axis_image. cbv zeta.
  repeat case_decide; cbn [put0 put1 put2]; eexists _, _, _;
    (split; [reflexivity|]);
    (split; [auto using row_x, row_y, row_z, row_minus_x, row_minus_y,
               row_minus_z|]);
    repeat split;
    first [ by apply (same_value_V x), row_x
          | by apply (same_value_V y), row_y
          | by apply (same_value_V z), row_z
          | by apply (negated_value_V x), row_minus_x
          | by apply (negated_value_V y), row_minus_y
          | by apply (negated_value_V z), row_minus_z ].
Qed.

Lemma axis_image_permutation (from to : Z) x y z a b c :
  axis_image P Zr from to x y z a b c →
  signed_permutation P Zr x y z a b c.
Proof.
  unfold axis_image, signed_permutation.
  repeat case_decide; intros (Ha & Hb & Hc).
  - exists y, x, z. split; [apply Permutation_swap|]. auto.
  - exists z, y, x. split; [|auto].
    etrans; [apply Permutation_swap|]. etrans; [apply perm_skip, Permutation_swap|].
    apply Permutation_swap.
  - exists y, x, z. split; [apply Permutation_swap|]. auto.
  - exists x, z, y. split; [apply perm_skip, Permutation_swap|]. auto.
  - exists z, y, x. split; [|auto].
    etrans; [apply Permutation_swap|]. etrans; [apply perm_skip, Permutation_swap|].
    apply Permutation_swap.
  - exists x, z, y. split; [apply perm_skip, Permutation_swap|]. auto.
Qed.

(** There and back. *)
Lemma axisMap_round_trip (from to : Z) x y z :
  1 ≤ from ≤ 3 → 1 ≤ to ≤ 3 → from ≠ to →
  V x → V y → V z →
  ∃ a b c x' y' z',
    axisMap from to x y z = [a; b; c] ∧ axisMap to from a b c = [x'; y'; z'] ∧
    signed_permutation P Zr x y z a b c ∧
    same_value Zr x x' ∧ same_value Zr y y' ∧ same_value Zr z z'.
Proof.
  intros Hf Ht Hne Hx Hy Hz.
  destruct (axisMap_image from to x y z Hx Hy Hz)
    as (a & b & c & E1 & I1 & Ha & Hb & Hc).
  destruct (axisMap_image to from a b c Ha Hb Hc)
    as (x' & y' & z' & E2 & I2 & _).
  exists a, b, c, x', y', z'.
  split; [done|]. split; [done|].
  split; [by apply (axis_image_permutation from to)|].
  unfold axis_image in I1, I2.
  assert (from = 1 ∨ from = 2 ∨ from = 3) as [-> | [-> | ->]] by lia;
    assert (to = 1 ∨ to = 2 ∨ to = 3) as [-> | [-> | ->]] by lia;
    try lia; clear Hf Ht Hne;
    repeat (rewrite decide_True in I1 by lia || rewrite decide_False in I1 by lia);
    repeat (rewrite decide_True in I2 by lia || rewrite decide_False in I2 by lia);
    destruct I1 as (I1a & I1b & I1c); destruct I2 as (I2a & I2b & I2c);
    repeat split; eauto using same_same, negated_negated.
Qed.
End AxisRows.

(** ** binary32: multiplication by 1.0f and -1.0f is exact *)

Section Binary32.
Lemma digits2_xO (p : positive) :
  Z.pos (digits2_pos p~0) = Z.pos (digits2_pos p) + 1.
Proof. cbn [digits2_pos]. lia. Qed.

Lemma digits2_shift23 (m : positive) :
  Zdigits2 (Z.pos (8388608 * m)) = Z.pos (digits2_pos m) + 23.
Proof.
  unfold Zdigits2. rewrite Pos.mul_comm, !Pos.mul_xO_r, Pos.mul_1_r.
  rewrite !digits2_xO. lia.
Qed.

Lemma SFmul_unit (s1 s : bool) (m : positive) (e : Z) :
  bounded 24 128 m e = true →
  SFmul 24 128 (S754_finite s1 8388608 (-23)) (S754_finite s m e)
  = S754_finite (xorb s1 s) m e.
Proof.
  unfold bounded, canonical_mantissa. intros [Hc He]%andb_prop.
  apply Z.eqb_eq in Hc. apply Z.leb_le in He.
  unfold SFmul, binary_round_aux, shr_fexp.
  rewrite digits2_shift23.
  replace (Z.pos (digits2_pos m) + 23 + (-23 + e))
    with (Z.pos (digits2_pos m) + e) by lia.
  rewrite Hc. replace (e - (-23 + e)) with 23 by lia.
  rewrite Pos.mul_comm, !Pos.mul_xO_r, Pos.mul_1_r.
  cbn [shr shr_record_of_loc].
  change (SpecFloat.iter_pos shr_1 23 _)
    with {| shr_m := Z.pos m; shr_r := false; shr_s := false |}.
  cbn [loc_of_shr_record shr_m round_nearest_even Zdigits2].
  replace (-23 + e + 23) with e by lia. rewrite Hc.
  rewrite Z.sub_diag. cbn [shr shr_m shr_record_of_loc].
  change (128 - 24) with 104. by rewrite (proj2 (Z.leb_le e 104)) by lia.
Qed.

(** binary32 has the laws of [axis_arith] on its finite numbers, whatever
    the C library computes for the trigonometric functions. *)
Lemma b32_axis_arith (cosf sinf acosf : spec_float → spec_float) :
  @axis_arith spec_float (B32_FloatOps cosf sinf acosf) b32_finite b32_is_zero.
Proof.
  split; cbn [fmul fadd f_of_int B32_FloatOps].
  - intros x (s & m & e & -> & _) [s' [=]].
  - intros x (s & m & e & -> & Hb).
    change (b32_of_int 1) with (S754_finite false 8388608 (-23)).
    by rewrite SFmul_unit.
  - intros x (s & m & e & -> & Hb).
    change (b32_of_int (-1)) with (S754_finite true 8388608 (-23)).
    rewrite SFmul_unit by done. by exists (xorb true s), m, e.
  - intros x (s & m & e & -> & Hb).
    change (b32_of_int (-1)) with (S754_finite true 8388608 (-23)).
    rewrite !SFmul_unit by done. by destruct s.
  - intros x [(s & m & e & -> & _) | [s ->]]; by eexists.
  - intros x [s ->]. by eexists.
  - intros x [s ->]. by eexists.
  - intros x y [s ->] [s' ->]. destruct s, s'; by eexists.
  - by intros z x [s ->] (s' & m & e & -> & _).
  - by intros x z (s' & m & e & -> & _) [s ->].
Qed.
End Binary32.

(** ** The axis change on a mesh *)

Section AxisMesh.
Context {F : Type} `{FloatOps F}.
Context (P Zr : F → Prop) (HA : axis_arith P Zr).
Implicit Types (t : Torus F).

Lemma map3_lookup_triple (f : F → F → F → list F) (l : list F) (k : nat)
    (x y z a b c : F) :
  (∀ x y z, length (f x y z) = 3%nat) →
  l !! (3 * k)%nat = Some x → l !! (3 * k + 1)%nat = Some y →
  l !! (3 * k + 2)%nat = Some z → f x y z = [a; b; c] →
  map3 f l !! (3 * k)%nat = Some a ∧ map3 f l !! (3 * k + 1)%nat = Some b ∧
  map3 f l !! (3 * k + 2)%nat = Some c.
Proof.
  intros Hf Hx Hy Hz Ef.
  pose proof (map3_lookup f k l x y z 0 Hf Hx Hy Hz ltac:(lia)) as E0.
  pose proof (map3_lookup f k l x y z 1 Hf Hx Hy Hz ltac:(lia)) as E1.
  pose proof (map3_lookup f k l x y z 2 Hf Hx Hy Hz ltac:(lia)) as E2.
  rewrite Nat.add_0_r in E0. rewrite Ef in E0, E1, E2. done.
Qed.

Lemma map3_there_and_back (f g : F → F → F → list F) (n : nat) :
  ∀ l : list F,
    length l = (3 * n)%nat → Forall (axis_value P Zr) l →
    (∀ x y z, axis_value P Zr x → axis_value P Zr y → axis_value P Zr z →
       ∃ a b c x' y' z',
         f x y z = [a; b; c] ∧ g a b c = [x'; y'; z'] ∧
         same_value Zr x x' ∧ same_value Zr y y' ∧ same_value Zr z z') →
    Forall2 (same_value Zr) l (map3 g (map3 f l)).
Proof.
  induction n as [|n IH]; intros l Hl HV Hfg.
  - destruct l; [constructor|done].
  - destruct l as [|x [|y [|z l]]]; simpl in Hl; try lia.
    apply list.Forall_cons in HV as [Hx HV].
    apply list.Forall_cons in HV as [Hy HV].
    apply list.Forall_cons in HV as [Hz HV].
    destruct (Hfg x y z Hx Hy Hz)
      as (a & b & c & x' & y' & z' & Ef & Eg & Sx & Sy & Sz).
    cbn [map3]. rewrite Ef. cbn [app map3]. rewrite Eg. cbn [app].
    repeat (constructor; [done|]). apply IH; [lia|done..].
Qed.

Lemma interleave_Forall2 (R : F → F → Prop) (n : nat) :
  ∀ v v' nr nr' tc tc' : list F,
    length v = (3 * n)%nat → length nr = (3 * n)%nat →
    length tc = (2 * n)%nat →
    Forall2 R v v' → Forall2 R nr nr' → Forall2 R tc tc' →
    Forall2 R (interleave v nr tc) (interleave v' nr' tc').
Proof.
  induction n as [|n IH]; intros v v' nr nr' tc tc' Hv Hn Ht Fv Fn Ft.
  - destruct v; [|done]. apply Forall2_nil_inv_l in Fv as ->. constructor.
  - destruct v as [|x [|y [|z v]]]; simpl in Hv; try lia.
    destruct nr as [|a [|b [|c nr]]]; simpl in Hn; try lia.
    destruct tc as [|s [|q tc]]; simpl in Ht; try lia.
    apply Forall2_cons_inv_l in Fv as (x' & v1 & Rx & Fv & ->).
    apply Forall2_cons_inv_l in Fv as (y' & v2 & Ry & Fv & ->).
    apply Forall2_cons_inv_l in Fv as (z' & v3 & Rz & Fv & ->).
    apply Forall2_cons_inv_l in Fn as (a' & n1 & Ra & Fn & ->).
    apply Forall2_cons_inv_l in Fn as (b' & n2 & Rb & Fn & ->).
    apply Forall2_cons_inv_l in Fn as (c' & n3 & Rc & Fn & ->).
    apply Forall2_cons_inv_l in Ft as (s' & t1 & Rs & Ft & ->).
    apply Forall2_cons_inv_l in Ft as (q' & t2 & Rq & Ft & ->).
    cbn [interleave]. repeat (constructor; [done|]).
    apply IH; (done || lia).
Qed.

Lemma axisChanged_triple (from to : Z) (l : list F) (k : nat) x y z :
  Forall (axis_value P Zr) l →
  l !! (3 * k)%nat = Some x → l !! (3 * k + 1)%nat = Some y →
  l !! (3 * k + 2)%nat = Some z →
  ∃ a b c,
    map3 (axisMap from to) l !! (3 * k)%nat = Some a ∧
    map3 (axisMap from to) l !! (3 * k + 1)%nat = Some b ∧
    map3 (axisMap from to) l !! (3 * k + 2)%nat = Some c ∧
    axis_image P Zr from to x y z a b c ∧
    axis_value P Zr a ∧ axis_value P Zr b ∧ axis_value P Zr c.
Proof.
  intros HV Hx Hy Hz.
  destruct (axisMap_image P Zr HA from to x y z)
    as (a & b & c & E & I & Va & Vb & Vc);
    [by eapply Forall_lookup_1..|].
  exists a, b, c.
  destruct (map3_lookup_triple _ _ _ _ _ _ _ _ _ (axisMap_length from to)
              Hx Hy Hz E) as (Ea & Eb & Ec).
  done.
Qed.

Lemma axisChanged_values (from to : Z) (n : nat) : ∀ l : list F,
  length l = (3 * n)%nat → Forall (axis_value P Zr) l →
  Forall (axis_value P Zr) (map3 (axisMap from to) l).
Proof.
  induction n as [|n IH]; intros l Hl HV.
  - destruct l; [constructor|done].
  - destruct l as [|x [|y [|z l]]]; simpl in Hl; try lia.
    apply list.Forall_cons in HV as [Hx HV].
    apply list.Forall_cons in HV as [Hy HV].
    apply list.Forall_cons in HV as [Hz HV].
    destruct (axisMap_image P Zr HA from to x y z Hx Hy Hz)
      as (a & b & c & E & _ & Va & Vb & Vc).
    cbn [map3]. rewrite E. cbn [app].
    repeat (constructor; [done|]). apply IH; [lia|done].
Qed.

End AxisMesh.

(** ** binary32: the axis change on an overflown coordinate *)

Section Binary32Axis.
Lemma b32_sample_shape : mesh_shape 3 b32_sample.
Proof.
  split; [|reflexivity].
  repeat split; simpl; try lia.
  - by exists 1%nat.
  - by exists 2%nat.
  - repeat constructor; lia.
  - repeat constructor; lia.
Qed.

Lemma b32_sample_values :
  Forall (axis_value b32_finite b32_is_zero) (vertices b32_sample) ∧
  Forall (axis_value b32_finite b32_is_zero) (normals b32_sample).
Proof.
  assert (axis_value b32_finite b32_is_zero b32_one) as H1
    by (left; by exists false, 8388608%positive, (-23)).
  assert (axis_value b32_finite b32_is_zero b32_zero) as H0
    by (right; by exists false).
  split; simpl; repeat (apply list.Forall_cons_2; [assumption|]);
    apply list.Forall_nil_2.
Qed.

(** [Torus(2^127, 2^127, 3, 2)] in binary32, for a library with
    [acos(-1.0f)] the float nearest to pi and [cosf(0) = 1]: at grid point
    (1, 0) both angles are 0 and x = 2^127 + 2^127 overflows; the two axis
    changes then leave NaN where the coordinate was. *)
Lemma b32_overflow_reachable
    (cosf sinf acosf : spec_float → spec_float) (mem : Torus spec_float) :
  cosf b32_zero = b32_one → acosf (b32_of_int (-1)) = b32_pi →
  ∃ t t1 t2,
    @Torus_new _ (B32_FloatOps cosf sinf acosf) mem b32_huge b32_huge 3 2
      true 3 = Some t ∧
    @reachable _ (B32_FloatOps cosf sinf acosf) t ∧
    vertices t !! 12%nat = Some b32_inf ∧
    @changeUpAxis _ (B32_FloatOps cosf sinf acosf) 3 1 t = Some t1 ∧
    @changeUpAxis _ (B32_FloatOps cosf sinf acosf) 1 3 t1 = Some t2 ∧
    vertices t1 !! 12%nat = Some S754_nan ∧
    vertices t2 !! 12%nat = Some S754_nan.
Proof.
  intros Hcos Hpi.
  pose (ops := B32_FloatOps cosf sinf acosf).
  change (B32_FloatOps cosf sinf acosf) with ops.
  assert (∃ t, Torus_new mem b32_huge b32_huge 3 2 true 3 = Some t ∧
            ∃ y z, vertices t !! 12%nat = Some b32_inf ∧
                   vertices t !! 13%nat = Some y ∧
                   vertices t !! 14%nat = Some z) as (t & Hnew & y & z & Vx & Vy & Vz).
  { unfold Torus_new. rewrite set_run. eexists. split; [reflexivity|].
    match goal with
    | |- context [rebuilt ?a ?b ?c ?d ?e ?f ?g] =>
        destruct (rebuilt_vertices a b c d e f g)
          as (Ev & _ & _ & _ & _ & _ & _ & _ & _ & _);
        pose proof (rebuilt_upAxis a b c d e f g) as Eup;
        cbv zeta in Ev;
        set (t' := rebuilt a b c d e f g) in *
    end.
    rewrite decide_False in Eup by lia.
    rewrite decide_False in Ev by (rewrite Eup; by intros []).
    match type of Ev with
    | _ = vertices (smoothArrays ?q) => set (p := q) in *
    end.
    assert (minorRadius p = b32_huge) as Er by reflexivity.
    assert (majorRadius p = b32_huge) as ER by reflexivity.
    assert (sectorCount p = 3) as Ec by reflexivity.
    assert (sideCount p = 2) as Ed by reflexivity.
    change (vertices (smoothArrays p))
      with (grid (sideCount p + 1) (sectorCount p + 1) (smoothVertex p)) in Ev.
    clearbody t' p. rewrite Ev, Ec, Ed.
    assert (∀ c : nat, (c < 3)%nat →
              grid (2 + 1) (3 + 1) (smoothVertex p) !! (12 + c)%nat
              = smoothVertex p 1 0 !! c) as HG.
    { intros c Hc.
      exact (lookup_grid (smoothVertex p) (2 + 1) (3 + 1) 3 1 0 c
               (fun _ _ => eq_refl) ltac:(lia) ltac:(lia) Hc). }
    assert (sideAngle p 1 = b32_zero) as Eu.
    { unfold sideAngle, sideStep. rewrite Ed.
      change (f_acos (f_of_int (-1))) with (acosf (b32_of_int (-1))).
      rewrite Hpi. by vm_compute. }
    assert (sectorAngle p 0 = b32_zero) as Ev0.
    { unfold sectorAngle, sectorStep. rewrite Ec.
      change (f_acos (f_of_int (-1))) with (acosf (b32_of_int (-1))).
      rewrite Hpi. by vm_compute. }
    eexists _, _.
    split; [etrans; [exact (HG 0%nat ltac:(lia))|]
           |split; [exact (HG 1%nat ltac:(lia))|exact (HG 2%nat ltac:(lia))]].
    unfold smoothVertex. cbv zeta. rewrite Eu, Ev0, Er, ER.
    change (f_cos b32_zero) with (cosf b32_zero). rewrite Hcos.
    by vm_compute. }
  assert (reachable t) as Hr by exact (reach_new _ _ _ _ _ _ _ _ Hnew).
  pose proof (reachable_mesh_shape t Hr) as Hm.
  pose proof (changeUpAxis_run 3 1 t _ Hm) as R1.
  destruct (reachable_inv t Hr) as [Hinv _].
  assert (mesh_shape (vertexCount t) (axisChanged 3 1 t)) as Hm1
    by (by apply axisChanged_shape).
  pose proof (changeUpAxis_run 1 3 _ _ Hm1) as R2.
  exists t, (axisChanged 3 1 t), (axisChanged 1 3 (axisChanged 3 1 t)).
  split; [exact Hnew|]. split; [exact Hr|]. split; [exact Vx|].
  split; [exact R1|]. split; [exact R2|].
  assert (∀ c, (c < 3)%nat →
            vertices (axisChanged 3 1 t) !! (3 * 4 + c)%nat
            = axisMap 3 1 b32_inf y z !! c) as H1.
  { intros c Hc.
    exact (map3_lookup (axisMap 3 1) 4 (vertices t) b32_inf y z c
             (axisMap_length _ _) Vx Vy Vz Hc). }
  split; [exact (H1 0%nat ltac:(lia))|].
  exact (map3_lookup (axisMap 1 3) 4 (vertices (axisChanged 3 1 t)) _ _ _ 0
           (axisMap_length _ _) (H1 0%nat ltac:(lia)) (H1 1%nat ltac:(lia))
           (H1 2%nat ltac:(lia)) ltac:(lia)).
Qed.

End Binary32Axis.

(** ** Around the three axes *)

Section AxisCycle.
Context {F : Type} `{FloatOps F} (P Zr : F → Prop) (HA : axis_arith P Zr).
Implicit Types (t : Torus F).

(** Z to X, X to Y, Y to Z on one array. *)
Lemma cycle_lookup (n : nat) (l : list F) (k : nat) x y z :
  length l = (3 * n)%nat → Forall (axis_value P Zr) l →
  l !! (3 * k)%nat = Some x → l !! (3 * k + 1)%nat = Some y →
  l !! (3 * k + 2)%nat = Some z →
  ∃ a b c,
    map3 (axisMap 2 3) (map3 (axisMap 1 2) (map3 (axisMap 3 1) l))
      !! (3 * k)%nat = Some a ∧
    map3 (axisMap 2 3) (map3 (axisMap 1 2) (map3 (axisMap 3 1) l))
      !! (3 * k + 1)%nat = Some b ∧
    map3 (axisMap 2 3) (map3 (axisMap 1 2) (map3 (axisMap 3 1) l))
      !! (3 * k + 2)%nat = Some c ∧
    negated_value P Zr y a ∧ same_value Zr x b ∧ same_value Zr z c.
Proof.
  intros Hl HV Hx Hy Hz.
  pose proof (axisChanged_values P Zr HA 3 1 n l Hl HV) as HV1.
  pose proof (map3_length (axisMap 3 1) n l (axisMap_length _ _) Hl) as Hl1.
  pose proof (axisChanged_values P Zr HA 1 2 n _ Hl1 HV1) as HV2.
  destruct (axisChanged_triple P Zr HA 3 1 l k x y z HV Hx Hy Hz)
    as (a1 & b1 & c1 & Ha1 & Hb1 & Hc1 & I1 & _).
  destruct (axisChanged_triple P Zr HA 1 2 _ k a1 b1 c1 HV1 Ha1 Hb1 Hc1)
    as (a2 & b2 & c2 & Ha2 & Hb2 & Hc2 & I2 & _).
  destruct (axisChanged_triple P Zr HA 2 3 _ k a2 b2 c2 HV2 Ha2 Hb2 Hc2)
    as (a3 & b3 & c3 & Ha3 & Hb3 & Hc3 & I3 & _).
  exists a3, b3, c3.
  split; [done|]. split; [done|]. split; [done|].
  unfold axis_image in I1, I2, I3.
  rewrite !decide_False in I1 by lia.
  rewrite decide_True in I2 by lia.
  rewrite !decide_False in I3 by lia.
  destruct I1 as (Sa1 & Sb1 & Nc1).
  destruct I2 as (Na2 & Sb2 & Sc2).
  destruct I3 as (Sa3 & Nb3 & Sc3).
  split; [|split].
  - eapply (negated_same P Zr HA); [|exact Sa3].
    eapply (same_negated P Zr HA); [exact Sb1|exact Na2].
  - eapply (negated_negated P Zr HA); [|exact Nb3].
    eapply (negated_same P Zr HA); [exact Nc1|exact Sc2].
  - eapply same_same; [|exact Sc3]. eapply same_same; [exact Sa1|exact Sb2].
Qed.

(** X16.  [setUpAxis] turns the mesh from its present orientation, whatever
    path led there.  For an arithmetic with the laws [axis_arith] (binary32
    on finite numbers) and an object with the Z axis up whose coordinates
    are numbers of that kind: [setUpAxis(3)] changes nothing, but going to
    X, then to Y, then back to Z leaves an object with Z up whose every
    position and normal (x, y, z) has become (-y, x, z), up to the sign of
    a zero: the mesh is a quarter turn about Z away from where it started.
    Texture coordinates and indices are as before. *)
Theorem X16_axis_cycle_is_quarter_turn t :
  reachable t → upAxis t = 3 →
  Forall (axis_value P Zr) (vertices t) →
  Forall (axis_value P Zr) (normals t) →
  setUpAxis 3 t = Some t ∧
  ∃ t1 t2 t3,
    setUpAxis 1 t = Some t1 ∧ setUpAxis 2 t1 = Some t2 ∧
    setUpAxis 3 t2 = Some t3 ∧
    upAxis t3 = 3 ∧ texCoords t3 = texCoords t ∧ indices t3 = indices t ∧
    lineIndices t3 = lineIndices t ∧
    (∀ (k : nat) x y z,
       vertices t !! (3 * k)%nat = Some x →
       vertices t !! (3 * k + 1)%nat = Some y →
       vertices t !! (3 * k + 2)%nat = Some z →
       ∃ a b c,
         vertices t3 !! (3 * k)%nat = Some a ∧
         vertices t3 !! (3 * k + 1)%nat = Some b ∧
         vertices t3 !! (3 * k + 2)%nat = Some c ∧
         negated_value P Zr y a ∧ same_value Zr x b ∧ same_value Zr z c) ∧
    (∀ (k : nat) x y z,
       normals t !! (3 * k)%nat = Some x →
       normals t !! (3 * k + 1)%nat = Some y →
       normals t !! (3 * k + 2)%nat = Some z →
       ∃ a b c,
         normals t3 !! (3 * k)%nat = Some a ∧
         normals t3 !! (3 * k + 1)%nat = Some b ∧
         normals t3 !! (3 * k + 2)%nat = Some c ∧
         negated_value P Zr y a ∧ same_value Zr x b ∧ same_value Zr z c).
Proof.
  intros Hr Hup HVv HVn. destruct (reachable_inv t Hr) as [Hinv _].
  split.
  { rewrite setUpAxis_run by done. by rewrite decide_True by (left; done). }
  pose proof (setUpAxis_run 1 t Hinv) as R1.
  rewrite decide_False in R1 by lia.
  pose proof (setUpAxis_inv 1 t _ Hinv R1) as Hinv1.
  pose proof (setUpAxis_run 2 _ Hinv1) as R2.
  rewrite decide_False in R2 by (simpl; lia).
  pose proof (setUpAxis_inv 2 _ _ Hinv1 R2) as Hinv2.
  pose proof (setUpAxis_run 3 _ Hinv2) as R3.
  rewrite decide_False in R3 by (simpl; lia).
  eexists _, _, _. split; [exact R1|]. split; [exact R2|]. split; [exact R3|].
  destruct Hinv as (_ & _ & _ & ((Hlv & Hln & _) & _) & _).
  rewrite Hup. cbn.
  split; [done|]. split; [done|]. split; [done|]. split; [done|].
  split; intros k x y z Hx Hy Hz.
  - by apply (cycle_lookup (vertexCount t)).
  - by apply (cycle_lookup (vertexCount t)).
Qed.
End AxisCycle.

(** ** Face normals of the flat mesh *)

Section FlatNormals.
Context {F : Type} `{FloatOps F}.
Implicit Types (t : Torus F).

Lemma turned_lookup (f : F → F → F → list F) (P : Prop) `{!Decision P}
    (l : list F) (k : nat) (x y z : F) :
  (∀ x y z, length (f x y z) = 3%nat) →
  l !! (3 * k)%nat = Some x → l !! (3 * k + 1)%nat = Some y →
  l !! (3 * k + 2)%nat = Some z →
  ∀ c, (c < 3)%nat →
    (if decide P then map3 f l else l) !! (3 * k + c)%nat
    = (if decide P then f x y z else [x; y; z]) !! c.
Proof.
  intros Hf Hx Hy Hz c Hc. destruct (decide P).
  - by apply map3_lookup.
  - destruct c as [|[|[|c]]]; [by rewrite Nat.add_0_r|done|done|lia].
Qed.

(** The flat build: one normal per quad, and with Z up the face normal of
    the stored corners. *)
Lemma flat_normals_built majorR minorR sectors sides up t :
  let t' := rebuilt majorR minorR sectors sides false up t in
  let quads := (Z.to_nat (sideCount t') * Z.to_nat (sectorCount t'))%nat in
  (∀ q k c : nat, (q < quads)%nat → (k < 4)%nat → (c < 3)%nat →
     normals t' !! (12 * q + 3 * k + c)%nat
     = normals t' !! (12 * q + c)%nat) ∧
  (upAxis t' = 3 →
   ∀ q : nat, (q < quads)%nat →
     ∃ x1 y1 z1 x2 y2 z2 x3 y3 z3 nrm,
       vertices t' !! (12 * q)%nat = Some x1 ∧
       vertices t' !! (12 * q + 1)%nat = Some y1 ∧
       vertices t' !! (12 * q + 2)%nat = Some z1 ∧
       vertices t' !! (12 * q + 3)%nat = Some x2 ∧
       vertices t' !! (12 * q + 4)%nat = Some y2 ∧
       vertices t' !! (12 * q + 5)%nat = Some z2 ∧
       vertices t' !! (12 * q + 6)%nat = Some x3 ∧
       vertices t' !! (12 * q + 7)%nat = Some y3 ∧
       vertices t' !! (12 * q + 8)%nat = Some z3 ∧
       computeFaceNormal x1 y1 z1 x2 y2 z2 x3 y3 z3 = Some nrm ∧
       ∀ c : nat, (c < 3)%nat →
         normals t' !! (12 * q + c)%nat = nrm !! c).
Proof.
  cbv zeta.
  unfold rebuilt. cbv zeta.
  set (p := setParams majorR minorR sectors sides false up t).
  assert (0 ≤ sideCount p ∧ 0 ≤ sectorCount p) as [Hsd Hsc].
  { subst p; simpl; unfold MIN_SECTOR_COUNT, MIN_SIDE_COUNT.
    split; case_decide; lia. }
  clearbody p.
  destruct (finishMesh_scalars (flatArrays p))
    as (_ & _ & -> & -> & _ & -> & _).
  change (sideCount (flatArrays p)) with (sideCount p).
  change (sectorCount (flatArrays p)) with (sectorCount p).
  change (upAxis (flatArrays p)) with (upAxis p).
  assert (∀ i j, length (flatQuadNormals p i j) = 12%nat) as Hlen.
  { intros. unfold flatQuadNormals. cbv zeta.
    rewrite !length_app, !quadNormal_length. done. }
  split.
  + intros q k c Hq Hk Hc. unfold finishMesh. cbv zeta.
    case_decide; simpl.
    * apply (map3_groups _ (Z.to_nat (sideCount p) * Z.to_nat (sectorCount p)));
        [apply axisMap_length| |intros; by apply flat_normals_groups|done..].
      rewrite (length_grid _ _ _ 12) by done. lia.
    * by apply flat_normals_groups.
  + intros Hup q Hq. unfold finishMesh. cbv zeta.
    rewrite decide_False by (simpl; lia).
    cbn [vertices normals with_interleaved].
    change (vertices (flatArrays p))
      with (grid (sideCount p) (sectorCount p) (flatQuadVertices p)).
    change (normals (flatArrays p))
      with (grid (sideCount p) (sectorCount p) (flatQuadNormals p)).
    destruct (cell_of_number _ _ q Hq) as (i' & j' & -> & Hi & Hj).
    set (i := Z.of_nat i') in *. set (j := Z.of_nat j') in *.
    exists (v_x (flatVertex p i j)), (v_y (flatVertex p i j)),
      (v_z (flatVertex p i j)), (v_x (flatVertex p (i + 1) j)),
      (v_y (flatVertex p (i + 1) j)), (v_z (flatVertex p (i + 1) j)),
      (v_x (flatVertex p i (j + 1))), (v_y (flatVertex p i (j + 1))),
      (v_z (flatVertex p i (j + 1))), (quadNormal p i j).
    assert (∀ c : nat, (c < 12)%nat →
              grid (sideCount p) (sectorCount p) (flatQuadVertices p)
                !! (12 * (i' * Z.to_nat (sectorCount p) + j') + c)%nat
              = flatQuadVertices p i j !! c) as Hv.
    { intros c Hc.
      replace (12 * (i' * Z.to_nat (sectorCount p) + j') + c)%nat
        with ((i' * Z.to_nat (sectorCount p) + j') * 12 + c)%nat by lia.
      by rewrite (lookup_grid _ _ _ 12) by (done || lia). }
    rewrite <- (Nat.add_0_r (12 * (i' * Z.to_nat (sectorCount p) + j'))) at 1.
    rewrite !Hv by lia.
    repeat (split; [reflexivity|]).
    split; [apply computeFaceNormal_eq|].
    intros c Hc.
    replace (12 * (i' * Z.to_nat (sectorCount p) + j') + c)%nat
      with ((i' * Z.to_nat (sectorCount p) + j') * 12 + c)%nat by lia.
    rewrite (lookup_grid _ _ _ 12) by (done || lia).
    unfold flatQuadNormals. cbv zeta.
    rewrite lookup_app_l by (rewrite quadNormal_length; lia). done.
Qed.

(** The flat build with any up axis, from the build with Z up. *)
Lemma flat_turned majorR minorR sectors sides up t :
  let t' := rebuilt majorR minorR sectors sides false up t in
  let t3 := rebuilt majorR minorR sectors sides false 3 t in
  ∀ q : nat,
    (q < Z.to_nat (sideCount t') * Z.to_nat (sectorCount t'))%nat →
    ∃ x1 y1 z1 x2 y2 z2 x3 y3 z3 nx ny nz,
      vertices t3 !! (12 * q)%nat = Some x1 ∧
      vertices t3 !! (12 * q + 1)%nat = Some y1 ∧
      vertices t3 !! (12 * q + 2)%nat = Some z1 ∧
      vertices t3 !! (12 * q + 3)%nat = Some x2 ∧
      vertices t3 !! (12 * q + 4)%nat = Some y2 ∧
      vertices t3 !! (12 * q + 5)%nat = Some z2 ∧
      vertices t3 !! (12 * q + 6)%nat = Some x3 ∧
      vertices t3 !! (12 * q + 7)%nat = Some y3 ∧
      vertices t3 !! (12 * q + 8)%nat = Some z3 ∧
      computeFaceNormal x1 y1 z1 x2 y2 z2 x3 y3 z3 = Some [nx; ny; nz] ∧
      let turn := fun x y z : F =>
        if decide (upAxis t' = 3) then [x; y; z]
        else axisMap 3 (upAxis t') x y z in
      (∀ c : nat, (c < 3)%nat →
         vertices t' !! (12 * q + c)%nat = turn x1 y1 z1 !! c ∧
         vertices t' !! (12 * q + 3 + c)%nat = turn x2 y2 z2 !! c ∧
         vertices t' !! (12 * q + 6 + c)%nat = turn x3 y3 z3 !! c) ∧
      (∀ k c : nat, (k < 4)%nat → (c < 3)%nat →
         normals t' !! (12 * q + 3 * k + c)%nat = turn nx ny nz !! c).
Proof.
  intros t' t3.
  destruct (rebuilt_vertices majorR minorR sectors sides false up t)
    as (Ev & En & _ & _ & _ & Esc & Esd & Hsc & Hsd & Hup).
  destruct (rebuilt_vertices majorR minorR sectors sides false 3 t)
    as (Ev3 & En3 & _).
  cbv zeta in Ev, En, Esc, Esd, Ev3, En3. fold t' in Ev, En, Esc, Esd, Hup.
  fold t3 in Ev3, En3.
  assert (upAxis t3 = 3) as Eup3.
  { subst t3. rewrite rebuilt_upAxis. by rewrite decide_False by lia. }
  rewrite decide_False in Ev3, En3 by (rewrite Eup3; by intros []).
  set (p := setParams majorR minorR sectors sides false 3 t) in *.
  clearbody t' t3 p. unfold MIN_SECTOR_COUNT in Hsc. unfold MIN_SIDE_COUNT in Hsd.
  rewrite Esc, Esd.
  change (vertices (flatArrays p))
    with (grid (sideCount p) (sectorCount p) (flatQuadVertices p)) in Ev, Ev3.
  change (normals (flatArrays p))
    with (grid (sideCount p) (sectorCount p) (flatQuadNormals p)) in En, En3.
  intros q Hq.
  destruct (cell_of_number _ _ q Hq) as (i & j & -> & Hi & Hj).
  set (cell := (i * Z.to_nat (sectorCount p) + j)%nat).
  set (v1 := flatVertex p (Z.of_nat i) (Z.of_nat j)).
  set (v2 := flatVertex p (Z.of_nat i + 1) (Z.of_nat j)).
  set (v3 := flatVertex p (Z.of_nat i) (Z.of_nat j + 1)).
  set (v4 := flatVertex p (Z.of_nat i + 1) (Z.of_nat j + 1)).
  destruct (faceNormal_shape (v_x v1) (v_y v1) (v_z v1)
              (v_x v2) (v_y v2) (v_z v2) (v_x v3) (v_y v3) (v_z v3))
    as (a & b & c & Efn).
  assert (∀ m, (m < 12)%nat →
            grid (sideCount p) (sectorCount p) (flatQuadVertices p)
              !! (12 * cell + m)%nat
            = [v_x v1; v_y v1; v_z v1; v_x v2; v_y v2; v_z v2;
               v_x v3; v_y v3; v_z v3; v_x v4; v_y v4; v_z v4] !! m) as HV.
  { intros m Hm. replace (12 * cell + m)%nat with (cell * 12 + m)%nat by lia.
    subst cell. by rewrite (lookup_grid _ _ _ 12) by (done || lia). }
  assert (∀ m, (m < 12)%nat →
            grid (sideCount p) (sectorCount p) (flatQuadNormals p)
              !! (12 * cell + m)%nat
            = [a; b; c; a; b; c; a; b; c; a; b; c] !! m) as HN.
  { intros m Hm. replace (12 * cell + m)%nat with (cell * 12 + m)%nat by lia.
    assert (∀ i j, length (flatQuadNormals p i j) = 12%nat) as Hlen.
    { intros. unfold flatQuadNormals. cbv zeta.
      by rewrite !length_app, !quadNormal_length. }
    subst cell. rewrite (lookup_grid _ _ _ 12) by (done || lia).
    unfold flatQuadNormals, quadNormal. cbv zeta. fold v1 v2 v3.
    by rewrite Efn. }
  assert (∀ (l : list F) (x y z : F) (k : nat),
            l !! (12 * cell + (3 * k + 0))%nat = Some x →
            l !! (12 * cell + (3 * k + 1))%nat = Some y →
            l !! (12 * cell + (3 * k + 2))%nat = Some z →
            ∀ c', (c' < 3)%nat →
              (if decide (upAxis t' ≠ 3)
               then map3 (axisMap 3 (upAxis t')) l else l)
                !! (12 * cell + (3 * k + c'))%nat
              = (if decide (upAxis t' = 3) then [x; y; z]
                 else axisMap 3 (upAxis t') x y z) !! c') as HT.
  { intros l x y z k Hx Hy Hz c' Hc'.
    replace (12 * cell + (3 * k + c'))%nat with (3 * (4 * cell + k) + c')%nat
      by lia.
    rewrite (turned_lookup (axisMap 3 (upAxis t')) (upAxis t' ≠ 3) l
               (4 * cell + k) x y z (axisMap_length _ _)); [| | | |done].
    - destruct (decide (upAxis t' ≠ 3)), (decide (upAxis t' = 3)); done.
    - rewrite <- Hx. f_equal. lia.
    - rewrite <- Hy. f_equal. lia.
    - rewrite <- Hz. f_equal. lia. }
  exists (v_x v1), (v_y v1), (v_z v1), (v_x v2), (v_y v2), (v_z v2),
    (v_x v3), (v_y v3), (v_z v3), a, b, c.
  rewrite Ev3.
  split; [rewrite <- (Nat.add_0_r (12 * cell)); exact (HV 0%nat ltac:(lia))|].
  split; [exact (HV 1%nat ltac:(lia))|].
  split; [exact (HV 2%nat ltac:(lia))|].
  split; [exact (HV 3%nat ltac:(lia))|].
  split; [exact (HV 4%nat ltac:(lia))|].
  split; [exact (HV 5%nat ltac:(lia))|].
  split; [exact (HV 6%nat ltac:(lia))|].
  split; [exact (HV 7%nat ltac:(lia))|].
  split; [exact (HV 8%nat ltac:(lia))|].
  split; [by rewrite computeFaceNormal_eq, Efn|].
  cbv zeta. rewrite Ev, En. split.
  - intros c' Hc'.
    pose proof (HT _ _ _ _ 0%nat (HV 0%nat ltac:(lia)) (HV 1%nat ltac:(lia))
                  (HV 2%nat ltac:(lia)) c' Hc') as T1.
    pose proof (HT _ _ _ _ 1%nat (HV 3%nat ltac:(lia)) (HV 4%nat ltac:(lia))
                  (HV 5%nat ltac:(lia)) c' Hc') as T2.
    pose proof (HT _ _ _ _ 2%nat (HV 6%nat ltac:(lia)) (HV 7%nat ltac:(lia))
                  (HV 8%nat ltac:(lia)) c' Hc') as T3.
    rewrite <- !Nat.add_assoc. exact (conj T1 (conj T2 T3)).
  - intros k c' Hk Hc'. rewrite <- Nat.add_assoc.
    apply (HT _ a b c k); [| | |done].
    + rewrite HN by lia. by destruct k as [|[|[|[|k]]]]; try lia.
    + rewrite HN by lia. by destruct k as [|[|[|[|k]]]]; try lia.
    + rewrite HN by lia. by destruct k as [|[|[|[|k]]]]; try lia.
Qed.

End FlatNormals.

(** ** Normals of the smooth mesh *)

Section SmoothStored.
Context {F : Type} `{FloatOps F}.
Implicit Types (t : Torus F).

Lemma smoothNormal_length t i j : length (smoothNormal t i j) = 3%nat.
Proof. reflexivity. Qed.

(** The normal stored for grid point (i, j): what [addNormal] received,
    multiplied by the matrix of the up axis. *)
Lemma smooth_normal_stored majorR minorR sectors sides up t (i j : nat) :
  let t' := rebuilt majorR minorR sectors sides true up t in
  let p := setParams majorR minorR sectors sides true 3 t in
  let k := (i * Z.to_nat (sectorCount t' + 1) + j)%nat in
  Z.of_nat i ≤ sideCount t' → Z.of_nat j ≤ sectorCount t' →
  ∃ a b c,
    smoothNormal p (Z.of_nat i) (Z.of_nat j) = [a; b; c] ∧
    ∀ e, (e < 3)%nat →
      normals t' !! (3 * k + e)%nat
      = (if decide (upAxis t' = 3) then [a; b; c]
         else axisMap 3 (upAxis t') a b c) !! e.
Proof.
  intros t' p k Hi Hj.
  destruct (rebuilt_vertices majorR minorR sectors sides true up t)
    as (_ & En & _ & _ & _ & Esc & Esd & Hsc & Hsd & Hup).
  cbv zeta in En, Esc, Esd. fold t' p in En, Esc, Esd. fold t' in Hup.
  fold p in Hsc, Hsd. unfold MIN_SECTOR_COUNT in Hsc. unfold MIN_SIDE_COUNT in Hsd.
  change (normals (smoothArrays p))
    with (grid (sideCount p + 1) (sectorCount p + 1) (smoothNormal p)) in En.
  subst k. rewrite Esc in *. rewrite Esd in *. clearbody t' p.
  set (k := (i * Z.to_nat (sectorCount p + 1) + j)%nat).
  assert (∀ e, (e < 3)%nat →
            grid (sideCount p + 1) (sectorCount p + 1) (smoothNormal p)
              !! (3 * k + e)%nat
            = smoothNormal p (Z.of_nat i) (Z.of_nat j) !! e) as HG.
  { intros e He. replace (3 * k + e)%nat with (k * 3 + e)%nat by lia.
    subst k. by rewrite (lookup_grid _ _ _ 3) by (done || lia). }
  pose proof (smoothNormal_length p (Z.of_nat i) (Z.of_nat j)) as Hl.
  destruct (smoothNormal p (Z.of_nat i) (Z.of_nat j))
    as [|a [|b [|c [|]]]]; try discriminate Hl.
  exists a, b, c. split; [reflexivity|].
  intros e He. rewrite En.
  rewrite (turned_lookup (axisMap 3 (upAxis t')) (upAxis t' ≠ 3) _ k a b c
             (axisMap_length _ _)); [| | | |done].
  - destruct (decide (upAxis t' ≠ 3)), (decide (upAxis t' = 3)); done.
  - rewrite <- (Nat.add_0_r (3 * k)). by rewrite HG by lia.
  - by rewrite HG by lia.
  - by rewrite HG by lia.
Qed.
End SmoothStored.

Section ExactArithmetic.
Context {F : Type} `{FloatOps F}.
Hypothesis HE : exact_arith F.

Add Ring exact_ring : (ea_ring HE).

Lemma minus_one_negate : f_of_int (-1) = negate (f_of_int 1).
Proof. unfold negate. symmetry. apply (Rmul_1_l (ea_ring HE)). Qed.

(** The scaled offset is the parametric vector. *)
Lemma scaled_offset (r cu su cv sv : F) :
  fgt r (f_of_int 0) = true →
  fmul (fmul (fmul r cu) cv) (fdiv (f_of_int 1) r) = fmul cu cv ∧
  fmul (fmul (fmul r cu) sv) (fdiv (f_of_int 1) r) = fmul cu sv ∧
  fmul (fmul r su) (fdiv (f_of_int 1) r) = su.
Proof.
  intros Hr. pose proof (ea_inverse HE r Hr) as Hi.
  set (li := fdiv (f_of_int 1) r) in *.
  repeat split.
  - transitivity (fmul (fmul r li) (fmul cu cv)); [ring|]. rewrite Hi. ring.
  - transitivity (fmul (fmul r li) (fmul cu sv)); [ring|]. rewrite Hi. ring.
  - transitivity (fmul (fmul r li) su); [ring|]. rewrite Hi. ring.
Qed.

(** The parametric vector has length 1. *)
Lemma parametric_unit (u v : F) :
  fadd (fadd (fmul (fmul (f_cos u) (f_cos v)) (fmul (f_cos u) (f_cos v)))
             (fmul (fmul (f_cos u) (f_sin v)) (fmul (f_cos u) (f_sin v))))
       (fmul (f_sin u) (f_sin u)) = f_of_int 1.
Proof.
  transitivity (fadd (fmul (fmul (f_cos u) (f_cos u))
                        (fadd (fmul (f_cos v) (f_cos v))
                           (fmul (f_sin v) (f_sin v))))
                  (fmul (f_sin u) (f_sin u))); [ring|].
  rewrite (ea_circle HE v).
  transitivity (fadd (fmul (f_cos u) (f_cos u)) (fmul (f_sin u) (f_sin u)));
    [ring|apply (ea_circle HE)].
Qed.

(** The matrices of [changeUpAxis(3, up)] keep the sum of squares. *)
Lemma axisMap_squares (up : Z) (x y z : F) :
  1 ≤ up ≤ 3 → up ≠ 3 →
  ∃ a b c, axisMap 3 up x y z = [a; b; c] ∧
    fadd (fadd (fmul a a) (fmul b b)) (fmul c c)
    = fadd (fadd (fmul x x) (fmul y y)) (fmul z z).
Proof.
  intros Hup Hne.
  assert (up = 1 ∨ up = 2) as [-> | ->] by lia.
  - eexists _, _, _. split; [reflexivity|].
    unfold axisRow. cbn [put0 put1 put2]. rewrite minus_one_negate. ring.
  - eexists _, _, _. split; [reflexivity|].
    unfold axisRow. cbn [put0 put1 put2]. rewrite minus_one_negate. ring.
Qed.
End ExactArithmetic.

Section SmoothNormals.
Context {F : Type} `{FloatOps F}.
Implicit Types (t : Torus F).

End SmoothNormals.

(** ** Exact arithmetic: the real numbers *)

Section RealLaws.

(** The real numbers have the laws of exact arithmetic. *)
Lemma R_exact_arith : exact_arith R.
Proof.
  split.
  - split; intros; unfold negate; simpl; ring.
  - intros r Hr. simpl in *. destruct (Rlt_dec 0 r); [|done].
    field. lra.
  - intros a. simpl. pose proof (sin2_cos2 a) as E. unfold Rsqr in E. lra.
  - simpl. apply sqrt_1.
Qed.
End RealLaws.

(** ** binary32: normals of a thin tube *)

Section Binary32Smooth.

Lemma b32_tiny_positive :
  SFltb (S754_zero false) b32_tiny = true ∧
  SFdiv 24 128 b32_one b32_tiny = S754_infinity false.
Proof. by vm_compute. Qed.

Lemma times_infinity (x : spec_float) (s : bool) :
  b32_not_finite (SFmul 24 128 x (S754_infinity s)).
Proof.
  destruct x; simpl; unfold b32_not_finite; eauto.
Qed.

(** The length the tolerance of the spec would be compared with is then not
    below 2. *)
Lemma not_finite_length (x y z : spec_float) :
  b32_not_finite x → b32_not_finite y → b32_not_finite z →
  SFltb (SFsqrt 24 128
           (SFadd 24 128 (SFadd 24 128 (SFmul 24 128 x x) (SFmul 24 128 y y))
              (SFmul 24 128 z z)))
        (b32_of_int 2) = false.
Proof.
  intros [-> | [sx ->]] [-> | [sy ->]] [-> | [sz ->]];
    try destruct sx; try destruct sy; try destruct sz; by vm_compute.
Qed.
End Binary32Smooth.

Section Binary32Normals.

End Binary32Normals.

(** ** Exact arithmetic: texture coordinates *)

Section RealTexture.
Implicit Types (t : Torus R).

Lemma ratio_unit (a b : Z) :
  0 ≤ a ≤ b → 0 < b → (0 <= IZR a / IZR b <= 1)%R.
Proof.
  intros [Ha Hab] Hb.
  apply IZR_le in Ha, Hab. apply IZR_lt in Hb.
  pose proof (Rinv_0_lt_compat _ Hb) as Hq.
  assert (IZR b * / IZR b = 1)%R as Hbq by (apply Rinv_r; lra).
  unfold Rdiv. split; [nra|].
  rewrite <- Hbq. apply Rmult_le_compat_r; lra.
Qed.

(** X11.  In exact arithmetic every texture coordinate that [set] stores,
    in smooth and in flat mode and for any arguments, lies between 0
    and 1. *)
Theorem X11_texCoords_in_unit_square
    (majorR minorR : R) (sectors sides : Z) (smooth_ : bool) (up : Z) t :
  ∃ t', set majorR minorR sectors sides smooth_ up t = Some t' ∧
    Forall (fun x => (0 <= x <= 1)%R) (texCoords t').
Proof.
  eexists. split; [apply set_run|].
  destruct (rebuilt_vertices majorR minorR sectors sides smooth_ up t)
    as (_ & _ & -> & _ & _ & _ & _ & Hsc & Hsd & _).
  set (p := setParams majorR minorR sectors sides smooth_ 3 t) in *.
  clearbody p. unfold MIN_SECTOR_COUNT in Hsc. unfold MIN_SIDE_COUNT in Hsd.
  destruct smooth_.
  - change (texCoords (smoothArrays p))
      with (grid (sideCount p + 1) (sectorCount p + 1) (gridTexCoord p)).
    apply Forall_grid. intros i j Hi Hj. unfold gridTexCoord.
    repeat apply list.Forall_cons_2; [| |apply list.Forall_nil_2];
      apply ratio_unit; lia.
  - change (texCoords (flatArrays p))
      with (grid (sideCount p) (sectorCount p) (flatQuadTexCoords p)).
    apply Forall_grid. intros i j Hi Hj. unfold flatQuadTexCoords, flatVertex.
    simpl.
    repeat apply list.Forall_cons_2; try apply list.Forall_nil_2;
      apply ratio_unit; lia.
Qed.
End RealTexture.

(** ** Exact arithmetic: reversing and turning commute *)

Section RealCommute.
Implicit Types (t : Torus R).

Lemma list3_eq (a b c a' b' c' : R) :
  a = a' → b = b' → c = c' → [a; b; c] = [a'; b'; c'].
Proof. by intros -> -> ->. Qed.

Lemma axisMap_negate (from to : Z) (x y z : R) :
  axisMap from to (negate x) (negate y) (negate z)
  = negate <$> axisMap from to x y z.
Proof.
  unfold axisMap.
  destruct (axisColumns from to) as [[[[? ?] ?] [[? ?] ?]] [[? ?] ?]].
  unfold axisRow, negate. simpl. apply list3_eq; ring.
Qed.

Lemma map3_negate (from to : Z) (n : nat) : ∀ l : list R,
  length l = (3 * n)%nat →
  map3 (axisMap from to) (negate <$> l)
  = negate <$> map3 (axisMap from to) l.
Proof.
  induction n as [|n IH]; intros l Hl.
  - by destruct l.
  - destruct l as [|x [|y [|z l]]]; simpl in Hl; try lia.
    cbn [fmap list_fmap map3].
    rewrite fmap_app, <- axisMap_negate, <- IH by lia. done.
Qed.

(** X18.  In exact arithmetic, on an object built by the constructor and
    the mutators, [reverseNormals] and [setUpAxis] commute: reversing and
    then turning gives the object that turning and then reversing gives,
    for every requested axis. *)
Theorem X18_reverseNormals_commutes_with_setUpAxis t (up : Z) :
  reachable t →
  reverseNormals t ≫= setUpAxis up = setUpAxis up t ≫= reverseNormals.
Proof.
  intros Hr. destruct (reachable_inv t Hr) as [Hinv _].
  pose proof Hinv as (_ & _ & _ & Hm & _).
  pose proof (reverseNormals_run t _ Hm) as R1.
  pose proof (reverseNormals_inv t _ Hinv R1) as Hinv1.
  rewrite R1, bind_some, (setUpAxis_run up _ Hinv1).
  rewrite (setUpAxis_run up t Hinv), bind_some.
  change (upAxis (normalsReversed t)) with (upAxis t).
  case_decide as Hd.
  - by rewrite (reverseNormals_run t _ Hm).
  - pose proof (proj1 (proj2 (proj2 (proj2 (setUpAxis_inv up t _ Hinv
                  (setUpAxis_run up t Hinv)))))) as Hm2.
    rewrite decide_False in Hm2 by done.
    rewrite (reverseNormals_run _ _ Hm2). f_equal.
    destruct Hm as [(Hv & Hn & Ht & _) _].
    unfold normalsReversed, axisChanged, with_upAxis. cbv zeta.
    cbn [vertices normals texCoords indices lineIndices interleavedVertices
         interleavedStride majorRadius minorRadius sectorCount sideCount smooth
         upAxis with_indices with_interleaved with_normals with_vertices].
    by rewrite (map3_negate _ _ (vertexCount t)) by done.
Qed.
End RealCommute.

(** ** Exact arithmetic: small faces lose their normal *)

Section RealSmall.
Implicit Types (t : Torus R).

Lemma product_small (d a b : R) :
  (- d <= a <= d)%R → (- d <= b <= d)%R → (- (d * d) <= a * b <= d * d)%R.
Proof. intros [Ha1 Ha2] [Hb1 Hb2]. split; nra. Qed.

Lemma faceNormal_small (x1 y1 z1 x2 y2 z2 x3 y3 z3 : R) :
  let d := (1 / 2000)%R in
  (- d <= x2 - x1 <= d)%R → (- d <= y2 - y1 <= d)%R →
  (- d <= z2 - z1 <= d)%R → (- d <= x3 - x1 <= d)%R →
  (- d <= y3 - y1 <= d)%R → (- d <= z3 - z1 <= d)%R →
  faceNormal x1 y1 z1 x2 y2 z2 x3 y3 z3 = [0; 0; 0]%R.
Proof.
  intros d Hx2 Hy2 Hz2 Hx3 Hy3 Hz3.
  unfold faceNormal. cbv zeta. simpl.
  set (cx := ((y2 - y1) * (z3 - z1) - (z2 - z1) * (y3 - y1))%R).
  set (cy := ((z2 - z1) * (x3 - x1) - (x2 - x1) * (z3 - z1))%R).
  set (cz := ((x2 - x1) * (y3 - y1) - (y2 - y1) * (x3 - x1))%R).
  destruct (Rlt_dec _ _) as [Hl|Hl]; [exfalso|done].
  assert (- (2 * (d * d)) <= cx <= 2 * (d * d))%R as Hcx.
  { pose proof (product_small d _ _ Hy2 Hz3).
    pose proof (product_small d _ _ Hz2 Hy3). unfold cx. lra. }
  assert (- (2 * (d * d)) <= cy <= 2 * (d * d))%R as Hcy.
  { pose proof (product_small d _ _ Hz2 Hx3).
    pose proof (product_small d _ _ Hx2 Hz3). unfold cy. lra. }
  assert (- (2 * (d * d)) <= cz <= 2 * (d * d))%R as Hcz.
  { pose proof (product_small d _ _ Hx2 Hy3).
    pose proof (product_small d _ _ Hy2 Hx3). unfold cz. lra. }
  assert (0 <= 2 * (d * d))%R as Hd0 by (unfold d; lra).
  pose proof (product_small _ _ _ Hcx Hcx) as Sx.
  pose proof (product_small _ _ _ Hcy Hcy) as Sy.
  pose proof (product_small _ _ _ Hcz Hcz) as Sz.
  assert (cx * cx + cy * cy + cz * cz
          <= (1 / 1000000) * (1 / 1000000))%R as HS.
  { unfold d in Sx, Sy, Sz. lra. }
  apply sqrt_le_1_alt in HS.
  rewrite sqrt_square in HS by lra. lra.
Qed.

Lemma scaled_small (B a c : R) :
  (- B <= a <= B)%R → (- 1 <= c <= 1)%R → (- B <= a * c <= B)%R.
Proof.
  intros [Ha1 Ha2] [Hc1 Hc2].
  assert (0 <= (B - a) * (1 - c))%R by (apply Rmult_le_pos; lra).
  assert (0 <= (B + a) * (1 + c))%R by (apply Rmult_le_pos; lra).
  assert (0 <= (B - a) * (1 + c))%R by (apply Rmult_le_pos; lra).
  assert (0 <= (B + a) * (1 - c))%R by (apply Rmult_le_pos; lra).
  split; lra.
Qed.

Lemma flatVertex_bound t (i j : Z) :
  (0 <= majorRadius t)%R → (0 <= minorRadius t)%R →
  let B := (majorRadius t + minorRadius t)%R in
  (- B <= v_x (flatVertex t i j) <= B)%R ∧
  (- B <= v_y (flatVertex t i j) <= B)%R ∧
  (- B <= v_z (flatVertex t i j) <= B)%R.
Proof.
  intros HR Hr B. unfold flatVertex. cbv zeta.
  cbn [v_x v_y v_z fadd fmul f_cos f_sin R_FloatOps].
  pose proof (COS_bound (sideAngle t i)) as Hcu.
  pose proof (SIN_bound (sideAngle t i)) as Hsu.
  pose proof (COS_bound (sectorAngle t j)) as Hcv.
  pose proof (SIN_bound (sectorAngle t j)) as Hsv.
  pose proof (scaled_small (minorRadius t) (minorRadius t) _
                ltac:(lra) Hcu) as Hrc.
  pose proof (scaled_small (minorRadius t) (minorRadius t) _
                ltac:(lra) Hsu) as Hrs.
  assert (- B <= majorRadius t + minorRadius t * cos (sideAngle t i) <= B)%R
    as HA by (unfold B; lra).
  split; [by apply scaled_small|]. split; [by apply scaled_small|].
  unfold B. lra.
Qed.

Lemma map3_zero (f : R → R → R → list R) (l : list R) :
  f 0%R 0%R 0%R = [0; 0; 0]%R →
  Forall (fun x => x = 0%R) l → Forall (fun x => x = 0%R) (map3 f l).
Proof.
  intros Hf. remember (length l) as n eqn:Hn.
  assert (length l ≤ n)%nat as Hle by lia. clear Hn. revert l Hle.
  induction n as [|n IH]; intros l Hle Hl.
  - destruct l; [constructor|simpl in Hle; lia].
  - destruct l as [|x [|y [|z l]]]; try by constructor.
    apply list.Forall_cons in Hl as [-> Hl].
    apply list.Forall_cons in Hl as [-> Hl].
    apply list.Forall_cons in Hl as [-> Hl].
    cbn [map3]. rewrite Hf. repeat constructor.
    apply IH; [simpl in Hle; lia|done].
Qed.

(** X19.  EPSILON in [computeFaceNormal] is an absolute length, so flat
    shading depends on the scale of the model.  In exact arithmetic, when
    both radii are positive and their sum is at most 1/4000, every normal
    of the flat mesh that [set] builds is the zero vector, whatever the
    counts and the up axis. *)
Theorem X19_small_flat_torus_has_no_normals
    (majorR minorR : R) (sectors sides up : Z) t :
  (0 < majorR)%R → (0 < minorR)%R → (majorR + minorR <= 1 / 4000)%R →
  ∃ t', set majorR minorR sectors sides false up t = Some t' ∧
    normals t' ≠ [] ∧ Forall (fun x => x = 0%R) (normals t').
Proof.
  intros HR Hr Hsmall. eexists. split; [apply set_run|].
  destruct (rebuilt_vertices majorR minorR sectors sides false up t)
    as (_ & En & _ & _ & _ & _ & _ & Hsc & Hsd & Hup).
  destruct (rebuilt_lengths majorR minorR sectors sides false up t)
    as (Hsc' & Hsd' & _ & Hlen & _).
  cbv zeta in En, Hlen, Hsc', Hsd'.
  set (t' := rebuilt majorR minorR sectors sides false up t) in *.
  set (p := setParams majorR minorR sectors sides false 3 t) in *.
  assert (majorRadius p = majorR ∧ minorRadius p = minorR) as [ER Er].
  { subst p. simpl.
    destruct (Rlt_dec 0 majorR); [|lra]. destruct (Rlt_dec 0 minorR); [|lra].
    done. }
  clearbody t' p. split.
  { intros E. rewrite E in Hlen. simpl in Hlen. nia. }
  rewrite En. clear En.
  change (normals (flatArrays p))
    with (grid (sideCount p) (sectorCount p) (flatQuadNormals p)).
  assert (Forall (fun x => x = 0%R)
            (grid (sideCount p) (sectorCount p) (flatQuadNormals p))) as Hz.
  { apply Forall_grid. intros i j _ _.
    unfold flatQuadNormals, quadNormal. cbv zeta.
    destruct (flatVertex_bound p i j) as (X1 & Y1 & Z1); [lra..|].
    destruct (flatVertex_bound p (i + 1) j) as (X2 & Y2 & Z2); [lra..|].
    destruct (flatVertex_bound p i (j + 1)) as (X3 & Y3 & Z3); [lra..|].
    cbv zeta in X1, Y1, Z1, X2, Y2, Z2, X3, Y3, Z3.
    rewrite ER, Er in X1, Y1, Z1, X2, Y2, Z2, X3, Y3, Z3.
    rewrite faceNormal_small by (cbv zeta; lra).
    repeat constructor. }
  case_decide; [|done].
  apply map3_zero; [|done].
  unfold axisMap.
  destruct (axisColumns 3 (upAxis t')) as [[[[? ?] ?] [[? ?] ?]] [[? ?] ?]].
  unfold axisRow. simpl. apply list3_eq; ring.
Qed.
End RealSmall.

(** ** Instances of the theorems *)

Section Witnesses.
Lemma sampleTorus_run :
  Torus_new sampleMem 1%R (1 / 2)%R 4 3 true 3 = Some sampleObject.
Proof. unfold sampleObject, Torus_new. apply set_run. Qed.

Lemma sampleObject_reachable : reachable sampleObject.
Proof.
  exact (reach_new sampleMem 1%R (1 / 2)%R 4 3 true 3 sampleObject
           sampleTorus_run).
Qed.

Lemma C1_witness :
  Torus_new sampleMem 1%R (1 / 2)%R 4 3 true 3 = Some sampleObject ∧
  ∃ n : nat,
    length (vertices sampleObject) = (3 * n)%nat ∧
    length (normals sampleObject) = (3 * n)%nat ∧
    length (texCoords sampleObject) = (2 * n)%nat ∧
    Forall (fun x => 0 ≤ x < Z.of_nat n) (indices sampleObject) ∧
    Forall (fun x => 0 ≤ x < Z.of_nat n) (lineIndices sampleObject) ∧
    (length (indices sampleObject) mod 3 = 0)%nat ∧
    (length (lineIndices sampleObject) mod 2 = 0)%nat.
Proof.
  split; [exact sampleTorus_run|].
  exact (C1_arrays_aligned_and_indices_in_range sampleObject
           sampleObject_reachable).
Defined.

Lemma C3_witness :
  Torus_new sampleMem 1%R (1 / 2)%R 4 3 true 3 = Some sampleObject ∧
  ∃ n : nat,
    length (vertices sampleObject) = (3 * n)%nat ∧
    length (interleavedVertices sampleObject) = (8 * n)%nat ∧
    (∀ i c, (i < n)%nat → (c < 3)%nat →
       interleavedVertices sampleObject !! (8 * i + c)%nat
       = vertices sampleObject !! (3 * i + c)%nat) ∧
    (∀ i c, (i < n)%nat → (c < 3)%nat →
       interleavedVertices sampleObject !! (8 * i + 3 + c)%nat
       = normals sampleObject !! (3 * i + c)%nat) ∧
    (∀ i c, (i < n)%nat → (c < 2)%nat →
       interleavedVertices sampleObject !! (8 * i + 6 + c)%nat
       = texCoords sampleObject !! (2 * i + c)%nat) ∧
    getInterleavedStride sampleObject = 32 ∧ 32 = 8 * 4.
Proof.
  split; [exact sampleTorus_run|].
  exact (C3_interleaved_layout sampleObject sampleObject_reachable).
Defined.

Lemma C6_witness :
  ∃ t1 t2,
    reverseNormals sampleMesh = Some t1 ∧ reverseNormals t1 = Some t2 ∧
    normals t1 = negate <$> normals sampleMesh ∧
    (∀ (k : nat) a b c,
       indices sampleMesh !! (3 * k)%nat = Some a →
       indices sampleMesh !! (3 * k + 1)%nat = Some b →
       indices sampleMesh !! (3 * k + 2)%nat = Some c →
       indices t1 !! (3 * k)%nat = Some c ∧
       indices t1 !! (3 * k + 1)%nat = Some b ∧
       indices t1 !! (3 * k + 2)%nat = Some a) ∧
    normals t2 = normals sampleMesh ∧
    interleavedVertices t2 = interleavedVertices sampleMesh ∧
    indices t2 = indices sampleMesh.
Proof.
  apply (C6_reverseNormals_twice 3 sampleMesh).
  - intros x. unfold negate. simpl. lra.
  - split; [|reflexivity].
    repeat split; simpl; try lia;
      [by exists 1%nat|by exists 2%nat|repeat constructor; lia..].
Defined.

Lemma C9_witness :
  (∃ t', changeUpAxis 3 1 sampleMesh = Some t' ∧
     texCoords t' = texCoords sampleMesh ∧
     indices t' = indices sampleMesh ∧
     lineIndices t' = lineIndices sampleMesh) ∧
  (∃ t', reverseNormals sampleMesh = Some t' ∧
     texCoords t' = texCoords sampleMesh ∧
     lineIndices t' = lineIndices sampleMesh ∧
     vertices t' = vertices sampleMesh ∧
     length (indices t') = length (indices sampleMesh)).
Proof.
  apply (C9_in_place_frame 3 sampleMesh 3 1).
  split; [|reflexivity].
  repeat split; simpl; try lia;
    [by exists 1%nat|by exists 2%nat|repeat constructor; lia..].
Defined.


End Witnesses.

(** ** Instances of the further properties *)

Section MoreWitnesses.
Lemma set_sample_counts (smooth_ : bool) (up : Z) (t' : Torus R) :
  set 1%R (1 / 2)%R 4 3 smooth_ up sampleMem = Some t' →
  sideCount t' = 3 ∧ sectorCount t' = 4.
Proof.
  rewrite set_run. intros [= <-].
  by destruct (rebuilt_scalars 1%R (1 / 2)%R 4 3 smooth_ up sampleMem)
    as (_ & _ & -> & -> & _).
Qed.

Lemma sampleObject_upAxis : upAxis sampleObject = 3.
Proof. unfold sampleObject. by rewrite rebuilt_upAxis. Qed.

Lemma sampleObject_small :
  sizeof_float * Z.of_nat (length (interleavedVertices sampleObject)) < 2 ^ 32.
Proof.
  destruct (reachable_lengths sampleObject sampleObject_reachable)
    as (n & _ & Hv & _ & _ & -> & _).
  assert (Z.of_nat (length (vertices sampleObject)) = 3 * 20) as E.
  { unfold sampleObject.
    match goal with
    | |- context [rebuilt ?a ?b ?c ?d ?e ?f ?g] =>
        destruct (rebuilt_lengths a b c d e f g) as (_ & _ & Hl & _);
        destruct (rebuilt_scalars a b c d e f g) as (_ & _ & Hc & Hd & _)
    end.
    cbv zeta in Hl, Hc, Hd. rewrite Hl, Hc, Hd. reflexivity. }
  unfold sizeof_float. lia.
Qed.

Lemma fgt_sample : fgt 1%R (f_of_int 0) = true ∧ fgt (1 / 2)%R (f_of_int 0) = true.
Proof.
  simpl. destruct (Rlt_dec 0 1); [|lra]. destruct (Rlt_dec 0 (1 / 2)); [|lra].
  done.
Qed.

Lemma X1_witness :
  set 1%R (1 / 2)%R 4 3 true 3 sampleMesh
  = set 1%R (1 / 2)%R 4 3 true 3 sampleBlank.
Proof.
  apply (X1_set_ignores_previous_mesh 1%R (1 / 2)%R 4 3 true 3
           sampleMesh sampleBlank); reflexivity.
Defined.

Lemma X3_witness :
  ∃ t1, reverseNormals sampleObject = Some t1 ∧
    ∀ (majorR minorR : R) sectors sides smooth_ up,
      set majorR minorR sectors sides smooth_ up t1
      = set majorR minorR sectors sides smooth_ up sampleObject.
Proof.
  exact (X3_rebuild_forgets_reverseNormals sampleObject sampleObject_reachable).
Defined.

Lemma X4_witness :
  setSmooth false sampleObject
  = if decide (smooth sampleObject = false) then Some sampleObject
    else set (majorRadius sampleObject) (minorRadius sampleObject)
           (sectorCount sampleObject) (sideCount sampleObject) false
           (upAxis sampleObject) sampleObject.
Proof.
  exact (X4_setSmooth_is_set false sampleObject sampleObject_reachable).
Defined.

Lemma X5_witness :
  radii_positive sampleObject ∧ majorRadius sampleObject = 1%R ∧
  minorRadius sampleObject = (1 / 2)%R.
Proof.
  exact (proj1 X5_radii_stay_positive sampleMem 1%R (1 / 2)%R 4 3 true 3
           sampleObject (proj1 fgt_sample) (proj2 fgt_sample) sampleTorus_run).
Defined.

Lemma X6_witness :
  ∃ t', set 1%R (1 / 2)%R 4 3 true 3 sampleMem = Some t' ∧
    ∃ a b c d,
      indices t' !! 0%nat = Some a ∧ indices t' !! 1%nat = Some b ∧
      indices t' !! 2%nat = Some c ∧ indices t' !! 3%nat = Some c ∧
      indices t' !! 4%nat = Some b ∧ indices t' !! 5%nat = Some d ∧
      lineIndices t' !! 0%nat = Some a ∧ lineIndices t' !! 1%nat = Some b ∧
      lineIndices t' !! 2%nat = Some a ∧ lineIndices t' !! 3%nat = Some c.
Proof.
  destruct (X6_cell_triangles_and_edges 1%R (1 / 2)%R 4 3 true 3 sampleMem)
    as (t' & Hs & Hq).
  exists t'. split; [exact Hs|].
  destruct (set_sample_counts _ _ _ Hs) as [Ed Ec].
  apply (Hq 0%nat). rewrite Ed, Ec. simpl. lia.
Defined.

Lemma X7_witness :
  getNormalCount sampleObject = getVertexCount sampleObject ∧
  getInterleavedVertexSize sampleObject
  = getInterleavedVertexCount sampleObject * getInterleavedStride sampleObject.
Proof.
  destruct (X7_accessors_agree sampleObject sampleObject_reachable
              sampleObject_small) as (H1 & _ & _ & _ & _ & _ & _ & H8 & _).
  exact (conj H1 H8).
Defined.

Lemma X8_witness :
  3 * getVertexCount sampleObject = Z.of_nat (length (vertices sampleObject))
  ↔ Z.of_nat (length (vertices sampleObject)) < 2 ^ 32.
Proof.
  exact (proj1 X8_counts_wrap_at_32_bits sampleObject sampleObject_reachable).
Defined.

Lemma X18_witness :
  reverseNormals sampleObject ≫= setUpAxis 1
  = setUpAxis 1 sampleObject ≫= reverseNormals.
Proof.
  exact (X18_reverseNormals_commutes_with_setUpAxis sampleObject 1
           sampleObject_reachable).
Defined.

Lemma X19_witness :
  ∃ t', set (1 / 10000)%R (1 / 20000)%R 36 18 false 3 sampleMem = Some t' ∧
    normals t' ≠ [] ∧ Forall (fun x => x = 0%R) (normals t').
Proof.
  apply (X19_small_flat_torus_has_no_normals (1 / 10000)%R (1 / 20000)%R
           36 18 3 sampleMem); lra.
Defined.
(** The real numbers have the laws of the axis arithmetic. *)
Lemma R_axis_arith : axis_arith (fun x : R => x ≠ 0%R) (fun x : R => x = 0%R).
Proof.
  split; simpl; intros; lra.
Qed.

Lemma R_axis_values (l : list R) :
  Forall (axis_value (fun x : R => x ≠ 0%R) (fun x : R => x = 0%R)) l.
Proof.
  apply list.Forall_forall. intros x _. unfold axis_value.
  destruct (Req_dec x 0); auto.
Qed.

Lemma X16_witness :
  ∃ t1 t2 t3,
    setUpAxis 1 sampleObject = Some t1 ∧ setUpAxis 2 t1 = Some t2 ∧
    setUpAxis 3 t2 = Some t3 ∧ upAxis t3 = 3 ∧
    texCoords t3 = texCoords sampleObject.
Proof.
  destruct (X16_axis_cycle_is_quarter_turn _ _ R_axis_arith sampleObject
              sampleObject_reachable sampleObject_upAxis
              (R_axis_values _) (R_axis_values _))
    as (_ & t1 & t2 & t3 & H1 & H2 & H3 & Hu & Ht & _).
  exists t1, t2, t3. exact (conj H1 (conj H2 (conj H3 (conj Hu Ht)))).
Defined.
End MoreWitnesses.

(** ** The model at work *)

Section Examples.
(** The index loops of smooth mode on a grid of 3 sectors and 2 sides:
    triangles (k1, k2, k1+1), (k1+1, k2, k2+1) and edges (k1, k2),
    (k1, k1+1), rows of 4 vertices. *)
Example smooth_triangles_3x2 :
  indices <$> smoothIndices (clearArrays sampleMesh)
  = Some [0; 4; 1; 1; 4; 5; 1; 5; 2; 2; 5; 6; 2; 6; 3; 3; 6; 7;
          4; 8; 5; 5; 8; 9; 5; 9; 6; 6; 9; 10; 6; 10; 7; 7; 10; 11].
Proof. vm_compute. reflexivity. Qed.

Example smooth_lines_3x2 :
  lineIndices <$> smoothIndices (clearArrays sampleMesh)
  = Some [0; 4; 0; 1; 1; 5; 1; 2; 2; 6; 2; 3;
          4; 8; 4; 5; 5; 9; 5; 6; 6; 10; 6; 7].
Proof. vm_compute. reflexivity. Qed.

(** Flat mode on the same grid: quads of 4 vertices of their own. *)
Example flat_triangles_3x2 :
  indices <$> buildVerticesFlat sampleMesh
  = Some [0; 1; 2; 2; 1; 3; 4; 5; 6; 6; 5; 7; 8; 9; 10; 10; 9; 11;
          12; 13; 14; 14; 13; 15; 16; 17; 18; 18; 17; 19;
          20; 21; 22; 22; 21; 23].
Proof.
  rewrite buildVerticesFlat_run by (simpl; lia).
  cbn [fmap option_fmap option_map].
  destruct (finishMesh_scalars (flatArrays sampleMesh))
    as (_ & _ & _ & _ & _ & _ & _ & _ & -> & _).
  vm_compute. reflexivity.
Qed.

(** [reverseNormals] turns the one triangle of [sampleMesh] around. *)
Example reverseNormals_sample :
  indices <$> reverseNormals sampleMesh = Some [2; 1; 0] ∧
  normals <$> reverseNormals sampleMesh
  = Some (negate <$> normals sampleMesh).
Proof. split; reflexivity. Qed.

(** Three corners on one line: no surface, the zero vector. *)
Example computeFaceNormal_degenerate :
  computeFaceNormal 0%R 0%R 0%R 1%R 0%R 0%R 2%R 0%R 0%R
  = Some [0%R; 0%R; 0%R].
Proof.
  rewrite computeFaceNormal_eq. unfold faceNormal. simpl.
  destruct (Rlt_dec _ _) as [Hlt|]; [|reflexivity].
  exfalso. revert Hlt.
  match goal with
  | |- (_ < sqrt ?e)%R → _ => replace e with 0%R by lra
  end.
  rewrite sqrt_0. lra.
Qed.

(** A triangle in the plane z = 0, counter-clockwise: the normal is +z. *)
Example computeFaceNormal_xy :
  computeFaceNormal 0%R 0%R 0%R 1%R 0%R 0%R 0%R 1%R 0%R
  = Some [(0 * (1 / 1))%R; (0 * (1 / 1))%R; (1 * (1 / 1))%R].
Proof.
  rewrite computeFaceNormal_eq. unfold faceNormal. simpl.
  match goal with
  | |- context [sqrt ?e] => replace e with 1%R by lra
  end.
  rewrite sqrt_1.
  destruct (Rlt_dec _ _) as [Hlt|Hn]; [|exfalso; apply Hn; lra].
  f_equal. apply list3_eq; lra.
Qed.

(** The spec's clamp scenario: 1 sector and 0 sides requested. *)
Example set_clamps_1_0 (t : Torus R) :
  ∃ t', set 1%R (1 / 2)%R 1 0 true 3 t = Some t' ∧
    sectorCount t' = 3 ∧ sideCount t' = 2.
Proof.
  eexists. split; [apply set_run|]. unfold rebuilt. cbv zeta.
  match goal with
  | |- context [finishMesh ?a] =>
      destruct (finishMesh_scalars a) as (_ & _ & -> & -> & _)
  end.
  split; reflexivity.
Qed.
End Examples.
